(** * rlfabric: temporal-difference update rules ([algos.py])

    A shallow embedding of the n-step return engine ([NStepAlgo]), its five
    return policies, the planning wrappers ([Dyna], [PrioritizedSweep]) and
    the reward-shaping wrapper ([ExploreBonus]), followed by the properties
    of the specification that were checked against them.

    Python floats are IEEE binary64 numbers: they are modelled by Rocq's
    primitive floats, so arithmetic evaluates as it does in the program.
    Python ints are [Z].  An exception is the [Raise] result. *)

From Stdlib Require Import ZArith List Lia Floats Permutation ZifyNat.
From stdpp Require Import gmap list.

Set Warnings "-inexact-float".
#[local] Open Scope Z_scope.

(** ** Python-level values *)

(** The outcome of a call: a value, or an exception that propagates. *)
Inductive result (X : Type) : Type :=
| Ok (x : X)
| Raise.
Arguments Ok {X} x.
Arguments Raise {X}.

Definition result_bind {X Y : Type} (m : result X) (k : X → result Y) : result Y :=
  match m with
  | Ok x => k x
  | Raise => Raise
  end.

(** [T_step] holds either the object [np.inf] or a Python int. *)
Inductive TStep : Type :=
| Inf
| Fin (z : Z).

(** [self.T_step is np.inf] *)
Definition is_inf (T : TStep) : bool :=
  match T with
  | Inf => true
  | Fin _ => false
  end.

(** [t < self.T_step] *)
Definition lt_TStep (t : Z) (T : TStep) : bool :=
  match T with
  | Inf => true
  | Fin z => t <? z
  end.

(** [min(t + 1, self.T_step)]; the result indexes the buffer, it is an int. *)
Definition min_TStep (n : Z) (T : TStep) : Z :=
  match T with
  | Inf => n
  | Fin z => Z.min n z
  end.

(** [tgt_t >= self.T_step - 1]; [np.inf - 1] is [np.inf]. *)
Definition ge_TStep_pred (n : Z) (T : TStep) : bool :=
  match T with
  | Inf => false
  | Fin z => n >=? z - 1
  end.

(** [range(start, stop, -1)] as the list of its values:
    [start, start - 1, ..., stop + 1], empty when [start <= stop]. *)
Definition range_down (start stop : Z) : list Z :=
  map (λ k : nat, start - Z.of_nat k) (seq 0 (Z.to_nat (start - stop))).

(** Python's [sum] of a list of floats: left to right, from 0. *)
Definition py_sum (xs : list float) : float :=
  fold_left PrimFloat.add xs 0%float.

(** ** [utils.Buffer] *)

Module Buffer.
Section Buffer.
Context {V : Type}.

(** Modelled from the spec: [utils.Buffer] is not part of the sources.  The
    specification describes it as a fixed-capacity indexed store with a
    default fill value and wrap-around addressing by absolute step index
    (a slot lives at index [t mod capacity]). *)
Record t : Type := mk { fill : V; data : list V }.

(** Modelled from the spec: [Buffer(capacity, default)], every slot filled
    with the default. *)
Definition make (capacity : Z) (default : V) : t :=
  {| fill := default; data := replicate (Z.to_nat capacity) default |}.

Definition capacity (b : t) : Z := Z.of_nat (length (data b)).

(** Modelled from the spec: the slot of the absolute step index [i]. *)
Definition index (b : t) (i : Z) : nat := Z.to_nat (i mod capacity b).

(** Modelled from the spec: [get(index)]. *)
Definition get (b : t) (i : Z) : V :=
  default (fill b) (data b !! index b i).

(** Modelled from the spec: [set(index, value)]. *)
Definition set (b : t) (i : Z) (v : V) : t :=
  {| fill := fill b; data := <[index b i := v]> (data b) |}.
End Buffer.
Arguments t V : clear implicits.
End Buffer.

(** ** [baseagent]: the agent and the command handed back to it *)

(** Modelled from the spec: [baseagent.Command] is not part of the sources.
    The specification gives its fields: whether to update, the return value,
    the credited state and action, and whether the credit is terminal.
    [Command(update=False)] leaves the other fields at their defaults. *)
Record Command (St Act : Type) : Type := mkCommand {
  cmd_update : bool;
  cmd_ret : option float;
  cmd_s : option St;
  cmd_a : option Act;
  cmd_terminate : bool
}.
Arguments mkCommand {St Act}.
Arguments cmd_update {St Act}.
Arguments cmd_ret {St Act}.
Arguments cmd_s {St Act}.
Arguments cmd_a {St Act}.
Arguments cmd_terminate {St Act}.

Definition Command_no_update {St Act : Type} : Command St Act :=
  mkCommand false None None None false.

(** The capabilities the algorithms use of [baseagent.Agent], which is not
    part of the sources: they are the parameters of the development.  [A] is
    the agent's internal state (value store, policy, random state); reads
    leave it unchanged, [get_action] and [update] return the new state. *)
Module Agent.
Class t (A St Act : Type) : Type := {
  q : A → St → Act → float;
  best_action : A → St → Act;
  best_action_val : A → St → float;
  action_prob : A → St → Act → float;
  action_spec : A → St → list Act;
  get_action : A → St → Act * A;
  update : A → float → St → Act → A
}.
End Agent.

(** ** [class Algo]: the interface every update rule implements *)

(** [__call__(self, agent, s, a, r, new_s, new_a, t, is_terminal)] and
    [init_episode(self, s, a)].  A call returns the object and the agent as
    the call left them, and the command or the exception. *)
Class Algo (A St Act : Type) (X : Type) : Type := {
  algo_call : X → A → St → Act → float → St → Act → Z → bool →
              X * A * result (Command St Act);
  algo_init_episode : X → St → Act → X
}.

(** One environment step as the algorithms receive it:
    [(s, a, r, new_s, new_a, t, is_terminal)]. *)
Record Transition (St Act : Type) : Type := mkTransition {
  tr_s : St;
  tr_a : Act;
  tr_r : float;
  tr_new_s : St;
  tr_new_a : Act;
  tr_t : Z;
  tr_terminal : bool
}.
Arguments mkTransition {St Act}.
Arguments tr_s {St Act}.
Arguments tr_a {St Act}.
Arguments tr_r {St Act}.
Arguments tr_new_s {St Act}.
Arguments tr_new_a {St Act}.
Arguments tr_t {St Act}.
Arguments tr_terminal {St Act}.

(** ** [class NStepAlgo] and the return policies *)

Module NStepAlgo.
Section NStepAlgo.
Context {A St Act : Type} `{!Agent.t A St Act} `{!EqDecision Act}.

(** The two abstract methods a subclass supplies.  [self] enters them
    through [self.gamma] only. *)
Record ReturnPolicy : Type := mkPolicy {
  end_return : float → A → St → Act → float → float;
  step_return : float → A → St → Act → float → float → float
}.

Definition Sarsa : ReturnPolicy := {|
  end_return gamma agent s a r := (r + gamma * Agent.q agent s a)%float;
  step_return gamma agent s a r ret := (r + gamma * ret)%float
|}.

Definition ExpectedSarsa : ReturnPolicy := {|
  end_return gamma agent s a r :=
    (r + gamma * py_sum (map (λ cur_a, Agent.action_prob agent s cur_a * Agent.q agent s cur_a)
                             (Agent.action_spec agent s)))%float;
  step_return gamma agent s a r ret := (r + gamma * ret)%float
|}.

Definition QLearn : ReturnPolicy := {|
  end_return gamma agent s a r := (r + gamma * Agent.best_action_val agent s)%float;
  step_return gamma agent s a r ret := (r + gamma * ret)%float
|}.

Definition TreeLearn : ReturnPolicy := {|
  end_return gamma agent s a r := (r + gamma * Agent.best_action_val agent s)%float;
  step_return gamma agent s a r ret :=
    let best_a := Agent.best_action agent s in
    let tmp := if decide (a = best_a) then ret else Agent.q agent s best_a in
    (r + gamma * tmp)%float
|}.

Definition OnPolicyTreeLearn : ReturnPolicy := {|
  end_return gamma agent s a r := (r + gamma * Agent.best_action_val agent s)%float;
  step_return gamma agent s a r ret :=
    let tmp := py_sum (map (λ cur_a, (Agent.action_prob agent s cur_a *
                                      (if decide (cur_a = a) then ret else Agent.q agent s cur_a))%float)
                           (Agent.action_spec agent s)) in
    (r + gamma * tmp)%float
|}.

(** A buffer slot is the triple [(s, a, r)]; [None] stands for the fill
    value [(None, None, None)] of a slot that was never written. *)
Definition Slot : Type := option (St * Act * float).

(** The object: its class (the policy), the constructor's parameters, and
    the two fields that are [None] until [init_episode]. *)
Record obj : Type := mk {
  policy : ReturnPolicy;
  gamma : float;
  nstep : Z;
  buffer : option (Buffer.t Slot);
  T_step : option TStep
}.

(** [__init__(self, gamma=0.9, nstep=1)] *)
Definition init (P : ReturnPolicy) (gamma : float) (nstep : Z) : obj :=
  {| policy := P; gamma := gamma; nstep := nstep; buffer := None; T_step := None |}.

Definition init_episode (self : obj) (s : St) (a : Act) : obj :=
  let buffer := Buffer.make (nstep self + 1) (None : Slot) in
  let buffer := Buffer.set buffer 0 (Some (s, a, 0%float)) in
  {| policy := policy self; gamma := gamma self; nstep := nstep self;
     buffer := Some buffer; T_step := Some Inf |}.

(** [self.end_return(agent, *slot)]: on a slot that was never written the
    hook receives [None] for the reward and the addition raises. *)
Definition call_end_return (self : obj) (agent : A) (slot : Slot) : result float :=
  match slot with
  | Some (s, a, r) => Ok (end_return (policy self) (gamma self) agent s a r)
  | None => Raise
  end.

Definition call_step_return (self : obj) (agent : A) (slot : Slot) (ret : float)
  : result float :=
  match slot with
  | Some (s, a, r) => Ok (step_return (policy self) (gamma self) agent s a r ret)
  | None => Raise
  end.

(** The [for] loop of [get_return], over the values of its [range]. *)
Fixpoint get_return_loop (self : obj) (agent : A) (buf : Buffer.t Slot)
    (idxs : list Z) (ret : float) : result float :=
  match idxs with
  | [] => Ok ret
  | i :: idxs' =>
      result_bind (call_step_return self agent (Buffer.get buf i) ret)
                  (get_return_loop self agent buf idxs')
  end.

Definition get_return (self : obj) (agent : A) (t tgt_t : Z) : result float :=
  match buffer self, T_step self with
  | Some buf, Some T =>
      let end_t := min_TStep (t + 1) T in
      result_bind (call_end_return self agent (Buffer.get buf end_t))
                  (get_return_loop self agent buf (range_down (end_t - 1) tgt_t))
  | _, _ => Raise
  end.

Definition set_T_step (self : obj) (T : TStep) : obj :=
  {| policy := policy self; gamma := gamma self; nstep := nstep self;
     buffer := buffer self; T_step := Some T |}.

Definition set_buffer (self : obj) (b : Buffer.t Slot) : obj :=
  {| policy := policy self; gamma := gamma self; nstep := nstep self;
     buffer := Some b; T_step := T_step self |}.

(** [__call__].  Before [init_episode] both fields are [None]: the
    comparison [t < self.T_step] raises, and so does a method call on the
    missing buffer. *)
Definition call (self : obj) (agent : A) (s : St) (a : Act) (r : float)
    (new_s : St) (new_a : Act) (t : Z) (is_terminal : bool)
    : obj * A * result (Command St Act) :=
  match T_step self with
  | None => (self, agent, Raise)
  | Some T =>
      let T := if is_inf T && is_terminal then Fin (t + 1) else T in
      let self := set_T_step self T in
      let written :=
        if lt_TStep t T then
          match buffer self with
          | Some buf => Ok (set_buffer self (Buffer.set buf (t + 1) (Some (new_s, new_a, r))))
          | None => Raise
          end
        else Ok self in
      match written with
      | Raise => (self, agent, Raise)
      | Ok self =>
          let tgt_t := t - nstep self + 1 in
          if tgt_t <? 0 then (self, agent, Ok Command_no_update)
          else
            match buffer self with
            | None => (self, agent, Raise)
            | Some buf =>
                let tgt := Buffer.get buf tgt_t in
                let tgt_s := fst <$> (fst <$> tgt) in
                let tgt_a := snd <$> (fst <$> tgt) in
                match get_return self agent t tgt_t with
                | Raise => (self, agent, Raise)
                | Ok ret =>
                    let terminate := ge_TStep_pred tgt_t T in
                    (self, agent, Ok (mkCommand true (Some ret) tgt_s tgt_a terminate))
                end
            end
      end
  end.

#[global] Instance NStepAlgo_Algo : Algo A St Act obj :=
  {| algo_call := call; algo_init_episode := init_episode |}.
End NStepAlgo.
Arguments ReturnPolicy A St Act : clear implicits.
Arguments Slot St Act : clear implicits.
Arguments obj A St Act : clear implicits.
End NStepAlgo.

(** ** [heapq] on a Python list *)

Module Heapq.
Section Heapq.
Context {E : Type} (lt : E → E → bool).

(** [_siftdown(heap, startpos, pos)]: move [newitem] towards the root.  The
    position strictly decreases, so [pos] rounds of the loop are enough.
    Every index read is in range; the [None] branches stand for Python's
    [IndexError] and are never taken. *)
Fixpoint siftdown_loop (fuel : nat) (heap : list E) (startpos pos : nat)
    (newitem : E) : list E :=
  match fuel with
  | O => <[pos := newitem]> heap
  | S fuel' =>
      if (startpos <? pos)%nat then
        let parentpos := ((pos - 1) / 2)%nat in
        match heap !! parentpos with
        | Some parent =>
            if lt newitem parent
            then siftdown_loop fuel' (<[pos := parent]> heap) startpos parentpos newitem
            else <[pos := newitem]> heap
        | None => heap
        end
      else <[pos := newitem]> heap
  end.

Definition siftdown (heap : list E) (startpos pos : nat) : list E :=
  match heap !! pos with
  | Some newitem => siftdown_loop pos heap startpos pos newitem
  | None => heap
  end.

(** The [while childpos < endpos] loop of [_siftup]: bubble the smaller
    child up until a leaf is reached; returns the heap and the leaf. *)
Fixpoint siftup_loop (fuel : nat) (heap : list E) (pos : nat) : list E * nat :=
  match fuel with
  | O => (heap, pos)
  | S fuel' =>
      let endpos := length heap in
      let childpos := (2 * pos + 1)%nat in
      if (childpos <? endpos)%nat then
        let rightpos := (childpos + 1)%nat in
        let childpos :=
          match heap !! childpos, heap !! rightpos with
          | Some l, Some r => if negb (lt l r) then rightpos else childpos
          | _, _ => childpos
          end in
        match heap !! childpos with
        | Some c => siftup_loop fuel' (<[pos := c]> heap) childpos
        | None => (heap, pos)
        end
      else (heap, pos)
  end.

(** [_siftup(heap, pos)] *)
Definition siftup (heap : list E) (pos : nat) : list E :=
  match heap !! pos with
  | Some newitem =>
      let '(heap, leaf) := siftup_loop (length heap) heap pos in
      siftdown (<[leaf := newitem]> heap) pos leaf
  | None => heap
  end.

(** [heapq.heappush(heap, item)] *)
Definition heappush (heap : list E) (item : E) : list E :=
  let heap := heap ++ [item] in
  siftdown heap 0 (length heap - 1).

(** [heapq.heappop(heap)]: [heap.pop()] raises on the empty list. *)
Definition heappop (heap : list E) : result (E * list E) :=
  match last heap with
  | None => Raise
  | Some lastelt =>
      let heap := removelast heap in
      match heap with
      | returnitem :: _ => Ok (returnitem, siftup (<[0%nat := lastelt]> heap) 0)
      | [] => Ok (lastelt, [])
      end
  end.
End Heapq.
End Heapq.

(** Python's [<] on 2-tuples: the first components that differ decide. *)
Definition tuple_lt (x y : Z * Z) : bool :=
  if decide (x.1 = y.1) then x.2 <? y.2 else x.1 <? y.1.

(** Conversion of an integer to binary64, as the casts from [int64] and
    [uint64] do it: the nearest float, ties to even. *)
Definition float_of_Z (z : Z) : float :=
  SF2Prim (binary_normalize prec emax z 0 false).

(** [np.sqrt] of a Python int.  The argument becomes an [int64] when it
    fits, else a [uint64] when it fits, and its root is taken in binary64
    (NaN for a negative one).  An int that fits neither becomes an object
    array, for which the ufunc has no loop: [TypeError]. *)
Definition np_sqrt (z : Z) : result float :=
  if (- 2 ^ 63 <=? z) && (z <? 2 ^ 64)
  then Ok (PrimFloat.sqrt (float_of_Z z))
  else Raise.

(** ** [class Dyna] *)

Module Dyna.
Section Dyna.
Context {A St Act : Type} `{!Agent.t A St Act}.
Context `{!EqDecision St, !Countable St, !EqDecision Act, !Countable Act}.
Context {X : Type} `{!Algo A St Act X}.

(** The object.  [random] is the state of the module-level generator: the
    draws still to come. *)
Record obj : Type := mk {
  algo : X;
  plan_algo : NStepAlgo.obj A St Act;
  nsim : nat;
  model : gmap (St * Act) (St * float);
  random : nat → nat
}.

(** [__init__(self, algo, plan_algo, nsim=1)] *)
Definition init (algo : X) (plan_algo : NStepAlgo.obj A St Act) (nsim : nat)
    (random : nat → nat) : obj :=
  {| algo := algo; plan_algo := plan_algo; nsim := nsim; model := ∅; random := random |}.

Definition init_episode (self : obj) (s : St) (a : Act) : obj :=
  {| algo := algo_init_episode (algo self) s a;
     plan_algo := NStepAlgo.init_episode (plan_algo self) s a;
     nsim := nsim self; model := model self; random := random self |}.

Definition set_algo (self : obj) (x : X) : obj :=
  {| algo := x; plan_algo := plan_algo self; nsim := nsim self;
     model := model self; random := random self |}.

Definition update (self : obj) (agent : A) (s : St) (a : Act) (new_s : St)
    (new_a : Act) (r : float) : obj :=
  {| algo := algo self; plan_algo := plan_algo self; nsim := nsim self;
     model := <[(s, a) := (new_s, r)]> (model self); random := random self |}.

(** [self.plan_algo.end_return(agent, new_s, new_a, r)] *)
Definition plan_return (self : obj) (agent : A) (new_s : St) (new_a : Act)
    (r : float) : float :=
  NStepAlgo.end_return (NStepAlgo.policy (plan_algo self))
                       (NStepAlgo.gamma (plan_algo self)) agent new_s new_a r.

(** [step_sim]: a missing key raises before the agent is touched. *)
Definition step_sim (self : obj) (agent : A) (s : St) (a : Act) : result A :=
  match model self !! (s, a) with
  | None => Raise
  | Some (new_s, r) =>
      let '(new_a, agent) := Agent.get_action agent new_s in
      let ret := plan_return self agent new_s new_a r in
      Ok (Agent.update agent ret s a)
  end.

(** [random.choices(population, k=k)]: each draw indexes the population at
    [floor(random() * n)]; the draw [u] is reduced to an index below [n].
    On an empty population the first indexing raises. *)
Fixpoint choices {K : Type} (population : list K) (k : nat) (rnd : nat → nat)
    : result (list K) :=
  match k with
  | O => Ok []
  | S k' =>
      match population !! (rnd 0%nat mod length population)%nat with
      | None => Raise
      | Some x =>
          result_bind (choices population k' (λ j, rnd (S j))) (λ xs, Ok (x :: xs))
      end
  end.

(** The [for s, a in samp] loop of [simulate]. *)
Fixpoint simulate_loop (self : obj) (agent : A) (samp : list (St * Act))
    : A * result unit :=
  match samp with
  | [] => (agent, Ok tt)
  | (s, a) :: samp' =>
      match step_sim self agent s a with
      | Raise => (agent, Raise)
      | Ok agent => simulate_loop self agent samp'
      end
  end.

Definition advance_random (self : obj) (k : nat) : obj :=
  {| algo := algo self; plan_algo := plan_algo self; nsim := nsim self;
     model := model self; random := λ j, random self (k + j)%nat |}.

(** The pairs [simulate] draws from: [list(self.model.keys())], enumerated
    here in the map's own order.  Python lists the keys in insertion order;
    the draws range over the same pairs either way. *)
Definition keys (self : obj) : list (St * Act) := (map_to_list (model self)).*1.

Definition simulate (self : obj) (agent : A) : obj * A * result unit :=
  match choices (keys self) (nsim self) (random self) with
  | Raise => (advance_random self 1, agent, Raise)
  | Ok samp =>
      let self := advance_random self (nsim self) in
      let '(agent, res) := simulate_loop self agent samp in
      (self, agent, res)
  end.

(** The methods [__call__] reaches through [self]: a subclass overrides
    [update] and [simulate] and inherits [__call__] and [init_episode]. *)
Class Methods (Self : Type) : Type := {
  self_algo : Self → X;
  self_set_algo : Self → X → Self;
  self_update : Self → A → St → Act → St → Act → float → result Self;
  self_simulate : Self → A → Self * A * result unit
}.

Definition call {Self : Type} `{!Methods Self} (self : Self) (agent : A)
    (s : St) (a : Act) (r : float) (new_s : St) (new_a : Act) (t : Z)
    (is_terminal : bool) : Self * A * result (Command St Act) :=
  let planned :=
    if negb is_terminal then
      match self_update self agent s a new_s new_a r with
      | Raise => (self, agent, Raise)
      | Ok self => self_simulate self agent
      end
    else (self, agent, Ok tt) in
  match planned with
  | (self, agent, Raise) => (self, agent, Raise)
  | (self, agent, Ok _) =>
      let '(x, agent, cmd) := algo_call (self_algo self) agent s a r new_s new_a t is_terminal in
      (self_set_algo self x, agent, cmd)
  end.

#[global] Instance Dyna_Methods : Methods obj := {|
  self_algo := algo;
  self_set_algo := set_algo;
  self_update self agent s a new_s new_a r := Ok (update self agent s a new_s new_a r);
  self_simulate := simulate
|}.

#[global] Instance Dyna_Algo : Algo A St Act obj :=
  {| algo_call := call; algo_init_episode := init_episode |}.
End Dyna.
Arguments obj A St Act {_ _ _ _} X.
End Dyna.

(** ** [class PrioritizedSweep(Dyna)] *)

(** The heap compares its entries, the [(s, a)] tuples, with [<]: states and
    actions are Python ints here. *)
Module PrioritizedSweep.
Section PrioritizedSweep.
Context {A : Type} `{!Agent.t A Z Z}.
Context {X : Type} `{!Algo A Z Z X}.

(** The object: the fields of [Dyna], then the subclass's own. *)
Record obj : Type := mk {
  dyna : Dyna.obj A Z Z X;
  theta : float;
  pq : list (Z * Z);
  rev_model : gmap Z (gset (Z * Z))
}.

(** [__init__(self, algo, plan_algo, nsim=1, theta=0.05)];
    [heapq.heapify] leaves the empty list as it is. *)
Definition init (algo : X) (plan_algo : NStepAlgo.obj A Z Z) (nsim : nat)
    (theta : float) (random : nat → nat) : obj :=
  {| dyna := Dyna.init algo plan_algo nsim random; theta := theta;
     pq := []; rev_model := ∅ |}.

Definition set_dyna (self : obj) (d : Dyna.obj A Z Z X) : obj :=
  {| dyna := d; theta := theta self; pq := pq self; rev_model := rev_model self |}.

Definition set_pq (self : obj) (h : list (Z * Z)) : obj :=
  {| dyna := dyna self; theta := theta self; pq := h; rev_model := rev_model self |}.

Definition set_rev_model (self : obj) (m : gmap Z (gset (Z * Z))) : obj :=
  {| dyna := dyna self; theta := theta self; pq := pq self; rev_model := m |}.

(** Inherited from [Dyna]. *)
Definition init_episode (self : obj) (s a : Z) : obj :=
  set_dyna self (Dyna.init_episode (dyna self) s a).

(** [abs(ret - agent.q(s, a))] for the planning return [ret] of [update_pq] *)
Definition residual (self : obj) (agent : A) (s a new_s new_a : Z) (r : float) : float :=
  let ret := Dyna.plan_return (dyna self) agent new_s new_a r in
  PrimFloat.abs (ret - Agent.q agent s a).

(** [abs(ret - agent.q(s, a)) > self.theta] *)
Definition exceeds (self : obj) (agent : A) (s a new_s new_a : Z) (r : float) : bool :=
  (theta self <? residual self agent s a new_s new_a r)%float.

Definition update_pq (self : obj) (agent : A) (s a new_s new_a : Z) (r : float) : obj :=
  if exceeds self agent s a new_s new_a r
  then set_pq self (Heapq.heappush tuple_lt (pq self) (s, a))
  else self.

(** [self.rev_model[old_new_s].remove((s, a))]: both the subscript and
    [set.remove] raise on a missing key. *)
Definition rev_remove (m : gmap Z (gset (Z * Z))) (old_new_s : Z) (sa : Z * Z)
    : result (gmap Z (gset (Z * Z))) :=
  match m !! old_new_s with
  | None => Raise
  | Some preds =>
      if decide (sa ∈ preds) then Ok (<[old_new_s := preds ∖ {[sa]}]> m) else Raise
  end.

Definition rev_add (m : gmap Z (gset (Z * Z))) (new_s : Z) (sa : Z * Z)
    : gmap Z (gset (Z * Z)) :=
  match m !! new_s with
  | None => <[new_s := {[sa]}]> m
  | Some preds => <[new_s := preds ∪ {[sa]}]> m
  end.

Definition update (self : obj) (agent : A) (s a new_s new_a : Z) (r : float)
    : result obj :=
  let removed :=
    match Dyna.model (dyna self) !! (s, a) with
    | Some (old_new_s, _) => rev_remove (rev_model self) old_new_s (s, a)
    | None => Ok (rev_model self)
    end in
  match removed with
  | Raise => Raise
  | Ok m =>
      let self := set_rev_model self (rev_add m new_s (s, a)) in
      let self := update_pq self agent s a new_s new_a r in
      Ok (set_dyna self (Dyna.update (dyna self) agent s a new_s new_a r))
  end.

(** The [for prev_s, prev_a in self.rev_model[s]] loop of [simulate], over
    the elements of the set in the order it yields them. *)
Fixpoint sweep (self : obj) (agent : A) (s a : Z) (preds : list (Z * Z))
    : obj * result unit :=
  match preds with
  | [] => (self, Ok tt)
  | (prev_s, prev_a) :: preds' =>
      match Dyna.model (dyna self) !! (prev_s, prev_a) with
      | None => (self, Raise)
      | Some (_, r) => sweep (update_pq self agent prev_s prev_a s a r) agent s a preds'
      end
  end.

(** The [for _ in range(self.nsim)] loop of [simulate]. *)
Fixpoint simulate_loop (n : nat) (self : obj) (agent : A) : obj * A * result unit :=
  match n with
  | O => (self, agent, Ok tt)
  | S n' =>
      match pq self with
      | [] => (self, agent, Ok tt)
      | _ :: _ =>
          match Heapq.heappop tuple_lt (pq self) with
          | Raise => (self, agent, Raise)
          | Ok ((s, a), h) =>
              let self := set_pq self h in
              match Dyna.step_sim (dyna self) agent s a with
              | Raise => (self, agent, Raise)
              | Ok agent =>
                  match rev_model self !! s with
                  | None => simulate_loop n' self agent
                  | Some preds =>
                      match sweep self agent s a (elements preds) with
                      | (self, Raise) => (self, agent, Raise)
                      | (self, Ok _) => simulate_loop n' self agent
                      end
                  end
              end
          end
      end
  end.

Definition simulate (self : obj) (agent : A) : obj * A * result unit :=
  simulate_loop (Dyna.nsim (dyna self)) self agent.

#[global] Instance PrioritizedSweep_Methods : Dyna.Methods obj := {|
  Dyna.self_algo self := Dyna.algo (dyna self);
  Dyna.self_set_algo self x := set_dyna self (Dyna.set_algo (dyna self) x);
  Dyna.self_update := update;
  Dyna.self_simulate := simulate
|}.

(** [__call__] is inherited: [Dyna.call] at this class's methods. *)
Definition call (self : obj) (agent : A) (s a : Z) (r : float) (new_s new_a : Z)
    (t : Z) (is_terminal : bool) : obj * A * result (Command Z Z) :=
  Dyna.call self agent s a r new_s new_a t is_terminal.

#[global] Instance PrioritizedSweep_Algo : Algo A Z Z obj :=
  {| algo_call := call; algo_init_episode := init_episode |}.
End PrioritizedSweep.
Arguments obj A X : clear implicits.
End PrioritizedSweep.

(** ** [class ExploreBonus] *)

Module ExploreBonus.
Section ExploreBonus.
Context {A St Act : Type} {X : Type} `{!Algo A St Act X}.
Context `{!EqDecision Act, !Countable Act}.
(** [tuple(s)]: the state is a sequence of features and its tuple is the
    hashable key. *)
Context {Key : Type} `{!EqDecision Key, !Countable Key} (tuple : St → Key).

Record obj : Type := mk {
  algo : X;
  kappa : float;
  _last_visit : option (gmap (Key * Act) Z)
}.

(** [__init__(self, algo, kappa=0.05)] *)
Definition init (algo : X) (kappa : float) : obj :=
  {| algo := algo; kappa := kappa; _last_visit := None |}.

Definition init_episode (self : obj) (s : St) (a : Act) : obj :=
  {| algo := algo_init_episode (algo self) s a; kappa := kappa self;
     _last_visit := Some ∅ |}.

(** [last_visit]: the membership test raises while the table is [None]. *)
Definition last_visit (self : obj) (s : Key) (a : Act) : result Z :=
  match _last_visit self with
  | None => Raise
  | Some table =>
      match table !! (s, a) with
      | None => Ok 0
      | Some t => Ok t
      end
  end.

(** The reward the inner rule receives, [root] being the square root. *)
Definition shaped (self : obj) (r : float) (root : float) : float :=
  (r + kappa self * root)%float.

(** [__call__].  The first line raises before anything is written when
    [last_visit] or [np.sqrt] does. *)
Definition call (self : obj) (agent : A) (s : St) (a : Act) (r : float)
    (new_s : St) (new_a : Act) (t : Z) (is_terminal : bool)
    : obj * A * result (Command St Act) :=
  match last_visit self (tuple s) a, _last_visit self with
  | Ok last, Some table =>
      match np_sqrt (t - last) with
      | Raise => (self, agent, Raise)
      | Ok root =>
          let r := shaped self r root in
          let table := <[(tuple s, a) := t]> table in
          let '(x, agent, cmd) :=
            algo_call (algo self) agent s a r new_s new_a t is_terminal in
          ({| algo := x; kappa := kappa self; _last_visit := Some table |}, agent, cmd)
      end
  | _, _ => (self, agent, Raise)
  end.

#[global] Instance ExploreBonus_Algo : Algo A St Act obj :=
  {| algo_call := call; algo_init_episode := init_episode |}.
End ExploreBonus.
Arguments obj Act X {_ _} Key {_ _}.
End ExploreBonus.

(** ** A tabular agent for the scenarios *)

(** [baseagent.Agent] is not part of the sources.  The scenarios of the
    specification are run with this agent: a table of action values (0 where
    nothing is stored), a greedy policy over a fixed list of actions, and the
    update [Q(s,a) += alpha * (ret - Q(s,a))].  It keeps the list of the
    updates it was asked to apply, latest first. *)
Module TableAgent.
Section TableAgent.
Context {St : Type} `{!EqDecision St, !Countable St}.

Record t : Type := mk {
  table : gmap (St * Z) float;
  actions : list Z;
  alpha : float;
  updates : list (float * St * Z)
}.

Definition q (agent : t) (s : St) (a : Z) : float :=
  default 0%float (table agent !! (s, a)).

Definition best_action (agent : t) (s : St) : Z :=
  match actions agent with
  | [] => 0
  | a0 :: rest =>
      fold_left (λ best a, if (q agent s best <? q agent s a)%float then a else best) rest a0
  end.

Definition best_action_val (agent : t) (s : St) : float :=
  q agent s (best_action agent s).

Definition action_prob (agent : t) (s : St) (a : Z) : float :=
  if decide (a = best_action agent s) then 1%float else 0%float.

Definition update (agent : t) (ret : float) (s : St) (a : Z) : t :=
  let old := q agent s a in
  {| table := <[(s, a) := (old + alpha agent * (ret - old))%float]> (table agent);
     actions := actions agent; alpha := alpha agent;
     updates := (ret, s, a) :: updates agent |}.

#[global] Instance TableAgent_Agent : Agent.t t St Z := {|
  Agent.q := q;
  Agent.best_action := best_action;
  Agent.best_action_val := best_action_val;
  Agent.action_prob := action_prob;
  Agent.action_spec agent s := actions agent;
  Agent.get_action agent s := (best_action agent s, agent);
  Agent.update := update
|}.
End TableAgent.
Arguments t St {_ _}.
End TableAgent.

(** * The specification's notions *)

(** The indices "from [hi] down to [lo], inclusive", strictly decreasing. *)
Definition downto (hi lo : Z) : list Z :=
  rev (map (λ k : nat, lo + Z.of_nat k) (seq 0 (Z.to_nat (hi - lo + 1)))).

(** The indices from [lo] up to [hi], inclusive. *)
Definition upto (lo hi : Z) : list Z :=
  map (λ k : nat, lo + Z.of_nat k) (seq 0 (Z.to_nat (hi - lo + 1))).

Definition result_map {X Y : Type} (f : X → Y) (m : result X) : result Y :=
  match m with
  | Ok x => Ok (f x)
  | Raise => Raise
  end.

(** The discounted sum of a sequence of rewards followed by a final value:
    [r1 + gamma * (r2 + gamma * (... + gamma * final))]. *)
Fixpoint discounted (gamma : float) (rs : list float) (final : float) : float :=
  match rs with
  | [] => final
  | r :: rs' => (r + gamma * discounted gamma rs' final)%float
  end.

(** The discounted sum of the rewards alone, nothing bootstrapped. *)
Fixpoint discounted_rewards (gamma : float) (rs : list float) : float :=
  match rs with
  | [] => 0%float
  | [r] => r
  | r :: rs' => (r + gamma * discounted_rewards gamma rs')%float
  end.

Module NStepSpec.
Section NStepSpec.
Context {A St Act : Type} `{!Agent.t A St Act} `{!EqDecision Act}.
Import NStepAlgo.

(** The backward return computation in the specification's words, on the
    two hooks of the policy and the slots [slot i] of the buffer: with
    [end_t = min(t+1, T_step)], the return is seeded as [terminalReturn] on
    the slot at [end_t], and then for [i] from [end_t - 1] down to
    [tgt_t + 1] it is [stepReturn] on the slot at [i] and the return so far.
    A slot that was never written has nothing to compute with: there is no
    return then. *)
Definition backward_return (P : ReturnPolicy A St Act) (g : float) (agent : A)
    (slot : Z → option (St * Act * float)) (T : TStep) (t tgt_t : Z) : option float :=
  let end_t := match T with Inf => t + 1 | Fin z => Z.min (t + 1) z end in
  fold_left (λ acc i, ret ← acc; x ← slot i;
                      Some (step_return P g agent x.1.1 x.1.2 x.2 ret))
            (downto (end_t - 1) (tgt_t + 1))
            (x ← slot end_t; Some (end_return P g agent x.1.1 x.1.2 x.2)).

(** The outcome of a computation that may have no result. *)
Definition outcome {V : Type} (m : option V) : result V :=
  match m with
  | Some v => Ok v
  | None => Raise
  end.

(** What the calls of one episode leave of the object; the outputs are
    dropped.  Every call comes with the agent it was handed. *)
Definition step (self : obj A St Act) (c : A * Transition St Act) : obj A St Act :=
  (call self c.1 (tr_s c.2) (tr_a c.2) (tr_r c.2) (tr_new_s c.2) (tr_new_a c.2)
        (tr_t c.2) (tr_terminal c.2)).1.1.

Definition run (self : obj A St Act) (calls : list (A * Transition St Act)) : obj A St Act :=
  fold_left step calls self.

(** The horizon a sequence of calls determines: [t + 1] for the first call
    flagged terminal, infinity when there is none. *)
Fixpoint horizon (calls : list (A * Transition St Act)) : TStep :=
  match calls with
  | [] => Inf
  | c :: calls' => if tr_terminal c.2 then Fin (tr_t c.2 + 1) else horizon calls'
  end.

(** The rewards stored in a run of slots. *)
Definition rewards (slots : list (St * Act * float)) : list float := slots.*2.
End NStepSpec.
End NStepSpec.

Module DynaSpec.
Section DynaSpec.
Context {A St Act : Type} `{!Agent.t A St Act}.
Context `{!EqDecision St, !Countable St, !EqDecision Act, !Countable Act}.
Context {X : Type} `{!Algo A St Act X}.

(** What happens to a [Dyna] object over its life: episodes start, and real
    transitions arrive, each with the agent as it is at that moment. *)
Inductive event : Type :=
| Init (s : St) (a : Act)
| Call (agent : A) (c : Transition St Act).

Definition step (self : Dyna.obj A St Act X) (e : event) : Dyna.obj A St Act X :=
  match e with
  | Init s a => Dyna.init_episode self s a
  | Call agent c =>
      (Dyna.call self agent (tr_s c) (tr_a c) (tr_r c) (tr_new_s c) (tr_new_a c)
                 (tr_t c) (tr_terminal c)).1.1
  end.

Definition run (self : Dyna.obj A St Act X) (events : list event) : Dyna.obj A St Act X :=
  fold_left step events self.

(** The pairs observed in real non-terminal transitions. *)
Fixpoint observed (events : list event) : list (St * Act) :=
  match events with
  | [] => []
  | Init _ _ :: events' => observed events'
  | Call _ c :: events' =>
      if tr_terminal c then observed events' else (tr_s c, tr_a c) :: observed events'
  end.
End DynaSpec.
Arguments event A St Act : clear implicits.
End DynaSpec.

(** ** The heap invariant *)

(** The parent of the entry at index [i] of a heap stored in a list. *)
Definition parent (i : nat) : nat := (i - 1) / 2.

(** What the heap algorithms need of [<]: it is asymmetric, and "not greater
    than" is transitive, as for every strict total order. *)
Class HeapOrder {E : Type} (lt : E → E → bool) : Prop := {
  lt_asym : ∀ x y, lt x y = true → lt y x = false;
  le_trans : ∀ x y z, lt y x = false → lt z y = false → lt z x = false
}.

(** The invariant of [heapq]: no entry is smaller than its parent. *)
Definition heap_ok {E : Type} (lt : E → E → bool) (h : list E) : Prop :=
  ∀ i x p, (0 < i)%nat → h !! i = Some x → h !! parent i = Some p → lt x p = false.

Section HeapLoops.
Context {E : Type} (lt : E → E → bool).
Implicit Types (h : list E) (pos : nat).

(** The state of [_siftdown]'s loop: the heap with a hole at [pos], which
    [newitem] is about to fill. *)
Record up_inv h pos (newitem : E) : Prop := {
  up_bound : (pos < length h)%nat;
  up_edges : ∀ i x p, (0 < i)%nat → i ≠ pos →
    h !! i = Some x → h !! parent i = Some p → lt x p = false;
  up_children : ∀ c x, (0 < c)%nat → parent c = pos → h !! c = Some x → lt x newitem = false;
  up_grand : ∀ c x g, (0 < c)%nat → parent c = pos → (0 < pos)%nat →
    h !! c = Some x → h !! parent pos = Some g → lt x g = false
}.

(** The state of [_siftup]'s loop: the hole at [pos] moves down. *)
Record down_inv h pos : Prop := {
  down_bound : (pos < length h)%nat;
  down_edges : ∀ i x p, (0 < i)%nat → i ≠ pos → parent i ≠ pos →
    h !! i = Some x → h !! parent i = Some p → lt x p = false;
  down_grand : ∀ c x g, (0 < pos)%nat → (0 < c)%nat → parent c = pos →
    h !! c = Some x → h !! parent pos = Some g → lt x g = false
}.

End HeapLoops.

(** ** The life of a [PrioritizedSweep] object *)

Module PrioritizedSweepSpec.
Section PrioritizedSweepSpec.
Context {A : Type} `{!Agent.t A Z Z}.
Context {X : Type} `{!Algo A Z Z X}.
Import PrioritizedSweep.

Definition step (self : obj A X) (e : DynaSpec.event A Z Z) : obj A X :=
  match e with
  | DynaSpec.Init s a => init_episode self s a
  | DynaSpec.Call agent c =>
      (call self agent (tr_s c) (tr_a c) (tr_r c) (tr_new_s c) (tr_new_a c)
            (tr_t c) (tr_terminal c)).1.1
  end.

Definition run (self : obj A X) (events : list (DynaSpec.event A Z Z)) : obj A X :=
  fold_left step events self.

(** [p] is recorded as a predecessor of [ns]. *)
Definition rev_mem (m : gmap Z (gset (Z * Z))) (ns : Z) (p : Z * Z) : Prop :=
  ∃ preds, m !! ns = Some preds ∧ p ∈ preds.

(** The queue is a heap of pairs the model knows, and the reverse model
    records exactly the transitions of the model. *)
Record consistent (self : obj A X) : Prop := {
  pq_heap : heap_ok tuple_lt (pq self);
  pq_known : ∀ p, p ∈ pq self → is_Some (Dyna.model (dyna self) !! p);
  rev_model_model : ∀ ns p,
    rev_mem (rev_model self) ns p ↔ ∃ r, Dyna.model (dyna self) !! p = Some (ns, r)
}.

(** Whether the predecessor [p] of the replayed pair [(s, a)] goes back on
    the queue: its residual, recomputed with the modeled reward of [p]. *)
Definition pred_exceeds (self : obj A X) (agent : A) (s a : Z) (p : Z * Z) : bool :=
  match Dyna.model (dyna self) !! p with
  | Some (_, r) => exceeds self agent p.1 p.2 s a r
  | None => false
  end.


(** The predecessors recorded for [s], in the order the loop visits them. *)
Definition preds_of (self : obj A X) (s : Z) : list (Z * Z) :=
  match rev_model self !! s with
  | Some preds => elements preds
  | None => []
  end.

(** The criterion in the specification's words: the magnitude of the
    difference between the one-step planning return
    [plan_algo.terminalReturn(new_s, new_a, r)] and the agent's current
    [Q(s, a)] is strictly above [theta]. *)
Definition above_theta (th : float) (plan : NStepAlgo.obj A Z Z) (agent : A)
    (s a new_s new_a : Z) (r : float) : bool :=
  (th <? PrimFloat.abs (NStepAlgo.end_return (NStepAlgo.policy plan) (NStepAlgo.gamma plan)
                                               agent new_s new_a r
                        - Agent.q agent s a))%float.

(** What the criterion lets onto the queue for the pair [(s, a)]. *)
Definition enqueued (self : obj A X) (agent : A) (s a new_s new_a : Z) (r : float)
  : list (Z * Z) :=
  if above_theta (theta self) (Dyna.plan_algo (dyna self)) agent s a new_s new_a r
  then [(s, a)] else [].

(** The predecessors of the replayed pair [(s, a)] that go back on the
    queue: those whose residual, recomputed with their modeled reward, is
    above [theta]. *)
Definition requeued (self : obj A X) (agent : A) (s a : Z) (preds : list (Z * Z))
  : list (Z * Z) :=
  filter (λ p, match Dyna.model (dyna self) !! p with
               | Some (_, r) => above_theta (theta self) (Dyna.plan_algo (dyna self))
                                            agent p.1 p.2 s a r
               | None => false
               end = true) preds.
End PrioritizedSweepSpec.
End PrioritizedSweepSpec.

(** The end-to-end scenario of the specification: Sarsa with [gamma = 0.9]
    and [nstep = 1], an agent with [Q(1,0) = 2], and the single transition
    [(s=0, a=0, r=1, new_s=1, new_a=0, t=0, terminal)]. *)
Module Scenario.
Definition agent : TableAgent.t Z :=
  {| TableAgent.table := {[ (1, 0) := 2%float ]}; TableAgent.actions := [0];
     TableAgent.alpha := 0.5%float; TableAgent.updates := [] |}.

Definition sarsa : NStepAlgo.obj (TableAgent.t Z) Z Z :=
  NStepAlgo.init NStepAlgo.Sarsa 0.9%float 1.

Definition episode : NStepAlgo.obj (TableAgent.t Z) Z Z :=
  NStepAlgo.init_episode sarsa 0 0.

Definition buffer0 : Buffer.t (NStepAlgo.Slot Z Z) :=
  Buffer.set (Buffer.make 2 None) 0 (Some (0, 0, 0%float)).

(** The object after the single call. *)
Definition ended : NStepAlgo.obj (TableAgent.t Z) Z Z :=
  (NStepAlgo.call episode agent 0 0 1%float 1 0 0 true).1.1.

Definition buffer1 : Buffer.t (NStepAlgo.Slot Z Z) :=
  Buffer.set buffer0 1 (Some (1, 0, 1%float)).

(** Tree backup with [gamma = 0.9] and [nstep = 2]: an episode 0 -> 1 -> 2
    that ends in state 2, for an agent that values only action 1 in state 1
    (at 5) while action 0 is the one taken. *)
Definition tree_agent : TableAgent.t Z :=
  {| TableAgent.table := {[ (1, 1) := 5%float ]}; TableAgent.actions := [0; 1];
     TableAgent.alpha := 0.5%float; TableAgent.updates := [] |}.

Definition tree_episode : NStepAlgo.obj (TableAgent.t Z) Z Z :=
  NStepAlgo.init_episode (NStepAlgo.init NStepAlgo.TreeLearn 0.9%float 2) 0 0.

Definition tree_ended : NStepAlgo.obj (TableAgent.t Z) Z Z :=
  (NStepAlgo.call
     (NStepAlgo.call tree_episode tree_agent 0 0 1%float 1 0 0 false).1.1
     tree_agent 1 0 1%float 2 0 1 true).1.1.

Definition tree_buffer : Buffer.t (NStepAlgo.Slot Z Z) :=
  {| Buffer.fill := None;
     Buffer.data := [Some (0, 0, 0%float); Some (1, 0, 1%float); Some (2, 0, 1%float)] |}.

(** An episode of [ExploreBonus] around one-step Sarsa, the state a tuple of
    features, [kappa = 0.05]. *)
Definition feature_agent : TableAgent.t (list Z) :=
  {| TableAgent.table := ∅; TableAgent.actions := [0];
     TableAgent.alpha := 0.5%float; TableAgent.updates := [] |}.

Definition explore
  : ExploreBonus.obj Z (NStepAlgo.obj (TableAgent.t (list Z)) (list Z) Z) (list Z) :=
  ExploreBonus.init_episode
    (ExploreBonus.init (NStepAlgo.init NStepAlgo.Sarsa 0.9%float 1) 0.05%float) [3; 4] 0.

(** Prioritized sweeping around one-step Sarsa, [theta = 0.05], an agent
    whose values start at zero.  A step threads the object and the agent
    through a call. *)
Definition zero_agent : TableAgent.t Z :=
  {| TableAgent.table := ∅; TableAgent.actions := [0];
     TableAgent.alpha := 0.5%float; TableAgent.updates := [] |}.

Definition sweeper : Type :=
  PrioritizedSweep.obj (TableAgent.t Z) (NStepAlgo.obj (TableAgent.t Z) Z Z).

Definition sweep_init (nsim : nat) : sweeper :=
  PrioritizedSweep.init sarsa sarsa nsim 0.05%float (λ _, 0%nat).

Definition sweep_call (st : sweeper * TableAgent.t Z) (c : Transition Z Z)
    : sweeper * TableAgent.t Z :=
  (PrioritizedSweep.call st.1 st.2 (tr_s c) (tr_a c) (tr_r c) (tr_new_s c) (tr_new_a c)
                         (tr_t c) (tr_terminal c)).1.

(** An action that leaves state 0 where it is, taken at [t = 0] with
    [nsim = 2]; the object and the agent after that call. *)
Definition stay (t : Z) : Transition Z Z := mkTransition 0 0 1%float 0 0 t false.

Definition stayed : sweeper * TableAgent.t Z :=
  sweep_call (PrioritizedSweep.init_episode (sweep_init 2) 0 0, zero_agent) (stay 0).



End Scenario.

(** ** Episodes call by call *)

Module EpisodeSpec.
Section EpisodeSpec.
Context {A St Act : Type} `{!Agent.t A St Act} `{!EqDecision Act}.
Import NStepAlgo.

(** The calls of an episode arrive in order: the [i]-th at time [i]. *)
Definition sequential (calls : list (A * Transition St Act)) : Prop :=
  (λ c, tr_t c.2) <$> calls = Z.of_nat <$> seq 0 (length calls).

(** The slot a call writes: [(new_s, new_a, r)]. *)
Definition slot_of (c : A * Transition St Act) : St * Act * float :=
  (tr_new_s c.2, tr_new_a c.2, tr_r c.2).

(** What the buffer is given for the step index [i] of an episode started
    with [(s0, a0)]: the start at 0, and at [i + 1] what call [i] brought. *)
Definition slot_at (s0 : St) (a0 : Act) (calls : list (A * Transition St Act))
    (i : nat) : option (St * Act * float) :=
  match i with
  | O => Some (s0, a0, 0%float)
  | S j => slot_of <$> calls !! j
  end.

(** The last step index written: the number of calls, capped by the horizon. *)
Definition top (calls : list (A * Transition St Act)) (T : TStep) : Z :=
  min_TStep (Z.of_nat (length calls)) T.

(** [stepReturn] folded backwards over a run of slots, the earliest first,
    from a seed. *)
Definition fold_return (P : ReturnPolicy A St Act) (g : float) (agent : A)
    (slots : list (St * Act * float)) (seed : float) : float :=
  foldr (λ x ret, step_return P g agent x.1.1 x.1.2 x.2 ret) seed slots.

(** The calls [lo], ..., [hi - 1] of an episode. *)
Definition calls_between (calls : list (A * Transition St Act)) (lo hi : Z)
  : list (A * Transition St Act) :=
  take (Z.to_nat (hi - lo)) (drop (Z.to_nat lo) calls).
End EpisodeSpec.
End EpisodeSpec.

Module Walk.
(** A walk 0 -> 1 -> 2 -> 3 that ends in 3, watched by the table agent of
    the scenarios (it values only [(1, 0)], at 2). *)
Definition walk : list (TableAgent.t Z * Transition Z Z) :=
  [(Scenario.agent, mkTransition 0 0 1%float 1 0 0 false);
   (Scenario.agent, mkTransition 1 0 1%float 2 0 1 false);
   (Scenario.agent, mkTransition 2 0 1%float 3 0 2 true)].

(** Its first two calls: the episode is still live after them. *)
Definition live : list (TableAgent.t Z * Transition Z Z) := take 2 walk.

(** A two-step rule at the start of an episode in state 0. *)
Definition two_step (P : NStepAlgo.ReturnPolicy (TableAgent.t Z) Z Z)
  : NStepAlgo.obj (TableAgent.t Z) Z Z :=
  NStepAlgo.init_episode (NStepAlgo.init P 0.9%float 2) 0 0.

(** The first call of the tree-backup scenario: action 0 is stored for
    state 1, where the agent holds action 1 best. *)
Definition off_policy : list (TableAgent.t Z * Transition Z Z) :=
  [(Scenario.tree_agent, mkTransition 0 0 1%float 1 0 0 false)].

(** A walk 0 -> 2 -> 3 -> 1 that ends in state 1, the one the agent
    values, under three-step Sarsa. *)
Definition home : list (TableAgent.t Z * Transition Z Z) :=
  [(Scenario.agent, mkTransition 0 0 1%float 2 0 0 false);
   (Scenario.agent, mkTransition 2 0 1%float 3 0 1 false);
   (Scenario.agent, mkTransition 3 0 1%float 1 0 2 true)].

Definition three_step : NStepAlgo.obj (TableAgent.t Z) Z Z :=
  NStepAlgo.init_episode (NStepAlgo.init NStepAlgo.Sarsa 0.9%float 3) 0 0.
End Walk.

(** ** The model and the visits over the life of an object *)

Module ModelSpec.
Section ModelSpec.
Context {A St Act : Type} `{!Agent.t A St Act}.
Context `{!EqDecision St, !Countable St, !EqDecision Act, !Countable Act}.
Context {X : Type} `{!Algo A St Act X}.

(** What an event leaves of the entry of the pair [p]: a real transition
    from [p] that is not terminal replaces it, everything else keeps it. *)
Definition record (p : St * Act) (entry : option (St * float))
    (e : DynaSpec.event A St Act) : option (St * float) :=
  match e with
  | DynaSpec.Init _ _ => entry
  | DynaSpec.Call _ c =>
      if tr_terminal c then entry
      else if decide ((tr_s c, tr_a c) = p) then Some (tr_new_s c, tr_r c) else entry
  end.

(** The successor and the reward of the latest non-terminal transition
    from [p], if there was one. *)
Definition latest (events : list (DynaSpec.event A St Act)) (p : St * Act)
  : option (St * float) :=
  fold_left (record p) events None.

(** One planning update, for a pair the model knows. *)
Definition planned (self : Dyna.obj A St Act X) (agent : A) (p : St * Act) : A :=
  match Dyna.step_sim self agent p.1 p.2 with
  | Ok agent' => agent'
  | Raise => agent
  end.

(** The agent after the planning updates of a sample, in order. *)
Definition replay (self : Dyna.obj A St Act X) (agent : A) (samp : list (St * Act)) : A :=
  fold_left (planned self) samp agent.
End ModelSpec.
End ModelSpec.

Module ExploreSpec.
Section ExploreSpec.
Context {A St Act : Type} {X : Type} `{!Algo A St Act X}.
Context `{!EqDecision Act, !Countable Act}.
Context {Key : Type} `{!EqDecision Key, !Countable Key} (tuple : St → Key).

(** What the calls of one episode leave of the object. *)
Definition step (self : ExploreBonus.obj Act X Key) (c : A * Transition St Act)
  : ExploreBonus.obj Act X Key :=
  (ExploreBonus.call tuple self c.1 (tr_s c.2) (tr_a c.2) (tr_r c.2) (tr_new_s c.2)
                     (tr_new_a c.2) (tr_t c.2) (tr_terminal c.2)).1.1.

Definition run (self : ExploreBonus.obj Act X Key) (calls : list (A * Transition St Act))
  : ExploreBonus.obj Act X Key :=
  fold_left step calls self.

(** The time of the latest call for the pair [(k, a)] that got as far as
    recording it, from [last] on: a call whose distance to the last visit
    fits neither [int64] nor [uint64] fails before it records anything. *)
Definition last_seen (k : Key) (a : Act) (calls : list (A * Transition St Act))
    (last : Z) : Z :=
  fold_left (λ acc c, if decide ((tuple (tr_s c.2), tr_a c.2) = (k, a)
                                 ∧ - 2 ^ 63 ≤ tr_t c.2 - acc < 2 ^ 64)
                      then tr_t c.2 else acc) calls last.
End ExploreSpec.
End ExploreSpec.

Module Composed.
(** Exploration bonus around Dyna around one-step Sarsa, on feature
    states, in an episode. *)
Definition feature_sarsa : NStepAlgo.obj (TableAgent.t (list Z)) (list Z) Z :=
  NStepAlgo.init NStepAlgo.Sarsa 0.9%float 1.

Definition explore_dyna
  : ExploreBonus.obj Z (Dyna.obj (TableAgent.t (list Z)) (list Z) Z
                          (NStepAlgo.obj (TableAgent.t (list Z)) (list Z) Z)) (list Z) :=
  ExploreBonus.init_episode
    (ExploreBonus.init (Dyna.init feature_sarsa feature_sarsa 1 (λ _, 0%nat)) 0.05%float)
    [3; 4] 0.

(** Five calls of an episode of [Scenario.explore]: the pair ([3; 4], 0)
    is tried at [t = 0] and [t = 1], the pair ([3; 5], 0) after that. *)
Definition visits : list (TableAgent.t (list Z) * Transition (list Z) Z) :=
  [(Scenario.feature_agent, mkTransition [3; 4] 0 1%float [3; 4] 0 0 false);
   (Scenario.feature_agent, mkTransition [3; 4] 0 1%float [3; 5] 0 1 false);
   (Scenario.feature_agent, mkTransition [3; 5] 0 1%float [3; 5] 0 2 false);
   (Scenario.feature_agent, mkTransition [3; 5] 0 1%float [3; 5] 0 3 false);
   (Scenario.feature_agent, mkTransition [3; 5] 0 1%float [3; 4] 0 4 false)].
End Composed.

(** * Properties *)

(** ** Lists of indices *)

Lemma range_down_length start stop :
  length (range_down start stop) = Z.to_nat (start - stop).
Proof. unfold range_down. by rewrite length_map, length_seq. Qed.

Lemma range_down_nil start stop : start ≤ stop → range_down start stop = [].
Proof.
  intros Hle. unfold range_down.
  replace (Z.to_nat (start - stop)) with 0%nat by lia. done.
Qed.

Lemma range_down_cons start stop :
  stop < start → range_down start stop = start :: range_down (start - 1) stop.
Proof.
  intros Hlt. unfold range_down.
  replace (Z.to_nat (start - stop)) with (S (Z.to_nat (start - 1 - stop))) by lia.
  cbn [seq map]. f_equal; [lia|].
  rewrite <- seq_shift, map_map. apply map_ext. intros k. lia.
Qed.

Lemma downto_nil hi lo : hi < lo → downto hi lo = [].
Proof.
  intros Hlt. unfold downto.
  replace (Z.to_nat (hi - lo + 1)) with 0%nat by lia. done.
Qed.

Lemma downto_cons hi lo : lo ≤ hi → downto hi lo = hi :: downto (hi - 1) lo.
Proof.
  intros Hle. unfold downto.
  replace (Z.to_nat (hi - lo + 1)) with (S (Z.to_nat (hi - 1 - lo + 1))) by lia.
  rewrite seq_S, map_app, rev_app_distr. cbn [map rev app]. f_equal. lia.
Qed.

(** [range(hi, lo - 1, -1)] runs over "[hi] down to [lo]". *)
Lemma range_down_downto hi lo : range_down hi (lo - 1) = downto hi lo.
Proof.
  destruct (decide (hi < lo)) as [Hlt|Hge].
  { rewrite range_down_nil, downto_nil by lia. done. }
  assert (∃ n : nat, hi = lo + Z.of_nat n) as [n ->].
  { exists (Z.to_nat (hi - lo)). lia. }
  clear Hge. induction n as [|n IH].
  - rewrite range_down_cons, downto_cons by lia.
    rewrite range_down_nil, downto_nil by lia. done.
  - rewrite range_down_cons, downto_cons by lia.
    replace (lo + Z.of_nat (S n) - 1) with (lo + Z.of_nat n) by lia.
    by rewrite IH.
Qed.

(** ** The ring buffer *)

Section BufferFacts.
Context {V : Type}.
Implicit Types (b : Buffer.t V) (v : V) (i : Z).

Lemma Buffer_capacity_set b i v : Buffer.capacity (Buffer.set b i v) = Buffer.capacity b.
Proof. unfold Buffer.capacity, Buffer.set. cbn. by rewrite length_insert. Qed.

Lemma Buffer_capacity_make (n : Z) (d : V) : 0 ≤ n → Buffer.capacity (Buffer.make n d) = n.
Proof. intros Hn. unfold Buffer.capacity, Buffer.make. cbn. rewrite length_replicate. lia. Qed.

Lemma Buffer_index_lt b i : 0 < Buffer.capacity b → (Buffer.index b i < length (Buffer.data b))%nat.
Proof.
  intros Hc. unfold Buffer.index.
  pose proof (Z.mod_pos_bound i (Buffer.capacity b) Hc) as Hb.
  unfold Buffer.capacity in *. lia.
Qed.

(** Round trip: a slot reads back what was written to it. *)
Lemma Buffer_get_set b i v : 0 < Buffer.capacity b → Buffer.get (Buffer.set b i v) i = v.
Proof.
  intros Hc. unfold Buffer.get. cbn.
  replace (Buffer.index (Buffer.set b i v) i) with (Buffer.index b i)
    by (unfold Buffer.index; by rewrite Buffer_capacity_set).
  rewrite list_lookup_insert_eq by by apply Buffer_index_lt. done.
Qed.

(** A write leaves the slots of the other residues modulo the capacity. *)
Lemma Buffer_get_set_ne b i j v :
  0 < Buffer.capacity b →
  i mod Buffer.capacity b ≠ j mod Buffer.capacity b →
  Buffer.get (Buffer.set b i v) j = Buffer.get b j.
Proof.
  intros Hc Hne. unfold Buffer.get. cbn.
  replace (Buffer.index (Buffer.set b i v) j) with (Buffer.index b j)
    by (unfold Buffer.index; by rewrite Buffer_capacity_set).
  rewrite list_lookup_insert_ne; [done|].
  unfold Buffer.index. intros Heq. apply Hne.
  pose proof (Z.mod_pos_bound i _ Hc). pose proof (Z.mod_pos_bound j _ Hc). lia.
Qed.
End BufferFacts.

(** ** The n-step engine *)

Section NStepFacts.
Context {A St Act : Type} `{!Agent.t A St Act} `{!EqDecision Act}.
Import NStepAlgo NStepSpec.
Implicit Types (self : obj A St Act) (agent : A) (buf : Buffer.t (Slot St Act)) (T : TStep).

Lemma result_bind_Ok {X : Type} (m : result X) : result_bind m Ok = m.
Proof. by destruct m. Qed.

(** The loop of [get_return] is a left fold over its indices. *)
Lemma get_return_loop_fold self agent buf idxs (m : result float) :
  result_bind m (get_return_loop self agent buf idxs)
  = fold_left (λ ret i, result_bind ret (call_step_return self agent (Buffer.get buf i)))
              idxs m.
Proof.
  revert m. induction idxs as [|i idxs IH]; intros m; cbn [fold_left get_return_loop].
  - by destruct m.
  - rewrite <- IH. by destruct m.
Qed.

(** The code's loop and the specification's fold agree step by step. *)
Lemma fold_step_outcome self agent buf idxs (m : option float) :
  fold_left (λ ret i, result_bind ret (call_step_return self agent (Buffer.get buf i)))
            idxs (outcome m)
  = outcome (fold_left (λ acc i, ret ← acc; x ← Buffer.get buf i;
                                 Some (step_return (policy self) (gamma self) agent
                                                   x.1.1 x.1.2 x.2 ret))
                       idxs m).
Proof.
  revert m. induction idxs as [|i idxs IH]; intros m; [done|].
  cbn [fold_left]. rewrite <- IH. f_equal.
  destruct m as [ret|]; [|done]. cbn.
  by destruct (Buffer.get buf i) as [[[sx ax] rx]|].
Qed.

Lemma get_return_backward self agent buf T t tgt_t :
  buffer self = Some buf → T_step self = Some T →
  get_return self agent t tgt_t
  = outcome (backward_return (policy self) (gamma self) agent (Buffer.get buf) T t tgt_t).
Proof.
  intros Hb HT. unfold get_return, backward_return. rewrite Hb, HT.
  rewrite get_return_loop_fold.
  replace tgt_t with (tgt_t + 1 - 1) at 1 by lia.
  rewrite range_down_downto.
  change (min_TStep (t + 1) T)
    with (match T with Inf => t + 1 | Fin z => Z.min (t + 1) z end).
  set (end_t := match T with Inf => t + 1 | Fin z => Z.min (t + 1) z end).
  rewrite <- fold_step_outcome. f_equal.
  by destruct (Buffer.get buf end_t) as [[[sx ax] rx]|].
Qed.

(** The fields a call never assigns. *)
Lemma call_config self agent s a r new_s new_a t term :
  let self' := (call self agent s a r new_s new_a t term).1.1 in
  policy self' = policy self ∧ gamma self' = gamma self ∧ nstep self' = nstep self.
Proof.
  unfold call. destruct (T_step self) as [T|]; [|done].
  destruct (lt_TStep t _); [destruct (buffer (set_T_step _ _)) as [buf|]|]; cbn;
    repeat case_match; done.
Qed.

(** A call hands the agent back as it received it. *)
Lemma call_agent self agent s a r new_s new_a t term :
  (call self agent s a r new_s new_a t term).1.2 = agent.
Proof.
  unfold call. destruct (T_step self) as [T|]; [|done].
  destruct (lt_TStep t _); [destruct (buffer (set_T_step _ _)) as [buf|]|]; cbn;
    repeat case_match; done.
Qed.

(** What a call does to an object in an episode, spelled out. *)
Lemma call_unfold self agent s a r new_s new_a t term buf T :
  buffer self = Some buf → T_step self = Some T →
  let T' := if is_inf T && term then Fin (t + 1) else T in
  let buf' := if lt_TStep t T' then Buffer.set buf (t + 1) (Some (new_s, new_a, r)) else buf in
  let self' := {| policy := policy self; gamma := gamma self; nstep := nstep self;
                  buffer := Some buf'; T_step := Some T' |} in
  let tgt_t := t - nstep self + 1 in
  call self agent s a r new_s new_a t term =
    (self', agent,
     if tgt_t <? 0 then Ok Command_no_update
     else result_map (λ ret, mkCommand true (Some ret)
                               (fst <$> (fst <$> Buffer.get buf' tgt_t))
                               (snd <$> (fst <$> Buffer.get buf' tgt_t))
                               (ge_TStep_pred tgt_t T'))
                     (get_return self' agent t tgt_t)).
Proof.
  intros Hb HT. cbn zeta. unfold call. rewrite HT.
  unfold set_T_step, set_buffer. cbn. rewrite Hb.
  destruct (lt_TStep t _); cbn; (destruct (_ <? 0); [done|]);
    destruct (result_bind _ _); done.
Qed.
End NStepFacts.

Section NStepClaims.
Context {A St Act : Type} `{!Agent.t A St Act} `{!EqDecision Act}.
Import NStepAlgo NStepSpec.
Implicit Types (self : obj A St Act) (agent : A) (buf : Buffer.t (Slot St Act)) (T : TStep).

(** C1.  For every call of an object inside an episode with
    [tgt_t = t - nstep + 1 >= 0], the return is the backward computation of
    the specification on the buffer and the horizon as the call leaves
    them: with [end_t = min(t+1, T_step)], seeded as [terminalReturn] on the
    slot at [end_t] and folded as [stepReturn] over the slots [end_t - 1]
    down to [tgt_t + 1].  The command carries that return, and the call
    raises exactly when the computation has none. *)
Theorem backward_return_computation self agent s a r new_s new_a t term buf T :
  buffer self = Some buf → T_step self = Some T →
  0 ≤ t - nstep self + 1 →
  let out := call self agent s a r new_s new_a t term in
  let tgt_t := t - nstep self + 1 in
  let T' := match T with
            | Inf => if term then Fin (t + 1) else Inf
            | Fin z => Fin z
            end in
  let buf' := if match T' with Inf => true | Fin z => t <? z end
              then Buffer.set buf (t + 1) (Some (new_s, new_a, r)) else buf in
  let ret := backward_return (policy self) (gamma self) agent (Buffer.get buf') T' t tgt_t in
  buffer out.1.1 = Some buf' ∧ T_step out.1.1 = Some T'
  ∧ get_return out.1.1 agent t tgt_t = outcome ret
  ∧ result_map cmd_ret out.2 = outcome (Some <$> ret)
  ∧ result_map cmd_update out.2 = outcome ((λ _, true) <$> ret).
Proof.
  intros Hb HT Htgt. cbn zeta.
  rewrite (call_unfold _ _ _ _ _ _ _ _ _ _ _ Hb HT). cbn [fst snd buffer T_step].
  assert ((t - nstep self + 1 <? 0) = false) as -> by lia.
  assert ((if is_inf T && term then Fin (t + 1) else T)
          = match T with Inf => if term then Fin (t + 1) else Inf | Fin z => Fin z end)
    as -> by (by destruct T, term).
  set (T' := match T with Inf => if term then Fin (t + 1) else Inf | Fin z => Fin z end).
  change (lt_TStep t T') with (match T' with Inf => true | Fin z => t <? z end).
  set (buf' := if match T' with Inf => true | Fin z => t <? z end
               then Buffer.set buf (t + 1) (Some (new_s, new_a, r)) else buf).
  split; [done|]. split; [done|].
  rewrite (get_return_backward _ agent buf' T') by done. cbn [policy gamma].
  split; [done|].
  by destruct (backward_return _ _ _ _ _ _ _).
Qed.
End NStepClaims.

Lemma backward_return_computation_witness :
  result_map cmd_ret
    (NStepAlgo.call (NStepSpec.run Walk.three_step Walk.home)
                    Scenario.agent 1 0 0%float 1 0 3 false).2
  = Ok (Some (1 + 0.9 * (1 + 0.9 * 2))%float).
Proof.
  destruct (backward_return_computation (NStepSpec.run Walk.three_step Walk.home)
              Scenario.agent 1 0 0%float 1 0 3 false _ (Fin 3) eq_refl eq_refl)
    as (_ & _ & _ & Hret & _); [vm_compute; discriminate|].
  rewrite Hret. vm_compute. reflexivity.
Defined.

(** C2.  The single-step episode: Sarsa with [gamma = 0.9] and [nstep = 1],
    any agent whose value for state 1 and action 0 is 2; after
    [init_episode(0, 0)] the call with the transition
    [(s=0, a=0, r=1, new_s=1, new_a=0, t=0, terminal)] returns the command
    to update, with the return [1 + 0.9 * 2 = 2.8], credited to state 0 and
    action 0, and flagged terminal. *)
Theorem single_step_episode {A : Type} `{!Agent.t A Z Z} (agent : A) :
  Agent.q agent 1 0 = 2%float →
  (NStepAlgo.call (NStepAlgo.init_episode (NStepAlgo.init NStepAlgo.Sarsa 0.9%float 1) 0 0)
                  agent 0 0 1%float 1 0 0 true).2
  = Ok (mkCommand true (Some 2.8%float) (Some 0) (Some 0) true)
  ∧ (1 + 0.9 * 2)%float = 2.8%float.
Proof.
  intros Hq. split; [|reflexivity].
  cbv [NStepAlgo.call NStepAlgo.init_episode NStepAlgo.init NStepAlgo.T_step
       NStepAlgo.set_T_step NStepAlgo.set_buffer NStepAlgo.buffer NStepAlgo.nstep
       is_inf andb lt_TStep snd].
  replace (0 <? 0 + 1) with true by reflexivity.
  replace (0 - 1 + 1 <? 0) with false by reflexivity.
  cbv [NStepAlgo.get_return NStepAlgo.buffer NStepAlgo.T_step min_TStep].
  replace (Z.min (0 + 1) (0 + 1) - 1) with 0 by reflexivity.
  replace (range_down 0 (0 - 1 + 1)) with (@nil Z) by reflexivity.
  cbv -[Agent.q PrimFloat.add PrimFloat.mul].
  rewrite Hq. reflexivity.
Qed.

Lemma single_step_episode_witness :
  (NStepAlgo.call Scenario.episode Scenario.agent 0 0 1%float 1 0 0 true).2
  = Ok (mkCommand true (Some 2.8%float) (Some 0) (Some 0) true).
Proof.
  apply (single_step_episode Scenario.agent). reflexivity.
Defined.

Section NStepEpisode.
Context {A St Act : Type} `{!Agent.t A St Act} `{!EqDecision Act}.
Import NStepAlgo NStepSpec.
Implicit Types (self : obj A St Act) (agent : A) (buf : Buffer.t (Slot St Act)) (T : TStep).
Implicit Types (c : A * Transition St Act) (calls : list (A * Transition St Act)).

(** One call moves the horizon only from infinity, and only on a terminal
    flag.  This does not depend on the buffer. *)
Lemma step_T_step self c T :
  T_step self = Some T →
  T_step (step self c) = Some (if is_inf T && tr_terminal c.2 then Fin (tr_t c.2 + 1) else T).
Proof.
  intros HT. unfold step, call. rewrite HT.
  destruct (lt_TStep _ _); [destruct (buffer (set_T_step _ _))|]; cbn;
    repeat case_match; done.
Qed.

Lemma run_T_step self calls T :
  T_step self = Some T →
  T_step (run self calls) = Some (match T with Inf => horizon calls | Fin z => Fin z end).
Proof.
  revert self T. induction calls as [|c calls IH]; intros self T HT.
  - cbn. rewrite HT. by destruct T.
  - cbn [run fold_left]. fold (run (step self c) calls).
    rewrite (IH _ _ (step_T_step self c T HT)).
    destruct T; cbn; [|done]. by destruct (tr_terminal c.2).
Qed.

Lemma horizon_app_Fin calls more z :
  horizon calls = Fin z → horizon (calls ++ more) = Fin z.
Proof.
  induction calls as [|c calls IH]; cbn; [done|].
  destruct (tr_terminal c.2); auto.
Qed.

Lemma horizon_app_Inf calls more :
  horizon calls = Inf → horizon (calls ++ more) = horizon more.
Proof.
  induction calls as [|c calls IH]; cbn; [done|].
  destruct (tr_terminal c.2); [done|auto].
Qed.

(** C4.  Within one episode, after any sequence of calls, [T_step] is the
    horizon the calls determine: infinity as long as no call was flagged
    terminal, and [t + 1] for the first call that was; once it is set,
    further calls, whatever their arguments and flags, leave it as it is. *)
Theorem T_step_set_once self s0 a0 calls :
  T_step (run (init_episode self s0 a0) calls) = Some (horizon calls)
  ∧ (Forall (λ c, tr_terminal c.2 = false) calls → horizon calls = Inf)
  ∧ (∀ c, Forall (λ c, tr_terminal c.2 = false) calls → tr_terminal c.2 = true →
          horizon (calls ++ [c]) = Fin (tr_t c.2 + 1))
  ∧ (∀ z more, horizon calls = Fin z →
          T_step (run (init_episode self s0 a0) (calls ++ more)) = Some (Fin z)).
Proof.
  assert (∀ cs, T_step (run (init_episode self s0 a0) cs) = Some (horizon cs)) as Hrun.
  { intros cs. by rewrite (run_T_step _ cs Inf). }
  assert (Forall (λ c, tr_terminal c.2 = false) calls → horizon calls = Inf) as Hinf.
  { induction 1 as [|c cs Hc _ IH]; cbn; [done|]. by rewrite Hc. }
  split; [apply Hrun|]. split; [done|]. split.
  - intros c Hall Hc. rewrite horizon_app_Inf by auto. cbn. by rewrite Hc.
  - intros z more Hz. rewrite Hrun. f_equal. by apply horizon_app_Fin.
Qed.

(** The buffer of an episode keeps the capacity [nstep + 1]. *)
Lemma step_buffer self c buf :
  buffer self = Some buf →
  ∃ buf', buffer (step self c) = Some buf' ∧ Buffer.capacity buf' = Buffer.capacity buf.
Proof.
  intros Hb. unfold step, call.
  destruct (T_step self) as [T|]; [|by eauto].
  unfold set_T_step, set_buffer. cbn. rewrite Hb.
  destruct (lt_TStep _ _); cbn; repeat case_match; cbn;
    eauto using Buffer_capacity_set.
Qed.

Lemma step_config self c :
  policy (step self c) = policy self ∧ gamma (step self c) = gamma self
  ∧ nstep (step self c) = nstep self.
Proof. apply call_config. Qed.

Lemma run_episode (P : ReturnPolicy A St Act) (g : float) (n : Z) s0 a0 calls :
  0 ≤ n →
  let self := run (init_episode (init P g n) s0 a0) calls in
  policy self = P ∧ gamma self = g ∧ nstep self = n
  ∧ T_step self = Some (horizon calls)
  ∧ ∃ buf, buffer self = Some buf ∧ Buffer.capacity buf = n + 1.
Proof.
  intros Hn self.
  assert (∀ self0, (∃ buf, buffer self0 = Some buf ∧ Buffer.capacity buf = n + 1) →
                   policy self0 = P → gamma self0 = g → nstep self0 = n →
                   let self1 := run self0 calls in
                   policy self1 = P ∧ gamma self1 = g ∧ nstep self1 = n
                   ∧ ∃ buf, buffer self1 = Some buf ∧ Buffer.capacity buf = n + 1) as Hgen.
  { clear self. induction calls as [|c cs IH]; intros self0 Hb HP Hg Hns; [done|].
    cbn [run fold_left]. apply IH.
    - destruct Hb as (buf & Hb & Hcap).
      destruct (step_buffer self0 c buf Hb) as (buf' & Hb' & Hcap').
      exists buf'. split; [done|]. lia.
    - destruct (step_config self0 c) as (-> & _ & _). done.
    - destruct (step_config self0 c) as (_ & -> & _). done.
    - destruct (step_config self0 c) as (_ & _ & ->). done. }
  destruct (Hgen (init_episode (init P g n) s0 a0)) as (HP & Hg & Hns & Hb); try done.
  { eexists. split; [done|]. cbn. rewrite Buffer_capacity_set, Buffer_capacity_make; lia. }
  repeat split; try done.
  unfold self. by rewrite (run_T_step _ calls Inf).
Qed.

(** For [nstep = 1] the loop of [get_return] has nothing to run over,
    whatever the horizon. *)
Lemma one_step_range T t : range_down (min_TStep (t + 1) T - 1) (t - 1 + 1) = [].
Proof. apply range_down_nil. destruct T; cbn; lia. Qed.

(** C5.  For [nstep = 1], any return policy and any transition with
    [t >= 0]: the return of the command is [terminalReturn] applied
    directly to one buffer slot, the one at [end_t], and the backward loop
    runs over the empty range whatever the horizon.  While the episode has
    not ended before the transition, that slot is the one the call has just
    written for it, so the command carries the policy's one-step target
    [terminalReturn(new_s, new_a, r)]. *)
Theorem one_step_target (P : ReturnPolicy A St Act) (g : float) s0 a0 calls
    agent s a r new_s new_a t term :
  0 ≤ t →
  let self := run (init_episode (init P g 1) s0 a0) calls in
  let out := call self agent s a r new_s new_a t term in
  (∃ buf' T', buffer out.1.1 = Some buf' ∧ T_step out.1.1 = Some T'
      ∧ get_return out.1.1 agent t t
        = call_end_return out.1.1 agent (Buffer.get buf' (min_TStep (t + 1) T'))
      ∧ result_map cmd_ret out.2 = result_map Some (get_return out.1.1 agent t t))
  ∧ (lt_TStep t (horizon calls) = true →
     ∃ cmd, out.2 = Ok cmd ∧ cmd_update cmd = true
            ∧ cmd_ret cmd = Some (end_return P g agent new_s new_a r))
  ∧ (∀ T, range_down (min_TStep (t + 1) T - 1) (t - nstep self + 1) = []).
Proof.
  intros Ht self out.
  destruct (run_episode P g 1 s0 a0 calls) as (HP & Hg & Hn & HT & buf & Hb & Hcap); [lia|].
  fold self in HP, Hg, Hn, HT, Hb.
  assert (0 < Buffer.capacity buf) as Hpos by lia.
  set (T' := if is_inf (horizon calls) && term then Fin (t + 1) else horizon calls).
  set (buf' := if lt_TStep t T' then Buffer.set buf (t + 1) (Some (new_s, new_a, r)) else buf).
  pose proof (call_unfold self agent s a r new_s new_a t term buf _ Hb HT) as Hcall.
  cbn zeta in Hcall. fold T' buf' in Hcall.
  replace (t - nstep self + 1) with t in Hcall by lia.
  assert ((t <? 0) = false) as Hneg by lia. rewrite Hneg in Hcall. clear Hneg.
  fold out in Hcall.
  assert (get_return out.1.1 agent t t
          = call_end_return out.1.1 agent (Buffer.get buf' (min_TStep (t + 1) T'))) as Hdirect.
  { rewrite Hcall. cbn [fst snd]. unfold get_return. cbn [buffer T_step].
    replace (range_down (min_TStep (t + 1) T' - 1) t) with (@nil Z).
    - cbn [get_return_loop]. apply result_bind_Ok.
    - symmetry. replace t with (t - 1 + 1) at 2 by lia. apply one_step_range. }
  split; [|split].
  - exists buf', T'. rewrite Hcall at 1 2. cbn [fst snd buffer T_step].
    split; [done|]. split; [done|]. split; [done|].
    rewrite Hcall at 1. cbn [snd]. rewrite Hcall. cbn [fst snd].
    by destruct (get_return _ _ _ _).
  - intros Hlive.
    assert (lt_TStep t T' = true) as Hlt.
    { unfold T'. destruct (horizon calls); cbn in *; [destruct term; cbn; lia|done]. }
    assert (min_TStep (t + 1) T' = t + 1) as Hend.
    { unfold T'. destruct (horizon calls); cbn in *; [destruct term; cbn; lia|lia]. }
    rewrite Hend in Hdirect. unfold buf' in Hdirect. rewrite Hlt in Hdirect.
    rewrite Buffer_get_set in Hdirect by done.
    rewrite Hcall in Hdirect |- *. cbn [fst snd] in *. rewrite Hdirect.
    cbn. rewrite HP, Hg. eauto.
  - intros T. rewrite Hn. apply one_step_range.
Qed.
End NStepEpisode.

Lemma one_step_target_witness :
  ∃ cmd, (NStepAlgo.call Scenario.episode Scenario.agent 0 0 1%float 1 0 0 true).2 = Ok cmd
         ∧ cmd_update cmd = true
         ∧ cmd_ret cmd = Some (NStepAlgo.end_return NStepAlgo.Sarsa 0.9%float
                                 Scenario.agent 1 0 1%float).
Proof.
  refine (proj1 (proj2 (one_step_target NStepAlgo.Sarsa 0.9%float 0 0 [] Scenario.agent
                          0 0 1%float 1 0 0 true _)) _).
  - vm_compute. discriminate.
  - reflexivity.
Defined.

(** ** The return once the episode has ended within the window *)

Lemma discounted_snoc gamma rs r final :
  discounted gamma (rs ++ [r]) final = discounted gamma rs (r + gamma * final)%float.
Proof. induction rs as [|r' rs IH]; cbn; [done|]. by rewrite IH. Qed.

Lemma discounted_rewards_snoc gamma rs r :
  discounted_rewards gamma (rs ++ [r]) = discounted gamma rs r.
Proof.
  induction rs as [|r' rs IH]; [done|].
  cbn [app discounted]. rewrite <- IH. cbn. by destruct (rs ++ [r]) eqn:E; [destruct rs|].
Qed.

Section EndedWindow.
Context {A St Act : Type} `{!Agent.t A St Act} `{!EqDecision Act}.
Import NStepAlgo NStepSpec EpisodeSpec.
Implicit Types (self : obj A St Act) (agent : A) (buf : Buffer.t (Slot St Act)).

(** The loop over a run of written slots, for a policy whose [stepReturn]
    is [r + gamma * ret]. *)
Lemma get_return_loop_discounted self agent buf (lo : Z)
    (slots : list (St * Act * float)) (seed : float) :
  (∀ g ag s a r ret, step_return (policy self) g ag s a r ret = (r + g * ret)%float) →
  (∀ (k : nat) x, slots !! k = Some x → Buffer.get buf (lo + Z.of_nat k) = Some x) →
  get_return_loop self agent buf
    (range_down (lo + Z.of_nat (length slots) - 1) (lo - 1)) seed
  = Ok (discounted (gamma self) (rewards slots) seed).
Proof.
  intros Hstep. revert seed.
  induction slots as [|x slots IH] using rev_ind; intros seed Hslots.
  - rewrite range_down_nil by (cbn; lia). done.
  - rewrite length_app. cbn [length].
    replace (lo + Z.of_nat (length slots + 1) - 1)
      with (lo + Z.of_nat (length slots)) by lia.
    rewrite range_down_cons by lia. cbn [get_return_loop].
    rewrite (Hslots (length slots) x) by (by rewrite lookup_app_r, Nat.sub_diag by lia).
    destruct x as [[sx ax] rx]. cbn [call_step_return result_bind].
    rewrite IH.
    + unfold rewards. rewrite fmap_app. cbn [fmap list_fmap snd].
      by rewrite discounted_snoc, Hstep.
    + intros k y Hk. apply Hslots. rewrite lookup_app_l; [done|].
      by eapply lookup_lt_Some.
Qed.

(** The loop of [get_return] over a run of written slots. *)
Lemma get_return_loop_foldr self agent buf (lo : Z)
    (slots : list (St * Act * float)) (seed : float) :
  (∀ (k : nat) x, slots !! k = Some x → Buffer.get buf (lo + Z.of_nat k) = Some x) →
  get_return_loop self agent buf
    (range_down (lo + Z.of_nat (length slots) - 1) (lo - 1)) seed
  = Ok (fold_return (policy self) (gamma self) agent slots seed).
Proof.
  revert seed.
  induction slots as [|x slots IH] using rev_ind; intros seed Hslots.
  - rewrite range_down_nil by (cbn; lia). done.
  - rewrite length_app. cbn [length].
    replace (lo + Z.of_nat (length slots + 1) - 1)
      with (lo + Z.of_nat (length slots)) by lia.
    rewrite range_down_cons by lia. cbn [get_return_loop].
    rewrite (Hslots (length slots) x) by (by rewrite lookup_app_r, Nat.sub_diag by lia).
    destruct x as [[sx ax] rx]. cbn [call_step_return result_bind].
    rewrite IH.
    + unfold fold_return. by rewrite foldr_app.
    + intros k y Hk. apply Hslots. rewrite lookup_app_l; [done|].
      by eapply lookup_lt_Some.
Qed.

Lemma fold_return_additive (P : ReturnPolicy A St Act) g agent slots seed :
  (∀ g ag s a r ret, step_return P g ag s a r ret = (r + g * ret)%float) →
  fold_return P g agent slots seed = discounted g (rewards slots) seed.
Proof.
  intros Hstep. induction slots as [|x slots IH]; [done|].
  cbn. unfold fold_return in IH. by rewrite IH, Hstep.
Qed.

(** C3, as the code has it.  When the episode has ended within the window
    ([end_t = T_step]), the return of every policy is still seeded with
    [terminalReturn] on the slot at [T_step], value estimate included, and
    folded with [stepReturn] over the slots [tgt_t + 1 .. T_step - 1] as in
    any other call.  For a policy whose [stepReturn] is [r + gamma * ret]
    (Sarsa, ExpectedSarsa, QLearn) it is the discounted sum of the rewards
    in those slots closed by that seed; it is the discounted sum of the
    rewards in the slots [tgt_t + 1 .. T_step] alone in case
    [terminalReturn] gives back the reward stored at [T_step]. *)
Theorem ended_window_return self agent buf (Tz t tgt_t : Z)
    (slots : list (St * Act * float)) (sT : St) (aT : Act) (rT : float) :
  buffer self = Some buf → T_step self = Some (Fin Tz) →
  Tz ≤ t + 1 →
  Tz = tgt_t + 1 + Z.of_nat (length slots) →
  (∀ (k : nat) x, slots !! k = Some x → Buffer.get buf (tgt_t + 1 + Z.of_nat k) = Some x) →
  Buffer.get buf Tz = Some (sT, aT, rT) →
  let seed := end_return (policy self) (gamma self) agent sT aT rT in
  Z.min (t + 1) Tz = Tz
  ∧ get_return self agent t tgt_t
    = Ok (fold_return (policy self) (gamma self) agent slots seed)
  ∧ ((∀ g ag s a r ret, step_return (policy self) g ag s a r ret = (r + g * ret)%float) →
     get_return self agent t tgt_t = Ok (discounted (gamma self) (rewards slots) seed)
     ∧ (seed = rT →
        get_return self agent t tgt_t
        = Ok (discounted_rewards (gamma self) (rewards (slots ++ [(sT, aT, rT)]))))).
Proof.
  intros Hb HT Hend HTz Hslots HslotT seed.
  assert (min_TStep (t + 1) (Fin Tz) = Tz) as Hmin by (cbn; lia).
  assert (get_return self agent t tgt_t
          = Ok (fold_return (policy self) (gamma self) agent slots seed)) as Hret.
  { unfold get_return. rewrite Hb, HT, Hmin, HslotT. cbn [call_end_return result_bind].
    replace (Tz - 1) with (tgt_t + 1 + Z.of_nat (length slots) - 1) by lia.
    replace tgt_t with (tgt_t + 1 - 1) at 2 by lia.
    by apply get_return_loop_foldr. }
  split; [lia|]. split; [done|].
  intros Hstep. rewrite Hret, fold_return_additive by done. split; [done|].
  intros Hzero. f_equal.
  unfold rewards. rewrite fmap_app. cbn [fmap list_fmap snd].
  by rewrite discounted_rewards_snoc, Hzero.
Qed.
End EndedWindow.

(** C3 does not hold as stated.  In the single-step scenario the episode
    ends within the window ([end_t = T_step = 1]) and the only reward
    buffered from [tgt_t + 1 = 1] through [T_step = 1] is 1; the return is
    2.8, not their discounted sum: the value estimate [Q(1,0) = 2] of the
    terminal slot is in it.  Nor does it hold for every policy when that
    estimate is zero: in the tree backup episode ([end_t = T_step = 2], the
    rewards 1 and 1 buffered in the slots 1 and 2, discounted sum 1.9) the
    return is [1 + 0.9 * 5 = 5.5], the value of the greedy action of state 1
    standing in for what follows. *)
Lemma zero_continuation_counterexample :
  (NStepAlgo.T_step Scenario.ended = Some (Fin 1)
   ∧ NStepAlgo.buffer Scenario.ended = Some Scenario.buffer1
   ∧ min_TStep (0 + 1) (Fin 1) = 1
   ∧ Buffer.get Scenario.buffer1 <$> upto (0 + 1) 1 = [Some (1, 0, 1%float)]
   ∧ NStepAlgo.get_return Scenario.ended Scenario.agent 0 0 = Ok 2.8%float
   ∧ NStepAlgo.get_return Scenario.ended Scenario.agent 0 0
     ≠ Ok (discounted_rewards (NStepAlgo.gamma Scenario.ended) [1%float]))
  ∧ (NStepAlgo.T_step Scenario.tree_ended = Some (Fin 2)
     ∧ NStepAlgo.buffer Scenario.tree_ended = Some Scenario.tree_buffer
     ∧ min_TStep (1 + 1) (Fin 2) = 2
     ∧ Buffer.get Scenario.tree_buffer <$> upto (0 + 1) 2
       = [Some (1, 0, 1%float); Some (2, 0, 1%float)]
     ∧ NStepAlgo.end_return NStepAlgo.TreeLearn 0.9%float Scenario.tree_agent 2 0 1%float
       = 1%float
     ∧ discounted_rewards (NStepAlgo.gamma Scenario.tree_ended) [1%float; 1%float]
       = 1.9%float
     ∧ NStepAlgo.get_return Scenario.tree_ended Scenario.tree_agent 1 0 = Ok 5.5%float
     ∧ NStepAlgo.get_return Scenario.tree_ended Scenario.tree_agent 1 0
       ≠ Ok (discounted_rewards (NStepAlgo.gamma Scenario.tree_ended) [1%float; 1%float])).
Proof.
  split.
  - repeat split; try reflexivity.
    intros H.
    apply (f_equal (λ m, match m with Ok x => PrimFloat.eqb x 1 | Raise => true end)) in H.
    vm_compute in H. discriminate.
  - repeat split; try reflexivity.
    intros H.
    apply (f_equal (λ m, match m with Ok x => PrimFloat.eqb x 1.9 | Raise => true end)) in H.
    vm_compute in H. discriminate.
Qed.

Lemma ended_window_return_witness :
  NStepAlgo.get_return (NStepSpec.run (Walk.two_step NStepAlgo.Sarsa) Walk.walk)
                       Scenario.agent 2 1
  = Ok (discounted_rewards 0.9%float [1%float; 1%float]).
Proof.
  refine (proj2 (proj2 (proj2 (ended_window_return
            (NStepSpec.run (Walk.two_step NStepAlgo.Sarsa) Walk.walk) Scenario.agent
            _ 3 2 1 [(2, 0, 1%float)] 3 0 1%float eq_refl eq_refl _ eq_refl _ eq_refl)) _) _).
  - lia.
  - intros [|k] x Hk; [|destruct k; discriminate]. injection Hk as <-. reflexivity.
  - intros. reflexivity.
  - reflexivity.
Defined.

(** ** Floats *)


(** ** The exploration bonus *)

(** The conversion of an integer below [2^63] is the machine's conversion
    of unsigned 63-bit integers. *)
Lemma float_of_Z_uint63 (z : Z) :
  0 ≤ z < 2 ^ 63 → float_of_Z z = PrimFloat.of_uint63 (Uint63.of_Z z).
Proof.
  intros Hz. unfold float_of_Z.
  rewrite <- (FloatAxioms.SF2Prim_Prim2SF (of_uint63 (Uint63.of_Z z))).
  rewrite FloatAxioms.of_uint63_spec.
  change (Uint63Axioms.to_Z (Uint63.of_Z z)) with (Uint63.to_Z (Uint63.of_Z z)).
  rewrite Uint63.of_Z_spec, Z.mod_small; [done|].
  change Uint63.wB with (2 ^ 63). lia.
Qed.

Lemma np_sqrt_Ok (d : Z) :
  - 2 ^ 63 ≤ d < 2 ^ 64 → np_sqrt d = Ok (PrimFloat.sqrt (float_of_Z d)).
Proof.
  intros Hd. unfold np_sqrt.
  assert ((- 2 ^ 63 <=? d) && (d <? 2 ^ 64) = true) as -> by lia. done.
Qed.

Lemma np_sqrt_Raise (d : Z) : ¬ (- 2 ^ 63 ≤ d < 2 ^ 64) → np_sqrt d = Raise.
Proof.
  intros Hd. unfold np_sqrt.
  assert ((- 2 ^ 63 <=? d) && (d <? 2 ^ 64) = false) as -> by lia. done.
Qed.

(** The ranges of [np.sqrt] on ints: the largest [int64] square, the first
    [uint64] (whose root is that of [2^63], not of a wrapped value), a
    negative [int64], and the first ints on either side that fit neither. *)
Lemma np_sqrt_ranges :
  np_sqrt 4 = Ok 2%float
  ∧ np_sqrt (2 ^ 63) = Ok 3037000499.9760499%float
  ∧ result_map PrimFloat.is_nan (np_sqrt (-4)) = Ok true
  ∧ np_sqrt (2 ^ 64) = Raise
  ∧ np_sqrt (- 2 ^ 63 - 1) = Raise.
Proof. repeat split; vm_compute; reflexivity. Qed.

Section ExploreBonusClaims.
Context {A St Act : Type} {X : Type} `{!Algo A St Act X}.
Context `{!EqDecision Act, !Countable Act}.
Context {Key : Type} `{!EqDecision Key, !Countable Key} (tuple : St → Key).
Import ExploreBonus.
Implicit Types (self : obj Act X Key) (agent : A) (table : gmap (Key * Act) Z).

(** A call whose distance to the last visit [np.sqrt] accepts: the inner
    rule is called with the shaped reward and the visit is recorded. *)
Lemma call_in_range self agent s a r new_s new_a t term table :
  _last_visit self = Some table →
  let last := default 0 (table !! (tuple s, a)) in
  - 2 ^ 63 ≤ t - last < 2 ^ 64 →
  let inner := algo_call (algo self) agent s a
                 (r + kappa self * PrimFloat.sqrt (float_of_Z (t - last)))%float
                 new_s new_a t term in
  call tuple self agent s a r new_s new_a t term
  = ({| algo := inner.1.1; kappa := kappa self;
        _last_visit := Some (<[(tuple s, a) := t]> table) |}, inner.1.2, inner.2).
Proof.
  intros Htable last Hd inner. unfold call, last_visit. rewrite Htable.
  assert (match table !! (tuple s, a) with Some t0 => Ok t0 | None => Ok 0 end = Ok last)
    as -> by (unfold last; by destruct (table !! _)).
  rewrite np_sqrt_Ok by done. unfold inner, shaped.
  by destruct (algo_call _ _ _ _ _ _ _ _ _) as [[x ag] cmd].
Qed.

(** A call whose distance fits neither [int64] nor [uint64] raises before
    anything is written. *)
Lemma call_out_of_range self agent s a r new_s new_a t term table :
  _last_visit self = Some table →
  ¬ (- 2 ^ 63 ≤ t - default 0 (table !! (tuple s, a)) < 2 ^ 64) →
  call tuple self agent s a r new_s new_a t term = (self, agent, Raise).
Proof.
  intros Htable Hd. unfold call, last_visit. rewrite Htable.
  assert (match table !! (tuple s, a) with Some t0 => Ok t0 | None => Ok 0 end
          = Ok (default 0 (table !! (tuple s, a)))) as -> by (by destruct (table !! _)).
  by rewrite np_sqrt_Raise.
Qed.

(** A call leaves the last visits of the other pairs as they are. *)
Lemma last_visit_other self agent s a r new_s new_a t term k a' :
  (tuple s, a) ≠ (k, a') →
  last_visit (call tuple self agent s a r new_s new_a t term).1.1 k a' = last_visit self k a'.
Proof.
  intros Hne.
  destruct (_last_visit self) as [table|] eqn:Htable.
  - destruct (decide (- 2 ^ 63 ≤ t - default 0 (table !! (tuple s, a)) < 2 ^ 64)) as [Hd|Hd].
    + rewrite (call_in_range _ _ _ _ _ _ _ _ _ table) by done.
      unfold last_visit. cbn. by rewrite Htable, lookup_insert_ne.
    + by rewrite (call_out_of_range _ _ _ _ _ _ _ _ _ table).
  - unfold call, last_visit. rewrite Htable. cbn. by rewrite Htable.
Qed.

End ExploreBonusClaims.



(** ** Dyna: what is simulated was observed *)

Section DynaClaims.
Context {A St Act : Type} `{!Agent.t A St Act}.
Context `{!EqDecision St, !Countable St, !EqDecision Act, !Countable Act}.
Context {X : Type} `{!Algo A St Act X}.
Import Dyna DynaSpec.
Implicit Types (self : obj A St Act X) (agent : A) (p : St * Act).
Implicit Types (events : list (event A St Act)).

Lemma elem_of_keys self p : p ∈ keys self ↔ is_Some (model self !! p).
Proof.
  unfold keys. rewrite list_elem_of_fmap. split.
  - intros ([k v] & -> & Hin). apply elem_of_map_to_list in Hin. by eexists.
  - intros [v Hv]. exists (p, v). split; [done|]. by apply elem_of_map_to_list.
Qed.

(** Drawing from a population that is not empty succeeds, and every draw is a
    member of the population. *)
Lemma choices_Ok {K : Type} (population : list K) (k : nat) (rnd : nat → nat) :
  population ≠ [] →
  ∃ xs, choices population k rnd = Ok xs ∧ length xs = k ∧ ∀ x, x ∈ xs → x ∈ population.
Proof.
  intros Hne. revert rnd. induction k as [|k IH]; intros rnd; cbn.
  - exists []. split; [done|]. split; [done|]. intros x Hx. by apply elem_of_nil in Hx.
  - assert (rnd 0%nat mod length population < length population)%nat as Hlt.
    { apply Nat.mod_upper_bound. by destruct population. }
    destruct (lookup_lt_is_Some_2 _ _ Hlt) as [x Hx]. rewrite Hx.
    destruct (IH (λ j, rnd (S j))) as (xs & -> & Hlen & Hin). cbn.
    exists (x :: xs). split; [done|]. split; [by rewrite <- Hlen|].
    intros y Hy. apply elem_of_cons in Hy as [->|Hy]; [|by auto].
    by eapply list_elem_of_lookup_2.
Qed.

(** Replaying pairs that the model knows never raises. *)
Lemma simulate_loop_Ok self agent (samp : list (St * Act)) :
  (∀ p, p ∈ samp → is_Some (model self !! p)) →
  ∃ agent', simulate_loop self agent samp = (agent', Ok tt).
Proof.
  revert agent. induction samp as [|[s a] samp IH]; intros agent Hin; cbn.
  - by eexists.
  - destruct (Hin (s, a)) as [[new_s r] Hsa]; [by left|].
    unfold step_sim. rewrite Hsa.
    destruct (Agent.get_action agent new_s) as [new_a agent1].
    apply IH. intros p Hp. apply Hin. by right.
Qed.

(** Only [update] writes the model, and [__call__] reaches it on a
    transition that is not terminal. *)
Lemma step_model self (e : event A St Act) :
  model (step self e) =
    match e with
    | Init _ _ => model self
    | Call _ c =>
        if tr_terminal c then model self
        else <[(tr_s c, tr_a c) := (tr_new_s c, tr_r c)]> (model self)
    end.
Proof.
  destruct e as [s a|agent c]; [done|].
  unfold step, call. cbn [self_update self_simulate self_algo self_set_algo Dyna_Methods].
  destruct (tr_terminal c); cbn [negb].
  - by destruct (algo_call _ _ _ _ _ _ _ _ _) as [[x ag] cmd].
  - unfold simulate.
    destruct (choices _ _ _) as [samp|]; [|done].
    destruct (simulate_loop _ _ _) as [agent' [[]|]]; [|done].
    by destruct (algo_call _ _ _ _ _ _ _ _ _) as [[x ag] cmd].
Qed.

Lemma run_model self events p :
  is_Some (model (run self events) !! p) ↔ is_Some (model self !! p) ∨ p ∈ observed events.
Proof.
  revert self. induction events as [|e events IH]; intros self.
  - cbn. rewrite elem_of_nil. tauto.
  - cbn [run fold_left]. fold (run (step self e) events). rewrite IH, step_model.
    destruct e as [s a|agent c]; cbn [observed]; [done|].
    destruct (tr_terminal c); [done|].
    rewrite elem_of_cons, lookup_insert_is_Some. 
    destruct (decide ((tr_s c, tr_a c) = p)) as [->|Hne]; [tauto|].
    split; [intros [[?|[_ ?]]|?]|intros [?|[?|?]]]; auto; by subst.
Qed.

Lemma DynaSpec_observed_app events events' :
  observed (events ++ events') = observed events ++ observed events'.
Proof.
  induction events as [|[s a|agent c] events IH]; cbn; [done|done|].
  destruct (tr_terminal c); cbn; by rewrite IH.
Qed.

(** When the next non-terminal transition arrives, the pairs drawn for
    replay are keys of the model, hence observed pairs, and the replay finds
    each of them in the model: it does not raise. *)
Lemma dyna_replay_known (x : X) (plan : NStepAlgo.obj A St Act) (k : nat)
    (rnd : nat → nat) events agent s a r new_s new_a t :
  let self := run (init x plan k rnd) events in
  let now := Call agent (mkTransition s a r new_s new_a t false) in
  let self' := update self agent s a new_s new_a r in
  (∀ p, is_Some (model self !! p) ↔ p ∈ observed events)
  ∧ ∃ samp, choices (keys self') (nsim self') (random self') = Ok samp
      ∧ (∀ p, p ∈ samp → is_Some (model self' !! p) ∧ p ∈ observed (events ++ [now])
                         ∧ ∃ agent0 agent1, step_sim self' agent0 p.1 p.2 = Ok agent1)
      ∧ (simulate self' agent).2 = Ok tt.
Proof.
  intros self now self'.
  assert (∀ p, is_Some (model self !! p) ↔ p ∈ observed events) as Hdom.
  { intros p. unfold self. rewrite run_model. cbn. rewrite lookup_empty.
    split; [intros [[? ?]|?]|]; by auto. }
  split; [done|].
  assert (∀ p, is_Some (model self' !! p) ↔ p ∈ observed (events ++ [now])) as Hdom'.
  { intros p.
    assert (model self' = model (run (init x plan k rnd) (events ++ [now]))) as ->.
    { unfold run. rewrite fold_left_app. cbn [fold_left]. by rewrite step_model. }
    rewrite run_model. cbn. rewrite lookup_empty.
    split; [intros [[? ?]|?]|]; by auto. }
  destruct (choices_Ok (keys self') (nsim self') (random self')) as (samp & Hsamp & _ & Hin).
  { intros Hnil. assert ((s, a) ∈ keys self') as Hsa.
    { apply elem_of_keys. cbn. rewrite lookup_insert_eq. by eexists. }
    rewrite Hnil in Hsa. by apply elem_of_nil in Hsa. }
  exists samp. split; [done|]. split.
  - intros p Hp. apply Hin, elem_of_keys in Hp. split; [done|]. split; [by apply Hdom'|].
    destruct Hp as [[ns r'] Hp]. exists agent. destruct p as [ps pa]. cbn.
    unfold step_sim. rewrite Hp. destruct (Agent.get_action agent ns). by eexists.
  - unfold simulate. rewrite Hsamp.
    destruct (simulate_loop_Ok (advance_random self' (nsim self')) agent samp) as [agent' ->];
      [|done].
    intros p Hp. by apply elem_of_keys, Hin.
Qed.
End DynaClaims.

(** ** [heapq] keeps the heap invariant and the entries *)

Ltac dlia := zify; Z.to_euclidean_division_equations; lia.

Lemma parent_lt i : (0 < i)%nat → (parent i < i)%nat.
Proof. unfold parent. intros. dlia. Qed.

Lemma parent_child c pos :
  (0 < c)%nat → parent c = pos ↔ c = (2 * pos + 1)%nat ∨ c = (2 * pos + 2)%nat.
Proof. unfold parent. intros. dlia. Qed.

Section ListSwap.
Context {E : Type}.
Implicit Types (l : list E).

Lemma insert_cons_perm l (j : nat) (x y : E) :
  (j < length l)%nat → y :: <[j := x]> l ≡ₚ x :: <[j := y]> l.
Proof.
  revert j. induction l as [|b l IH]; intros j Hj; cbn in Hj; [lia|].
  destruct j as [|j]; cbn.
  - apply perm_swap.
  - rewrite (perm_swap b y), (perm_swap b x). f_equiv. apply IH. lia.
Qed.

Lemma insert_swap_perm l (i j : nat) (x y : E) :
  i ≠ j → l !! i = Some x → (j < length l)%nat →
  <[i := y]> (<[j := x]> l) ≡ₚ <[j := y]> l.
Proof.
  revert i j. induction l as [|b l IH]; intros i j Hne Hi Hj; [done|].
  destruct i as [|i], j as [|j]; cbn in *; try done.
  - injection Hi as ->. apply insert_cons_perm. lia.
  - rewrite <- (list_insert_id l i x) at 2 by done.
    apply insert_cons_perm. by eapply lookup_lt_Some.
  - f_equiv. apply IH; [lia|done|lia].
Qed.
End ListSwap.

Section HeapFacts.
Context {E : Type} (lt : E → E → bool) `{!HeapOrder lt}.
Implicit Types (h : list E) (pos : nat).
Import Heapq.

Lemma lt_irrefl x : lt x x = false.
Proof. destruct (lt x x) eqn:Hx; [|done]. by rewrite (lt_asym _ _ Hx) in Hx. Qed.

Lemma up_fill h pos newitem :
  up_inv lt h pos newitem →
  (pos = 0%nat ∨ ∃ p, h !! parent pos = Some p ∧ lt newitem p = false) →
  heap_ok lt (<[pos := newitem]> h).
Proof.
  intros [Hb E1 I2 E3] Hstop i x p Hi Hx Hp.
  destruct (decide (i = pos)) as [->|Hne].
  - rewrite list_lookup_insert_eq in Hx by done. injection Hx as <-.
    pose proof (parent_lt pos Hi).
    rewrite list_lookup_insert_ne in Hp by lia.
    destruct Hstop as [->|(p' & Hp' & Hlt)]; [lia|]. congruence.
  - rewrite list_lookup_insert_ne in Hx by done.
    destruct (decide (parent i = pos)) as [Heq|Hne2].
    + rewrite Heq, list_lookup_insert_eq in Hp by done. injection Hp as <-. eauto.
    + rewrite list_lookup_insert_ne in Hp by done. eauto.
Qed.

Lemma up_step h pos newitem p :
  up_inv lt h pos newitem → (0 < pos)%nat → h !! parent pos = Some p → lt newitem p = true →
  up_inv lt (<[pos := p]> h) (parent pos) newitem.
Proof.
  intros [Hb E1 I2 E3] Hpos Hp Hlt.
  pose proof (parent_lt pos Hpos) as Hpp.
  pose proof (lt_asym _ _ Hlt) as Hle.
  split.
  - rewrite length_insert. lia.
  - intros i x p0 Hi Hne Hx Hp0.
    destruct (decide (i = pos)) as [->|Hne1].
    + rewrite list_lookup_insert_eq in Hx by done. injection Hx as <-.
      rewrite list_lookup_insert_ne in Hp0 by lia.
      replace p0 with p by congruence. apply lt_irrefl.
    + rewrite list_lookup_insert_ne in Hx by done.
      destruct (decide (parent i = pos)) as [Heq|Hne2].
      * rewrite Heq, list_lookup_insert_eq in Hp0 by done. injection Hp0 as <-. eauto.
      * rewrite list_lookup_insert_ne in Hp0 by done. eauto.
  - intros c x Hc Hpc Hx.
    destruct (decide (c = pos)) as [->|Hne1].
    + rewrite list_lookup_insert_eq in Hx by done. by injection Hx as <-.
    + rewrite list_lookup_insert_ne in Hx by done.
      apply (le_trans newitem p x); [done|].
      apply (E1 c x p); try done. by rewrite Hpc.
  - intros c x g Hc Hpc Hpp0 Hx Hg.
    pose proof (parent_lt _ Hpp0).
    rewrite list_lookup_insert_ne in Hg by lia.
    assert (lt p g = false) as Hgp by (apply (E1 (parent pos) p g); try done; lia).
    destruct (decide (c = pos)) as [->|Hne1].
    + rewrite list_lookup_insert_eq in Hx by done. by injection Hx as <-.
    + rewrite list_lookup_insert_ne in Hx by done.
      apply (le_trans g p x); [done|].
      apply (E1 c x p); try done. by rewrite Hpc.
Qed.

Lemma siftdown_loop_heap fuel h pos newitem :
  up_inv lt h pos newitem → (pos ≤ fuel)%nat →
  heap_ok lt (siftdown_loop lt fuel h 0 pos newitem).
Proof.
  revert h pos. induction fuel as [|fuel IH]; intros h pos Hinv Hfuel; cbn [siftdown_loop].
  - apply up_fill; [done|]. left. lia.
  - destruct (0 <? pos)%nat eqn:Hpos.
    + apply Nat.ltb_lt in Hpos. pose proof (parent_lt pos Hpos) as Hpp.
      fold (parent pos).
      destruct (lookup_lt_is_Some_2 h (parent pos)) as [p Hp].
      { pose proof (up_bound lt _ _ _ Hinv). lia. }
      rewrite Hp. destruct (lt newitem p) eqn:Hlt.
      * apply IH; [by apply up_step|lia].
      * apply up_fill; [done|]. right. eauto.
    + apply Nat.ltb_ge in Hpos. apply up_fill; [done|]. left. lia.
Qed.

Lemma siftdown_loop_perm fuel h pos newitem :
  (pos < length h)%nat →
  siftdown_loop lt fuel h 0 pos newitem ≡ₚ <[pos := newitem]> h.
Proof.
  revert h pos. induction fuel as [|fuel IH]; intros h pos Hb; cbn [siftdown_loop]; [done|].
  destruct (0 <? pos)%nat eqn:Hpos; [|done].
  apply Nat.ltb_lt in Hpos. pose proof (parent_lt pos Hpos) as Hpp. fold (parent pos).
  destruct (lookup_lt_is_Some_2 h (parent pos)) as [p Hp]; [lia|].
  rewrite Hp. destruct (lt newitem p); [|done].
  rewrite IH by (rewrite length_insert; lia).
  apply insert_swap_perm; [lia|done|done].
Qed.

Lemma heap_ok_app h x : heap_ok lt h → up_inv lt (h ++ [x]) (length h) x.
Proof.
  intros Hh. split.
  - rewrite length_app. cbn. lia.
  - intros i y p Hi Hne Hy Hp.
    assert (i < length h)%nat as Hlt.
    { apply lookup_lt_Some in Hy. rewrite length_app in Hy. cbn in Hy. lia. }
    pose proof (parent_lt i Hi).
    rewrite lookup_app_l in Hy, Hp by lia. eauto.
  - intros c y Hc Hpc Hy. apply lookup_lt_Some in Hy.
    rewrite length_app in Hy. cbn in Hy. apply parent_child in Hpc; [|done]. lia.
  - intros c y g Hc Hpc _ Hy _. apply lookup_lt_Some in Hy.
    rewrite length_app in Hy. cbn in Hy. apply parent_child in Hpc; [|done]. lia.
Qed.

Lemma heappush_unfold h x :
  heappush lt h x = siftdown_loop lt (length h) (h ++ [x]) 0 (length h) x.
Proof.
  unfold heappush, siftdown. rewrite length_app. cbn.
  replace (length h + 1 - 1)%nat with (length h) by lia.
  by rewrite lookup_app_r, Nat.sub_diag by lia.
Qed.

Lemma heappush_heap h x : heap_ok lt h → heap_ok lt (heappush lt h x).
Proof.
  intros Hh. rewrite heappush_unfold.
  apply siftdown_loop_heap; [by apply heap_ok_app|lia].
Qed.

Lemma heappush_perm h x : heappush lt h x ≡ₚ x :: h.
Proof.
  rewrite heappush_unfold, siftdown_loop_perm by (rewrite length_app; cbn; lia).
  rewrite insert_app_r_alt, Nat.sub_diag by lia. cbn.
  by rewrite Permutation_app_comm.
Qed.

Lemma down_step h pos (ci : nat) (c : E) :
  down_inv lt h pos → (0 < ci)%nat → parent ci = pos → h !! ci = Some c →
  (∀ s x, (0 < s)%nat → parent s = pos → s ≠ ci → h !! s = Some x → lt x c = false) →
  down_inv lt (<[pos := c]> h) ci.
Proof.
  intros [Hb K G] Hci Hpci Hc Hsib.
  pose proof (parent_lt ci Hci) as Hlt. rewrite Hpci in Hlt.
  split.
  - rewrite length_insert. by eapply lookup_lt_Some.
  - intros i x p Hi Hne Hnp Hx Hp.
    destruct (decide (i = pos)) as [->|Hne1].
    + rewrite list_lookup_insert_eq in Hx by done. injection Hx as <-.
      pose proof (parent_lt pos Hi).
      rewrite list_lookup_insert_ne in Hp by lia. eauto.
    + rewrite list_lookup_insert_ne in Hx by done.
      destruct (decide (parent i = pos)) as [Heq|Hne2].
      * rewrite Heq, list_lookup_insert_eq in Hp by done. injection Hp as <-. eauto.
      * rewrite list_lookup_insert_ne in Hp by done. eauto.
  - intros d x g _ Hd Hpd Hx Hg.
    pose proof (parent_lt d Hd) as Hdl. rewrite Hpd in Hdl.
    rewrite list_lookup_insert_ne in Hx by lia.
    rewrite Hpci, list_lookup_insert_eq in Hg by done. injection Hg as <-.
    apply (K d x c); try done; try lia. by rewrite Hpd.
Qed.

Lemma siftup_loop_spec fuel h pos :
  down_inv lt h pos → (length h - pos ≤ fuel)%nat →
  ∃ h' leaf, siftup_loop lt fuel h pos = (h', leaf) ∧ length h' = length h
             ∧ down_inv lt h' leaf ∧ (length h' ≤ 2 * leaf + 1)%nat.
Proof.
  revert h pos. induction fuel as [|fuel IH]; intros h pos Hinv Hfuel.
  { pose proof (down_bound lt _ _ Hinv). lia. }
  cbn [siftup_loop].
  destruct (2 * pos + 1 <? length h)%nat eqn:Hchild.
  2:{ apply Nat.ltb_ge in Hchild. by exists h, pos. }
  apply Nat.ltb_lt in Hchild.
  destruct (lookup_lt_is_Some_2 h (2 * pos + 1)) as [l Hl]; [done|].
  rewrite Hl.
  assert (∀ ci c, (ci = 2 * pos + 1 ∨ ci = 2 * pos + 2)%nat → h !! ci = Some c →
            (∀ s x, (0 < s)%nat → parent s = pos → s ≠ ci → h !! s = Some x → lt x c = false) →
            ∃ h' leaf, siftup_loop lt fuel (<[pos := c]> h) ci = (h', leaf)
                       ∧ length h' = length h ∧ down_inv lt h' leaf
                       ∧ (length h' ≤ 2 * leaf + 1)%nat) as Hgo.
  { intros ci c Hci Hc Hsib.
    destruct (IH (<[pos := c]> h) ci) as (h' & leaf & Heq & Hlen & Hinv' & Hleaf).
    - apply down_step; try done; [lia|]. apply parent_child; lia.
    - rewrite length_insert. lia.
    - exists h', leaf. by rewrite length_insert in Hlen. }
  destruct (h !! (2 * pos + 1 + 1)%nat) as [r|] eqn:Hr.
  - destruct (lt l r) eqn:Hlt; cbn [negb].
    + rewrite Hl. apply Hgo; [lia|done|].
      intros s x Hs Hps Hne Hx. apply parent_child in Hps; [|done].
      assert (s = 2 * pos + 1 + 1)%nat as -> by lia.
      replace x with r by congruence. by apply lt_asym.
    + rewrite Hr. apply Hgo; [lia|done|].
      intros s x Hs Hps Hne Hx. apply parent_child in Hps; [|done].
      assert (s = 2 * pos + 1)%nat as -> by lia.
      replace x with l by congruence. done.
  - rewrite Hl. apply Hgo; [lia|done|].
    intros s x Hs Hps Hne Hx. apply parent_child in Hps; [|done].
    assert (s = 2 * pos + 1 + 1)%nat as -> by lia. congruence.
Qed.

Lemma siftup_loop_perm fuel h pos h' leaf (n : E) :
  (pos < length h)%nat → siftup_loop lt fuel h pos = (h', leaf) →
  <[leaf := n]> h' ≡ₚ <[pos := n]> h.
Proof.
  revert h pos. induction fuel as [|fuel IH]; intros h pos Hb; cbn [siftup_loop].
  { by intros [= <- <-]. }
  destruct (2 * pos + 1 <? length h)%nat eqn:Hchild; [|by intros [= <- <-]].
  apply Nat.ltb_lt in Hchild.
  set (ci := match h !! (2 * pos + 1)%nat, h !! (2 * pos + 1 + 1)%nat with
             | Some l, Some r => if negb (lt l r) then (2 * pos + 1 + 1)%nat else (2 * pos + 1)%nat
             | _, _ => (2 * pos + 1)%nat
             end).
  assert (ci = 2 * pos + 1 ∨ ci = 2 * pos + 1 + 1)%nat as Hci.
  { unfold ci. repeat case_match; auto. }
  destruct (h !! ci) as [c|] eqn:Hc; [|by intros [= <- <-]].
  intros Heq.
  assert (ci < length (<[pos := c]> h))%nat as Hcb
    by (rewrite length_insert; by eapply lookup_lt_Some).
  rewrite (IH _ _ Hcb Heq).
  apply insert_swap_perm; [lia|done|done].
Qed.

Lemma siftdown_loop_S fuel h startpos pos newitem :
  siftdown_loop lt (S fuel) h startpos pos newitem =
    if (startpos <? pos)%nat then
      match h !! parent pos with
      | Some p =>
          if lt newitem p
          then siftdown_loop lt fuel (<[pos := p]> h) startpos (parent pos) newitem
          else <[pos := newitem]> h
      | None => h
      end
    else <[pos := newitem]> h.
Proof. reflexivity. Qed.

Lemma siftup_loop_S fuel h pos :
  siftup_loop lt (S fuel) h pos =
    if (2 * pos + 1 <? length h)%nat then
      let ci := match h !! (2 * pos + 1)%nat, h !! (2 * pos + 1 + 1)%nat with
                | Some l, Some r =>
                    if negb (lt l r) then (2 * pos + 1 + 1)%nat else (2 * pos + 1)%nat
                | _, _ => (2 * pos + 1)%nat
                end in
      match h !! ci with
      | Some c => siftup_loop lt fuel (<[pos := c]> h) ci
      | None => (h, pos)
      end
    else (h, pos).
Proof. reflexivity. Qed.

(** The loops are never cut short: once the fuel covers the distance the
    position can travel, more fuel changes nothing. *)
Lemma siftdown_loop_fuel fuel h startpos pos newitem :
  (pos ≤ fuel)%nat →
  siftdown_loop lt (S fuel) h startpos pos newitem
  = siftdown_loop lt fuel h startpos pos newitem.
Proof.
  revert h pos. induction fuel as [|fuel IH]; intros h pos Hfuel.
  - rewrite siftdown_loop_S. replace pos with 0%nat by lia.
    by destruct (startpos <? 0)%nat eqn:Hlt; [apply Nat.ltb_lt in Hlt; lia|].
  - rewrite (siftdown_loop_S (S fuel)), (siftdown_loop_S fuel).
    destruct (startpos <? pos)%nat eqn:Hpos; [|done].
    apply Nat.ltb_lt in Hpos.
    destruct (h !! parent pos) as [p|]; [|done].
    destruct (lt newitem p); [|done].
    apply IH. pose proof (parent_lt pos ltac:(lia)). lia.
Qed.

Lemma siftup_loop_fuel fuel h pos :
  (length h - pos ≤ fuel)%nat →
  siftup_loop lt (S fuel) h pos = siftup_loop lt fuel h pos.
Proof.
  revert h pos. induction fuel as [|fuel IH]; intros h pos Hfuel.
  - rewrite siftup_loop_S.
    by destruct (2 * pos + 1 <? length h)%nat eqn:Hlt; [apply Nat.ltb_lt in Hlt; lia|].
  - rewrite (siftup_loop_S (S fuel)), (siftup_loop_S fuel).
    destruct (2 * pos + 1 <? length h)%nat eqn:Hchild; [|done].
    cbn zeta.
    set (ci := match h !! (2 * pos + 1)%nat, h !! (2 * pos + 1 + 1)%nat with
               | Some l, Some r => if negb (lt l r) then (2 * pos + 1 + 1)%nat else (2 * pos + 1)%nat
               | _, _ => (2 * pos + 1)%nat
               end).
    assert (ci = 2 * pos + 1 ∨ ci = 2 * pos + 1 + 1)%nat as Hci.
    { unfold ci. repeat case_match; auto. }
    destruct (h !! ci) as [c|]; [|done].
    apply IH. rewrite length_insert. lia.
Qed.

Lemma heap_ok_nil : heap_ok lt [].
Proof. intros i x p _ Hx. done. Qed.


(** [heappop] on a heap that is not empty: it returns the root, and what is
    left is a heap of the other entries. *)
Lemma heappop_spec h :
  heap_ok lt h → h ≠ [] →
  ∃ x h', heappop lt h = Ok (x, h') ∧ h !! 0%nat = Some x ∧ h ≡ₚ x :: h' ∧ heap_ok lt h'.
Proof.
  intros Hh Hne. unfold heappop.
  destruct (last h) as [lastelt|] eqn:Hlast; [|by apply last_None in Hlast].
  apply last_Some in Hlast as [h0 ->]. rewrite removelast_last.
  destruct h0 as [|r tl].
  { exists lastelt, []. split; [done|]. split; [done|]. split; [done|apply heap_ok_nil]. }
  exists r. eexists. split; [done|]. split; [done|].
  cbn [insert list_insert]. unfold siftup. cbn [lookup list_lookup].
  assert (down_inv lt (lastelt :: tl) 0) as Hinv.
  { split; [cbn; lia| |lia].
    intros i x p Hi _ Hpi Hx Hp.
    assert (0 < parent i)%nat as Hpp by lia.
    assert (i < S (length tl))%nat as Hlen by (by apply lookup_lt_Some in Hx).
    pose proof (parent_lt i Hi).
    apply (Hh i x p Hi).
    - rewrite lookup_app_l by (cbn [length]; lia). by destruct i.
    - rewrite lookup_app_l by (cbn [length]; lia). by destruct (parent i). }
  destruct (siftup_loop_spec (length (lastelt :: tl)) (lastelt :: tl) 0 Hinv)
    as (h' & leaf & Heq & Hlen & Hinv' & Hleaf); [lia|].
  rewrite Heq.
  assert (leaf < length h')%nat as Hb by apply (down_bound lt _ _ Hinv').
  unfold siftdown. rewrite list_lookup_insert_eq by done.
  split.
  - rewrite siftdown_loop_perm by (by rewrite length_insert).
    rewrite list_insert_insert_eq.
    assert (0 < length (lastelt :: tl))%nat as Hpos0 by (cbn [length]; lia).
    rewrite (siftup_loop_perm _ _ _ _ _ lastelt Hpos0 Heq). cbn.
    by rewrite Permutation_app_comm.
  - apply siftdown_loop_heap; [|lia].
    destruct Hinv' as [_ K G]. split.
    + by rewrite length_insert.
    + intros i x p Hi Hil Hx Hp.
      rewrite list_lookup_insert_ne in Hx by done.
      assert (parent i ≠ leaf) as Hpl.
      { intros Hpl. apply parent_child in Hpl; [|done].
        apply lookup_lt_Some in Hx. lia. }
      rewrite list_lookup_insert_ne in Hp by done. eauto.
    + intros c x Hc Hpc Hx. apply lookup_lt_Some in Hx. rewrite length_insert in Hx.
      apply parent_child in Hpc; [|done]. lia.
    + intros c x g Hc Hpc _ Hx _. apply lookup_lt_Some in Hx. rewrite length_insert in Hx.
      apply parent_child in Hpc; [|done]. lia.
Qed.

Lemma heappop_nil : heappop lt [] = Raise.
Proof. done. Qed.
End HeapFacts.

(** ** PrioritizedSweep: queue, model and reverse model *)

#[global] Instance tuple_lt_order : HeapOrder tuple_lt.
Proof.
  split.
  - intros [x1 x2] [y1 y2]. unfold tuple_lt. cbn.
    repeat case_decide; lia.
  - intros [x1 x2] [y1 y2] [z1 z2]. unfold tuple_lt. cbn.
    repeat case_decide; lia.
Qed.

Section PSFacts.
Context {A : Type} `{!Agent.t A Z Z}.
Context {X : Type} `{!Algo A Z Z X}.
Import PrioritizedSweep PrioritizedSweepSpec.
Implicit Types (self : obj A X) (agent : A) (p : Z * Z) (m : gmap Z (gset (Z * Z))).

Lemma rev_mem_add m ns sa ns' p :
  rev_mem (rev_add m ns sa) ns' p ↔ rev_mem m ns' p ∨ (ns' = ns ∧ p = sa).
Proof.
  unfold rev_mem, rev_add.
  destruct (m !! ns) as [preds0|] eqn:Hns.
  - destruct (decide (ns' = ns)) as [->|Hne].
    + rewrite lookup_insert_eq. split.
      * intros (preds & [= <-] & Hp). apply elem_of_union in Hp as [Hp|Hp].
        -- left. eauto.
        -- right. apply elem_of_singleton in Hp. done.
      * intros [(preds & Hl & Hp)|[_ ->]]; eexists; (split; [done|]).
        -- apply elem_of_union. left. congruence.
        -- apply elem_of_union. right. by apply elem_of_singleton.
    + rewrite lookup_insert_ne by done. split; [by left|]. intros [?|[? _]]; done.
  - destruct (decide (ns' = ns)) as [->|Hne].
    + rewrite lookup_insert_eq, Hns. split.
      * intros (preds & [= <-] & Hp). right. apply elem_of_singleton in Hp. done.
      * intros [(preds & Hl & Hp)|[_ ->]]; [done|].
        eexists. split; [done|]. by apply elem_of_singleton.
    + rewrite lookup_insert_ne by done. split; [by left|]. intros [?|[? _]]; done.
Qed.

Lemma rev_remove_Ok m old sa :
  rev_mem m old sa →
  ∃ m', rev_remove m old sa = Ok m'
        ∧ ∀ ns' p, rev_mem m' ns' p ↔ rev_mem m ns' p ∧ ¬ (ns' = old ∧ p = sa).
Proof.
  intros (preds0 & Hold & Hin). unfold rev_remove. rewrite Hold.
  rewrite decide_True by done. eexists. split; [done|].
  intros ns' p. unfold rev_mem.
  destruct (decide (ns' = old)) as [->|Hne].
  - rewrite lookup_insert_eq, Hold. split.
    + intros (preds & [= <-] & Hp). apply elem_of_difference in Hp as [Hp Hnp].
      split; [eauto|]. intros [_ ->]. apply Hnp. by apply elem_of_singleton.
    + intros [(preds & [= <-] & Hp) Hnot]. eexists. split; [done|].
      apply elem_of_difference. split; [done|].
      intros Hs. apply elem_of_singleton in Hs. auto.
  - rewrite lookup_insert_ne by done. split; [|by intros [? _]].
    intros Hm. split; [done|]. by intros [? _].
Qed.

Lemma update_pq_fields self agent s a ns na r :
  let self' := update_pq self agent s a ns na r in
  dyna self' = dyna self ∧ theta self' = theta self ∧ rev_model self' = rev_model self.
Proof. cbn zeta. unfold update_pq. by destruct (exceeds _ _ _ _ _ _ _). Qed.

(** [update_pq] pushes the pair exactly when its residual exceeds [theta],
    whether or not the queue holds it already. *)
Lemma update_pq_pq self agent s a ns na r :
  pq (update_pq self agent s a ns na r)
  ≡ₚ (if exceeds self agent s a ns na r then [(s, a)] else []) ++ pq self.
Proof.
  unfold update_pq. destruct (exceeds _ _ _ _ _ _ _); [|done].
  cbn [pq set_pq]. apply heappush_perm.
Qed.

Lemma update_pq_heap self agent s a ns na r :
  heap_ok tuple_lt (pq self) → heap_ok tuple_lt (pq (update_pq self agent s a ns na r)).
Proof.
  intros Hh. unfold update_pq. destruct (exceeds _ _ _ _ _ _ _); [|done].
  cbn [pq set_pq]. exact (heappush_heap _ _ _ Hh).
Qed.

Lemma pred_exceeds_ext self1 self2 agent s a p :
  dyna self1 = dyna self2 → theta self1 = theta self2 →
  pred_exceeds self1 agent s a p = pred_exceeds self2 agent s a p.
Proof.
  intros Hd Ht. unfold pred_exceeds, exceeds, residual. by rewrite Hd, Ht.
Qed.

(** The loop over the predecessors of a replayed pair. *)
Lemma sweep_spec self agent s a (preds : list (Z * Z)) :
  (∀ p, p ∈ preds → is_Some (Dyna.model (dyna self) !! p)) →
  ∃ self', sweep self agent s a preds = (self', Ok tt)
    ∧ dyna self' = dyna self ∧ theta self' = theta self ∧ rev_model self' = rev_model self
    ∧ pq self' ≡ₚ filter (λ p, pred_exceeds self agent s a p = true) preds ++ pq self
    ∧ (heap_ok tuple_lt (pq self) → heap_ok tuple_lt (pq self')).
Proof.
  revert self. induction preds as [|[ps pa] preds IH]; intros self Hknown.
  { exists self. by rewrite filter_nil. }
  cbn [sweep].
  destruct (Hknown (ps, pa)) as [[ns0 r] Hp]; [by left|]. rewrite Hp.
  destruct (update_pq_fields self agent ps pa s a r) as (Hd & Ht & Hr).
  destruct (IH (update_pq self agent ps pa s a r)) as (self' & Heq & Hd' & Ht' & Hr' & Hpq & Hh).
  { intros p Hin. rewrite Hd. apply Hknown. by right. }
  exists self'. split; [done|].
  split; [congruence|]. split; [congruence|]. split; [congruence|]. split.
  - rewrite Hpq, update_pq_pq.
    rewrite (list_filter_iff _ (λ p, pred_exceeds self agent s a p = true) preds)
      by (intros p; by rewrite (pred_exceeds_ext _ self agent s a p Hd Ht)).
    rewrite filter_cons.
    assert (pred_exceeds self agent s a (ps, pa) = exceeds self agent ps pa s a r) as Hpe
      by (unfold pred_exceeds; by rewrite Hp).
    rewrite Hpe. destruct (exceeds self agent ps pa s a r).
    + rewrite decide_True by done. cbn. by rewrite Permutation_middle.
    + rewrite decide_False by done. done.
  - intros Hheap. exact (Hh (update_pq_heap _ _ _ _ _ _ _ Hheap)).
Qed.

Lemma consistent_ext self1 self2 :
  Dyna.model (dyna self1) = Dyna.model (dyna self2) → pq self1 = pq self2 →
  rev_model self1 = rev_model self2 → consistent self1 → consistent self2.
Proof.
  intros Hm Hq Hr [H1 H2 H3]. split.
  - by rewrite <- Hq.
  - intros p. rewrite <- Hq, <- Hm. apply H2.
  - intros ns p. rewrite <- Hr, <- Hm. apply H3.
Qed.

Lemma consistent_init (x : X) (plan : NStepAlgo.obj A Z Z) k th rnd :
  consistent (init x plan k th rnd).
Proof.
  split; cbn.
  - apply heap_ok_nil.
  - intros p Hp. by apply elem_of_nil in Hp.
  - intros ns p. unfold rev_mem. rewrite lookup_empty. split.
    + by intros (preds & ? & _).
    + intros [r Hr]. by rewrite lookup_empty in Hr.
Qed.

(** [update] on a consistent object: the removal of the stale predecessor
    entry finds it, the pair is pushed exactly when its residual exceeds
    [theta], and the model records the transition. *)
Lemma update_spec self agent s a ns na r :
  consistent self →
  ∃ self', update self agent s a ns na r = Ok self' ∧ consistent self'
    ∧ pq self' ≡ₚ (if exceeds self agent s a ns na r then [(s, a)] else []) ++ pq self
    ∧ Dyna.model (dyna self') = <[(s, a) := (ns, r)]> (Dyna.model (dyna self))
    ∧ theta self' = theta self ∧ Dyna.nsim (dyna self') = Dyna.nsim (dyna self).
Proof.
  intros [Hheap Hknown Hrev]. unfold update.
  assert (∃ m1, match Dyna.model (dyna self) !! (s, a) with
                | Some (old_new_s, _) => rev_remove (rev_model self) old_new_s (s, a)
                | None => Ok (rev_model self)
                end = Ok m1
          ∧ ∀ ns' p, rev_mem m1 ns' p ↔ rev_mem (rev_model self) ns' p ∧ p ≠ (s, a))
    as (m1 & -> & Hm1).
  { destruct (Dyna.model (dyna self) !! (s, a)) as [[old r0]|] eqn:Hsa.
    - destruct (rev_remove_Ok (rev_model self) old (s, a)) as (m1 & Hrm & Hm1).
      { apply Hrev. eauto. }
      exists m1. split; [done|]. intros ns' p. rewrite Hm1. split.
      + intros [Hmem Hnot]. split; [done|]. intros ->.
        apply Hrev in Hmem as [r1 Hr1]. apply Hnot. split; [congruence|done].
      + intros [Hmem Hne]. split; [done|]. by intros [_ ?].
    - exists (rev_model self). split; [done|]. intros ns' p. split; [|by intros [? _]].
      intros Hmem. split; [done|]. intros ->. apply Hrev in Hmem as [r1 Hr1]. congruence. }
  set (self1 := set_rev_model self (rev_add m1 ns (s, a))).
  destruct (update_pq_fields self1 agent s a ns na r) as (Hd & Ht & Hr).
  eexists. split; [done|].
  assert (pq (update_pq self1 agent s a ns na r)
          ≡ₚ (if exceeds self agent s a ns na r then [(s, a)] else []) ++ pq self) as Hpq
    by apply (update_pq_pq self1).
  split; [|by rewrite Hd].
  split; cbn [pq dyna rev_model set_dyna].
  - exact (update_pq_heap self1 _ _ _ _ _ _ Hheap).
  - intros p Hp. rewrite Hpq in Hp. rewrite Hd. cbn.
    apply lookup_insert_is_Some.
    destruct (decide ((s, a) = p)) as [|Hne]; [by left|right]. split; [done|].
    apply Hknown. apply elem_of_app in Hp as [Hp|Hp]; [|done].
    destruct (exceeds _ _ _ _ _ _ _); [|by apply elem_of_nil in Hp].
    apply list_elem_of_singleton in Hp. congruence.
  - intros ns' p. rewrite Hr, Hd. cbn. rewrite rev_mem_add, Hm1, Hrev.
    destruct (decide ((s, a) = p)) as [<-|Hne].
    + rewrite lookup_insert_eq. split.
      * intros [[_ ?]|[-> _]]; [done|eauto].
      * intros [r' [= -> ->]]. by right.
    + rewrite lookup_insert_ne by done. split.
      * by intros [[? _]|[_ ->]].
      * intros ?. left. split; [done|congruence].
Qed.

Lemma elem_of_preds_of self s p : p ∈ preds_of self s ↔ rev_mem (rev_model self) s p.
Proof.
  unfold preds_of, rev_mem. destruct (rev_model self !! s) as [preds|].
  - rewrite elem_of_elements. split; [eauto|]. by intros (? & [= <-] & ?).
  - rewrite elem_of_nil. split; [done|]. by intros (? & ? & _).
Qed.

(** One round of the loop of [simulate] on a consistent object whose queue
    is not empty. *)
Lemma simulate_round self agent :
  consistent self → pq self ≠ [] →
  ∃ s a rest agent' self',
    Heapq.heappop tuple_lt (pq self) = Ok ((s, a), rest)
    ∧ pq self !! 0%nat = Some (s, a) ∧ pq self ≡ₚ (s, a) :: rest
    ∧ Dyna.step_sim (dyna self) agent s a = Ok agent'
    ∧ sweep (set_pq self rest) agent' s a (preds_of self s) = (self', Ok tt)
    ∧ pq self' ≡ₚ filter (λ p, pred_exceeds self agent' s a p = true) (preds_of self s) ++ rest
    ∧ dyna self' = dyna self ∧ theta self' = theta self ∧ rev_model self' = rev_model self
    ∧ consistent self'
    ∧ ∀ n, simulate_loop (S n) self agent = simulate_loop n self' agent'.
Proof.
  intros Hc Hne. destruct Hc as [Hheap Hknown Hrev].
  destruct (heappop_spec tuple_lt (pq self) Hheap Hne) as ([s a] & rest & Hpop & Hroot & Hperm & Hh').
  destruct (Hknown (s, a)) as [[ns r] Hsa]; [by eapply list_elem_of_lookup_2|].
  destruct (Agent.get_action agent ns) as [na agent1] eqn:Hact.
  destruct (sweep_spec (set_pq self rest) (Agent.update agent1
              (Dyna.plan_return (dyna self) agent1 ns na r) s a) s a (preds_of self s))
    as (self' & Hsweep & Hd & Ht & Hr & Hpq & Hhs).
  { intros p Hp. apply elem_of_preds_of, Hrev in Hp as [r' Hr']. cbn. by eexists. }
  exists s, a, rest. eexists. exists self'.
  split; [done|]. split; [done|]. split; [done|]. split.
  { unfold Dyna.step_sim. rewrite Hsa, Hact. done. }
  split; [done|]. split.
  { exact Hpq. }
  split; [done|]. split; [done|]. split; [done|]. split.
  { split.
    - by apply Hhs.
    - intros p Hp. rewrite Hd. cbn. rewrite Hpq in Hp.
      apply elem_of_app in Hp as [Hp|Hp].
      + apply list_elem_of_filter in Hp as [_ Hp].
        apply elem_of_preds_of, Hrev in Hp as [r' Hr']. by eexists.
      + apply Hknown. rewrite Hperm. by right.
    - intros ns' p. rewrite Hr, Hd. apply Hrev. }
  intros n. cbn [simulate_loop].
  destruct (pq self) as [|p0 tl] eqn:Hq; [done|]. rewrite Hpop.
  unfold Dyna.step_sim. cbn [dyna set_pq]. rewrite Hsa, Hact.
  change (rev_model (set_pq self rest)) with (rev_model self).
  unfold preds_of in Hsweep.
  destruct (rev_model self !! s) as [preds|].
  - by rewrite Hsweep.
  - cbn in Hsweep. by injection Hsweep as <-.
Qed.

(** [simulate] on a consistent object never raises; it leaves a consistent
    object and the model as it was. *)
Lemma simulate_loop_spec n self agent :
  consistent self →
  ∃ self' agent', simulate_loop n self agent = (self', agent', Ok tt)
    ∧ consistent self' ∧ dyna self' = dyna self ∧ theta self' = theta self
    ∧ rev_model self' = rev_model self.
Proof.
  revert self agent. induction n as [|n IH]; intros self agent Hc.
  { by exists self, agent. }
  destruct (decide (pq self = [])) as [Hnil|Hne].
  { exists self, agent. cbn [simulate_loop]. by rewrite Hnil. }
  destruct (simulate_round self agent Hc Hne)
    as (s & a & rest & agent1 & self1 & _ & _ & _ & _ & _ & _ & Hd & Ht & Hr & Hc1 & Hloop).
  rewrite Hloop.
  destruct (IH self1 agent1 Hc1) as (self' & agent' & Heq & Hc' & Hd' & Ht' & Hr').
  exists self', agent'. split; [done|]. split; [done|]. by rewrite Hd', Ht', Hr'.
Qed.

(** A call keeps a consistent object consistent, and the planning part of it
    does not raise: the outcome is the inner rule's. *)
Lemma call_consistent self agent s a r ns na t term :
  consistent self → consistent (call self agent s a r ns na t term).1.1.
Proof.
  intros Hc. unfold call, Dyna.call.
  cbn [Dyna.self_update Dyna.self_simulate Dyna.self_algo Dyna.self_set_algo
       PrioritizedSweep_Methods].
  destruct term; cbn [negb].
  - destruct (algo_call _ _ _ _ _ _ _ _ _) as [[x ag] cmd]. cbn.
    by apply (consistent_ext self).
  - destruct (update_spec self agent s a ns na r Hc) as (self1 & -> & Hc1 & _).
    unfold simulate.
    destruct (simulate_loop_spec (Dyna.nsim (dyna self1)) self1 agent Hc1)
      as (self2 & agent2 & -> & Hc2 & _).
    destruct (algo_call _ _ _ _ _ _ _ _ _) as [[x ag] cmd]. cbn.
    by apply (consistent_ext self2).
Qed.

Lemma run_consistent self events : consistent self → consistent (run self events).
Proof.
  revert self. induction events as [|e events IH]; intros self Hc; [done|].
  cbn [run fold_left]. apply IH. destruct e as [s a|agent c]; cbn [step].
  - by apply (consistent_ext self).
  - by apply call_consistent.
Qed.

Lemma step_consistent self (e : DynaSpec.event A Z Z) :
  consistent self → consistent (step self e).
Proof.
  intros Hc. destruct e as [s a|agent c]; cbn [step].
  - by apply (consistent_ext self).
  - by apply call_consistent.
Qed.

(** Only [update] writes the model, on a transition that is not terminal. *)
Lemma sweep_step_model self (e : DynaSpec.event A Z Z) :
  consistent self →
  Dyna.model (dyna (step self e)) =
    match e with
    | DynaSpec.Init _ _ => Dyna.model (dyna self)
    | DynaSpec.Call _ c =>
        if tr_terminal c then Dyna.model (dyna self)
        else <[(tr_s c, tr_a c) := (tr_new_s c, tr_r c)]> (Dyna.model (dyna self))
    end.
Proof.
  intros Hc. destruct e as [s a|agent c]; [done|].
  unfold step, call, Dyna.call.
  cbn [Dyna.self_update Dyna.self_simulate Dyna.self_algo Dyna.self_set_algo
       PrioritizedSweep_Methods].
  destruct (tr_terminal c); cbn [negb].
  - by destruct (algo_call _ _ _ _ _ _ _ _ _) as [[x ag] cmd].
  - destruct (update_spec self agent (tr_s c) (tr_a c) (tr_new_s c) (tr_new_a c) (tr_r c) Hc)
      as (self1 & -> & Hc1 & _ & Hm & _).
    unfold simulate.
    destruct (simulate_loop_spec (Dyna.nsim (dyna self1)) self1 agent Hc1)
      as (self2 & agent2 & -> & _ & Hd & _).
    destruct (algo_call _ _ _ _ _ _ _ _ _) as [[x ag] cmd]. cbn. by rewrite Hd.
Qed.

Lemma sweep_run_model self (events : list (DynaSpec.event A Z Z)) p :
  consistent self →
  is_Some (Dyna.model (dyna (run self events)) !! p)
  ↔ is_Some (Dyna.model (dyna self) !! p) ∨ p ∈ DynaSpec.observed events.
Proof.
  revert self. induction events as [|e events IH]; intros self Hc.
  - cbn. rewrite elem_of_nil. tauto.
  - cbn [run fold_left]. fold (run (step self e) events).
    rewrite IH by by apply step_consistent. rewrite sweep_step_model by done.
    destruct e as [s a|agent c]; cbn [DynaSpec.observed]; [done|].
    destruct (tr_terminal c); [done|].
    rewrite elem_of_cons, lookup_insert_is_Some.
    destruct (decide ((tr_s c, tr_a c) = p)) as [->|Hne]; [tauto|].
    split; [intros [[?|[_ ?]]|?]|intros [?|[?|?]]]; auto; by subst.
Qed.
End PSFacts.

(** ** PrioritizedSweep: what is enqueued, and what is popped *)

(** C7.  A pair goes on the queue only through [update_pq], which pushes it
    exactly when the magnitude of the difference between the planning
    return [plan_algo.terminalReturn(new_s, new_a, r)] and the agent's
    [Q(s, a)] is strictly above [theta], whatever the queue holds, the empty
    queue included: so for the pair of a real transition; and in one round
    of [simulate] on a consistent object, after the least pair [(ps, pa)] is
    popped and replayed, the queue holds what was left of it together with
    exactly those predecessors recorded for [ps] whose residual, recomputed
    with their modeled reward and the agent as the replay left it, exceeds
    [theta]. *)
Theorem sweep_enqueue_rule {A X : Type} `{!Agent.t A Z Z} `{!Algo A Z Z X}
    (self : PrioritizedSweep.obj A X) (agent : A) (s a new_s new_a : Z) (r : float) :
  let above (agent0 : A) (s0 a0 ns0 na0 : Z) (r0 : float) : bool :=
    PrioritizedSweepSpec.above_theta
      (PrioritizedSweep.theta self) (Dyna.plan_algo (PrioritizedSweep.dyna self))
      agent0 s0 a0 ns0 na0 r0 in
  let queued := PrioritizedSweepSpec.enqueued self agent s a new_s new_a r in
  PrioritizedSweep.update_pq self agent s a new_s new_a r
  = (if above agent s a new_s new_a r
     then PrioritizedSweep.set_pq self
            (Heapq.heappush tuple_lt (PrioritizedSweep.pq self) (s, a))
     else self)
  ∧ PrioritizedSweep.pq (PrioritizedSweep.update_pq self agent s a new_s new_a r)
    ≡ₚ queued ++ PrioritizedSweep.pq self
  ∧ (PrioritizedSweepSpec.consistent self →
     ∃ self1, PrioritizedSweep.update self agent s a new_s new_a r = Ok self1
       ∧ PrioritizedSweep.pq self1 ≡ₚ queued ++ PrioritizedSweep.pq self)
  ∧ (PrioritizedSweepSpec.consistent self → PrioritizedSweep.pq self ≠ [] →
     ∃ ps pa rest agent' self',
       Heapq.heappop tuple_lt (PrioritizedSweep.pq self) = Ok ((ps, pa), rest)
       ∧ Dyna.step_sim (PrioritizedSweep.dyna self) agent ps pa = Ok agent'
       ∧ (∀ n, PrioritizedSweep.simulate_loop (S n) self agent
               = PrioritizedSweep.simulate_loop n self' agent')
       ∧ PrioritizedSweep.pq self'
           ≡ₚ PrioritizedSweepSpec.requeued self agent' ps pa
                (PrioritizedSweepSpec.preds_of self ps) ++ rest
       ∧ (∀ p, p ∈ PrioritizedSweepSpec.preds_of self ps →
            ∃ r', Dyna.model (PrioritizedSweep.dyna self) !! p = Some (ps, r')
              ∧ (p ∈ PrioritizedSweepSpec.requeued self agent' ps pa
                       (PrioritizedSweepSpec.preds_of self ps)
                 ↔ above agent' p.1 p.2 ps pa r' = true))).
Proof.
  intros above queued.
  assert (∀ agent0 s0 a0 ns0 na0 r0,
            PrioritizedSweep.exceeds self agent0 s0 a0 ns0 na0 r0
            = above agent0 s0 a0 ns0 na0 r0) as Hex by reflexivity.
  split; [|split; [|split]].
  - unfold PrioritizedSweep.update_pq. by rewrite Hex.
  - unfold queued, PrioritizedSweepSpec.enqueued. fold (above agent s a new_s new_a r).
    rewrite <- Hex. apply update_pq_pq.
  - intros Hc.
    destruct (update_spec self agent s a new_s new_a r Hc) as (self1 & Hup & _ & Hpq & _).
    exists self1. split; [done|].
    unfold queued, PrioritizedSweepSpec.enqueued. fold (above agent s a new_s new_a r).
    by rewrite <- Hex.
  - intros Hc Hne.
    destruct (simulate_round self agent Hc Hne)
      as (ps & pa & rest & agent' & self' & Hpop & _ & _ & Hsim & _ & Hpq & _ & _ & _ & _ & Hloop).
    exists ps, pa, rest, agent', self'.
    split; [done|]. split; [done|]. split; [done|]. split; [exact Hpq|].
    intros p Hp. pose proof Hp as Hin. apply elem_of_preds_of in Hp.
    apply (PrioritizedSweepSpec.rev_model_model _ Hc) in Hp as [r' Hr'].
    exists r'. split; [done|].
    unfold PrioritizedSweepSpec.requeued. rewrite list_elem_of_filter, Hr'.
    unfold above. tauto.
Qed.

Lemma sweep_enqueue_rule_witness :
  (∃ self1,
     PrioritizedSweep.update (Scenario.sweep_init 2) Scenario.zero_agent 0 0 1 0 1%float
     = Ok self1
     ∧ PrioritizedSweep.pq self1 ≡ₚ [(0, 0)])
  ∧ (∃ self1,
       PrioritizedSweep.update (Scenario.sweep_init 2) Scenario.zero_agent 0 0 1 0 0.01%float
       = Ok self1
       ∧ PrioritizedSweep.pq self1 ≡ₚ []).
Proof.
  split.
  - destruct (proj1 (proj2 (proj2 (sweep_enqueue_rule
                (Scenario.sweep_init 2) Scenario.zero_agent 0 0 1 0 1%float)))
                (consistent_init _ _ _ _ _)) as (self1 & Hup & Hperm).
    exists self1. split; [exact Hup|exact Hperm].
  - destruct (proj1 (proj2 (proj2 (sweep_enqueue_rule
                (Scenario.sweep_init 2) Scenario.zero_agent 0 0 1 0 0.01%float)))
                (consistent_init _ _ _ _ _)) as (self1 & Hup & Hperm).
    exists self1. split; [exact Hup|exact Hperm].
Defined.



(** C10.  [update_pq] pushes without looking whether the pair is queued: a
    push makes the queue one entry longer, also for a pair already in it.
    With an action that leaves state 0 where it is and [nsim = 2]: after the
    first transition the queue holds (0, 0); the second real transition
    pushes it again, so the queue holds it twice; and the one call of
    [simulate] that follows replays (0, 0) twice. *)
Theorem no_deduplication {A X : Type} `{!Agent.t A Z Z} `{!Algo A Z Z X} :
  (∀ (self : PrioritizedSweep.obj A X) (agent : A) s a new_s new_a r,
     PrioritizedSweep.exceeds self agent s a new_s new_a r = true →
     PrioritizedSweep.pq (PrioritizedSweep.update_pq self agent s a new_s new_a r)
       ≡ₚ (s, a) :: PrioritizedSweep.pq self)
  ∧ (let self := Scenario.stayed.1 in
     let agent := Scenario.stayed.2 in
     self = PrioritizedSweepSpec.run (Scenario.sweep_init 2)
              [DynaSpec.Init 0 0; DynaSpec.Call Scenario.zero_agent (Scenario.stay 0)]
     ∧ PrioritizedSweep.pq self = [(0, 0)]
     ∧ ∃ self1 out,
         PrioritizedSweep.update self agent 0 0 0 0 1%float = Ok self1
         ∧ PrioritizedSweep.pq self1 = [(0, 0); (0, 0)]
         ∧ PrioritizedSweep.simulate self1 agent = out
         ∧ out.2 = Ok tt
         ∧ ∃ ret1 ret2,
             TableAgent.updates out.1.2
             = (ret2, 0, 0) :: (ret1, 0, 0) :: TableAgent.updates agent).
Proof.
  split.
  - intros self agent s a new_s new_a r Hex.
    rewrite update_pq_pq, Hex. done.
  - cbn zeta. split; [reflexivity|]. split; [by vm_compute|].
    destruct (PrioritizedSweep.update Scenario.stayed.1 Scenario.stayed.2 0 0 0 0 1%float)
      as [self1|] eqn:Hup; [|by vm_compute in Hup].
    exists self1, (PrioritizedSweep.simulate self1 Scenario.stayed.2).
    split; [done|].
    assert (Ok self1 = PrioritizedSweep.update Scenario.stayed.1 Scenario.stayed.2 0 0 0 0 1%float)
      as Hself by done.
    clear Hup.
    assert (∀ (f : Scenario.sweeper → Prop),
              match PrioritizedSweep.update Scenario.stayed.1 Scenario.stayed.2 0 0 0 0 1%float with
              | Ok o => f o | Raise => True end → f self1) as Hvia.
    { intros f Hf. by rewrite <- Hself in Hf. }
    split; [|split; [done|split]].
    + apply (Hvia (λ o, PrioritizedSweep.pq o = [(0, 0); (0, 0)])). by vm_compute.
    + apply (Hvia (λ o, (PrioritizedSweep.simulate o Scenario.stayed.2).2 = Ok tt)).
      by vm_compute.
    + apply (Hvia (λ o, ∃ ret1 ret2,
               TableAgent.updates (PrioritizedSweep.simulate o Scenario.stayed.2).1.2
               = (ret2, 0, 0) :: (ret1, 0, 0) :: TableAgent.updates Scenario.stayed.2)).
      vm_compute. by do 2 eexists.
Qed.

(** ** What is replayed was observed *)

(** C6.  Over the whole life of a [Dyna] object, started with an empty
    model: the keys of the model are exactly the pairs observed in real
    non-terminal transitions; and when the next such transition arrives, the
    pairs drawn for replay are keys of the model, hence observed pairs, and
    the replay finds each of them in the model: the lookup in [step_sim] does
    not raise.  The same holds for the subclass [PrioritizedSweep], which
    replays the pairs it pops: its queue only ever holds keys of the model,
    and its [simulate] does not raise. *)
Theorem simulated_pairs_observed {A St Act X : Type} `{!Agent.t A St Act}
    `{!EqDecision St, !Countable St, !EqDecision Act, !Countable Act} `{!Algo A St Act X}
    {A' X' : Type} `{!Agent.t A' Z Z} `{!Algo A' Z Z X'}
    (x : X) (plan : NStepAlgo.obj A St Act) (k : nat) (rnd : nat → nat)
    (events : list (DynaSpec.event A St Act)) (agent : A)
    (s : St) (a : Act) (r : float) (new_s : St) (new_a : Act) (t : Z)
    (x' : X') (plan' : NStepAlgo.obj A' Z Z) (k' : nat) (th : float) (rnd' : nat → nat)
    (events' : list (DynaSpec.event A' Z Z)) (agent' : A')
    (s' a' : Z) (r' : float) (new_s' new_a' t' : Z) :
  (let self := DynaSpec.run (Dyna.init x plan k rnd) events in
   let now := DynaSpec.Call agent (mkTransition s a r new_s new_a t false) in
   let self1 := Dyna.update self agent s a new_s new_a r in
   (∀ p, is_Some (Dyna.model self !! p) ↔ p ∈ DynaSpec.observed events)
   ∧ ∃ samp, Dyna.choices (Dyna.keys self1) (Dyna.nsim self1) (Dyna.random self1) = Ok samp
       ∧ (∀ p, p ∈ samp →
            is_Some (Dyna.model self1 !! p) ∧ p ∈ DynaSpec.observed (events ++ [now])
            ∧ ∃ agent0 agent1, Dyna.step_sim self1 agent0 p.1 p.2 = Ok agent1)
       ∧ (Dyna.simulate self1 agent).2 = Ok tt)
  ∧ (let self := PrioritizedSweepSpec.run (PrioritizedSweep.init x' plan' k' th rnd') events' in
     let now := DynaSpec.Call agent' (mkTransition s' a' r' new_s' new_a' t' false) in
     (∀ p, is_Some (Dyna.model (PrioritizedSweep.dyna self) !! p)
           ↔ p ∈ DynaSpec.observed events')
     ∧ (∀ p, p ∈ PrioritizedSweep.pq self → p ∈ DynaSpec.observed events')
     ∧ ∃ self1, PrioritizedSweep.update self agent' s' a' new_s' new_a' r' = Ok self1
         ∧ (∀ p, p ∈ PrioritizedSweep.pq self1 →
              is_Some (Dyna.model (PrioritizedSweep.dyna self1) !! p)
              ∧ p ∈ DynaSpec.observed (events' ++ [now]))
         ∧ (∀ n agent0, ∃ self2 agent2,
              PrioritizedSweep.simulate_loop n self1 agent0 = (self2, agent2, Ok tt)
              ∧ ∀ p, p ∈ PrioritizedSweep.pq self2 →
                     is_Some (Dyna.model (PrioritizedSweep.dyna self1) !! p))
         ∧ (PrioritizedSweep.simulate self1 agent').2 = Ok tt).
Proof.
  split; [apply dyna_replay_known|].
  cbn zeta.
  set (self := PrioritizedSweepSpec.run (PrioritizedSweep.init x' plan' k' th rnd') events').
  assert (PrioritizedSweepSpec.consistent self) as Hc
    by apply run_consistent, consistent_init.
  assert (∀ p, is_Some (Dyna.model (PrioritizedSweep.dyna self) !! p)
               ↔ p ∈ DynaSpec.observed events') as Hdom.
  { intros p. unfold self. rewrite sweep_run_model by apply consistent_init.
    cbn. rewrite lookup_empty. split; [intros [[? ?]|?]|]; by auto. }
  split; [done|]. split.
  { intros p Hp. by apply Hdom, (PrioritizedSweepSpec.pq_known _ Hc). }
  destruct (update_spec self agent' s' a' new_s' new_a' r' Hc)
    as (self1 & Hup & Hc1 & _ & Hm & _).
  exists self1. split; [done|]. split; [|split].
  - intros p Hp. apply (PrioritizedSweepSpec.pq_known _ Hc1) in Hp. split; [done|].
    rewrite Hm in Hp. apply lookup_insert_is_Some in Hp.
    rewrite DynaSpec_observed_app. cbn. rewrite elem_of_app, list_elem_of_singleton.
    destruct Hp as [<-|[_ Hp]]; [by right|]. left. by apply Hdom.
  - intros n agent0.
    destruct (simulate_loop_spec n self1 agent0 Hc1) as (self2 & agent2 & Heq & Hc2 & Hd & _).
    exists self2, agent2. split; [done|]. intros p Hp. rewrite <- Hd.
    by apply (PrioritizedSweepSpec.pq_known _ Hc2).
  - unfold PrioritizedSweep.simulate.
    by destruct (simulate_loop_spec (Dyna.nsim (PrioritizedSweep.dyna self1)) self1 agent' Hc1)
      as (self2 & agent2 & -> & _).
Qed.

(** * Further properties of the code *)

(** ** The n-step rule over a sequential episode *)

Lemma mod_ne_of_close (c i j : Z) : 0 < c → 0 < j - i < c → i mod c ≠ j mod c.
Proof.
  intros Hc Hd Heq.
  assert ((j - i) mod c = 0) as H0.
  { rewrite Zminus_mod, Heq, Z.sub_diag. by apply Z.mod_0_l, Z.neq_sym, Z.lt_neq. }
  rewrite Z.mod_small in H0 by lia. lia.
Qed.

Section EpisodeFacts.
Context {A St Act : Type} `{!Agent.t A St Act} `{!EqDecision Act}.
Import NStepAlgo NStepSpec EpisodeSpec.
Implicit Types (self : obj A St Act) (agent : A) (buf : Buffer.t (Slot St Act)) (T : TStep).
Implicit Types (c : A * Transition St Act) (calls : list (A * Transition St Act)).

Lemma sequential_lookup calls (i : nat) c :
  sequential calls → calls !! i = Some c → tr_t c.2 = Z.of_nat i.
Proof.
  unfold sequential. intros Hs Hi.
  assert (((λ c, tr_t c.2) <$> calls) !! i = Some (tr_t c.2)) as Hl
    by (by rewrite list_lookup_fmap, Hi).
  rewrite Hs, list_lookup_fmap in Hl.
  rewrite lookup_seq_lt in Hl by (by eapply lookup_lt_Some). cbn in Hl. congruence.
Qed.

Lemma sequential_snoc calls c :
  sequential (calls ++ [c]) ↔ sequential calls ∧ tr_t c.2 = Z.of_nat (length calls).
Proof.
  unfold sequential.
  rewrite fmap_app, length_app, seq_app, fmap_app. cbn [length seq fmap list_fmap Nat.add].
  split.
  - intros Hs. apply app_inj_1 in Hs as [Hs Hc]; [|by rewrite !length_fmap, length_seq].
    split; [done|congruence].
  - intros [-> ->]. done.
Qed.

Lemma horizon_snoc calls c :
  horizon (calls ++ [c]) =
    match horizon calls with
    | Inf => if tr_terminal c.2 then Fin (tr_t c.2 + 1) else Inf
    | Fin z => Fin z
    end.
Proof.
  induction calls as [|c0 calls IH]; cbn; [done|].
  destruct (tr_terminal c0.2); [done|apply IH].
Qed.

(** In a sequential episode the horizon, once set, is at most the number of
    calls made. *)
Lemma horizon_le_length calls z :
  sequential calls → horizon calls = Fin z → 1 ≤ z ≤ Z.of_nat (length calls).
Proof.
  induction calls as [|c calls IH] using rev_ind; [done|].
  intros [Hseq Hc]%sequential_snoc Hz. rewrite horizon_snoc in Hz.
  rewrite length_app. cbn [length].
  destruct (horizon calls) as [|z'] eqn:Hh.
  - destruct (tr_terminal c.2); [|done]. injection Hz as <-. lia.
  - injection Hz as <-. specialize (IH Hseq eq_refl). lia.
Qed.

Lemma slot_at_snoc s0 a0 calls c (i : nat) :
  (i ≤ length calls)%nat → slot_at s0 a0 (calls ++ [c]) i = slot_at s0 a0 calls i.
Proof.
  intros Hi. destruct i as [|j]; [done|]. cbn. by rewrite lookup_app_l by lia.
Qed.

Lemma run_snoc self calls c : run self (calls ++ [c]) = step (run self calls) c.
Proof. unfold run. by rewrite fold_left_app. Qed.

(** The state of a sequential episode: the configuration is the
    constructor's, the horizon is the one the calls determine, and the ring
    buffer still holds the last [nstep + 1] step indices written. *)
Lemma episode_state (P : ReturnPolicy A St Act) (g : float) (n : Z) s0 a0 calls :
  1 ≤ n → sequential calls →
  ∃ buf,
    run (init_episode (init P g n) s0 a0) calls
    = {| policy := P; gamma := g; nstep := n; buffer := Some buf;
         T_step := Some (horizon calls) |}
    ∧ Buffer.capacity buf = n + 1
    ∧ ∀ i : nat, top calls (horizon calls) - n ≤ Z.of_nat i ≤ top calls (horizon calls) →
        Buffer.get buf (Z.of_nat i) = slot_at s0 a0 calls i.
Proof.
  intros Hn. induction calls as [|c calls IH] using rev_ind; intros Hseq.
  - eexists. split; [done|]. split.
    { rewrite Buffer_capacity_set, Buffer_capacity_make; cbn; lia. }
    intros i Hi. unfold top in Hi. cbn in Hi. assert (i = 0%nat) as -> by lia.
    cbn. apply Buffer_get_set. rewrite Buffer_capacity_make; cbn; lia.
  - apply sequential_snoc in Hseq as [Hseq Hc].
    destruct (IH Hseq) as (buf & Hrun & Hcap & Hwin). clear IH.
    rewrite run_snoc, Hrun. unfold step.
    rewrite (call_unfold _ _ _ _ _ _ _ _ _ buf (horizon calls)) by done.
    cbn [fst snd policy gamma nstep]. rewrite horizon_snoc.
    unfold top in *. rewrite length_app. cbn [length]. rewrite Hc.
    set (k := length calls) in *.
    destruct (horizon calls) as [|z] eqn:Hh; cbn [is_inf andb].
    + assert (lt_TStep (Z.of_nat k)
                (if tr_terminal c.2 then Fin (Z.of_nat k + 1) else Inf) = true) as ->.
      { destruct (tr_terminal c.2); cbn; lia. }
      eexists. split; [done|]. split; [by rewrite Buffer_capacity_set|].
      intros i Hi.
      assert (Z.of_nat i ≤ Z.of_nat k + 1) as Hle.
      { destruct (tr_terminal c.2); cbn in Hi; lia. }
      assert (Z.of_nat k + 1 - n ≤ Z.of_nat i) as Hge.
      { destruct (tr_terminal c.2); cbn in Hi; lia. }
      destruct (decide (i = S k)) as [->|Hne].
      * replace (Z.of_nat (S k)) with (Z.of_nat k + 1) by lia.
        rewrite Buffer_get_set by lia. cbn.
        by rewrite lookup_app_r, Nat.sub_diag by lia.
      * rewrite Buffer_get_set_ne.
        -- rewrite slot_at_snoc by lia. apply Hwin. cbn. lia.
        -- lia.
        -- apply not_eq_sym, mod_ne_of_close; lia.
    + pose proof (horizon_le_length calls z Hseq Hh) as Hz. fold k in Hz.
      assert (lt_TStep (Z.of_nat k) (Fin z) = false) as -> by (cbn; lia).
      exists buf. split; [done|]. split; [done|].
      intros i Hi. cbn in Hi. rewrite slot_at_snoc by lia. apply Hwin. cbn. lia.
Qed.

Lemma lookup_calls_between calls (lo hi : Z) (k : nat) :
  0 ≤ lo → Z.of_nat k < hi - lo →
  calls_between calls lo hi !! k = calls !! Z.to_nat (lo + Z.of_nat k).
Proof.
  intros Hlo Hk. unfold calls_between.
  rewrite lookup_take_lt by lia. rewrite lookup_drop. f_equal. lia.
Qed.

Lemma length_calls_between calls (lo hi : Z) :
  0 ≤ lo → hi ≤ Z.of_nat (length calls) →
  length (calls_between calls lo hi) = Z.to_nat (hi - lo).
Proof.
  intros Hlo Hhi. unfold calls_between. rewrite length_take, length_drop. lia.
Qed.

(** A call of a sequential episode, spelled out: it never raises; from
    [t = nstep - 1] on it hands back the return folded over the calls
    [tgt_t], ..., [end_t - 2] and seeded with the end return of the call
    [end_t - 1], where [end_t] is [t + 1] capped by the horizon. *)
Lemma episode_call (P : ReturnPolicy A St Act) (g : float) (n : Z) s0 a0 calls
    agent s a r new_s new_a term :
  1 ≤ n → sequential calls →
  let t := Z.of_nat (length calls) in
  let steps := calls ++ [(agent, mkTransition s a r new_s new_a t term)] in
  let start := init_episode (init P g n) s0 a0 in
  let tgt_t := t - n + 1 in
  let end_t := min_TStep (t + 1) (horizon steps) in
  ∃ buf c,
    buffer (run start steps) = Some buf
    ∧ steps !! Z.to_nat (end_t - 1) = Some c
    ∧ 1 ≤ end_t ≤ t + 1
    ∧ (0 ≤ tgt_t ≤ end_t →
         Buffer.get buf tgt_t = slot_at s0 a0 steps (Z.to_nat tgt_t))
    ∧ call (run start calls) agent s a r new_s new_a t term =
        (run start steps, agent,
         if tgt_t <? 0 then Ok Command_no_update
         else Ok (mkCommand true
                    (Some (fold_return P g agent
                             (slot_of <$> calls_between steps tgt_t (end_t - 1))
                             (end_return P g agent (tr_new_s c.2) (tr_new_a c.2)
                                         (tr_r c.2))))
                    (fst <$> (fst <$> Buffer.get buf tgt_t))
                    (snd <$> (fst <$> Buffer.get buf tgt_t))
                    (ge_TStep_pred tgt_t (horizon steps)))).
Proof.
  intros Hn Hseq t steps start tgt_t end_t.
  assert (sequential steps) as Hseq' by (by apply sequential_snoc).
  destruct (episode_state P g n s0 a0 calls Hn Hseq) as (buf0 & Hrun0 & _ & _).
  destruct (episode_state P g n s0 a0 steps Hn Hseq') as (buf & Hrun & Hcap & Hwin).
  fold start in Hrun0, Hrun.
  assert (length steps = S (length calls)) as Hlen
    by (unfold steps; rewrite length_app; cbn; lia).
  assert (top steps (horizon steps) = end_t) as Htop.
  { unfold top, end_t. rewrite Hlen. f_equal. lia. }
  rewrite Htop in Hwin.
  assert (1 ≤ end_t ≤ t + 1) as He.
  { unfold end_t. destruct (horizon steps) as [|z] eqn:Hh; cbn; [lia|].
    pose proof (horizon_le_length steps z Hseq' Hh). lia. }
  destruct (lookup_lt_is_Some_2 steps (Z.to_nat (end_t - 1))) as [c Hc]; [lia|].
  exists buf, c. split; [by rewrite Hrun|]. split; [done|]. split; [done|].
  split.
  { intros Ht. rewrite <- (Z2Nat.id tgt_t) at 1 by lia. apply Hwin. lia. }
  pose proof (run_snoc start calls (agent, mkTransition s a r new_s new_a t term)) as Hstep.
  fold steps in Hstep. unfold step in Hstep. cbn [fst snd tr_s tr_a tr_r tr_new_s tr_new_a
    tr_t tr_terminal] in Hstep.
  rewrite (call_unfold _ _ _ _ _ _ _ _ _ buf0 (horizon calls)) in Hstep |- *
    by (by rewrite Hrun0).
  cbn [fst snd] in Hstep. rewrite <- Hstep, Hrun.
  rewrite Hrun in Hstep. injection Hstep as _ _ _ Hbuf HT.
  rewrite <- Hbuf, <- HT. rewrite Hrun0. cbn [nstep]. fold tgt_t.
  f_equal. destruct (tgt_t <? 0) eqn:Htgt; [done|]. apply Z.ltb_ge in Htgt.
  unfold get_return. cbn [buffer T_step]. fold end_t.
  replace (Buffer.get buf end_t) with (Some (slot_of c)).
  2:{ rewrite <- (Z2Nat.id end_t) by lia. rewrite Hwin by lia.
      replace (Z.to_nat end_t) with (S (Z.to_nat (end_t - 1))) by lia.
      cbn. by rewrite Hc. }
  cbn [call_end_return slot_of result_bind policy gamma].
  set (seed := end_return P g agent _ _ _).
  set (slots := slot_of <$> calls_between steps tgt_t (end_t - 1)).
  assert (get_return_loop
            {| policy := P; gamma := g; nstep := n; buffer := Some buf;
               T_step := Some (horizon steps) |} agent buf
            (range_down (end_t - 1) tgt_t) seed
          = Ok (fold_return P g agent slots seed)) as ->; [|done].
  destruct (decide (tgt_t < end_t - 1)) as [Hlt|Hge].
  - pose proof (get_return_loop_foldr
      {| policy := P; gamma := g; nstep := n; buffer := Some buf;
         T_step := Some (horizon steps) |} agent buf (tgt_t + 1) slots seed) as Hloop.
    assert (length slots = Z.to_nat (end_t - 1 - tgt_t)) as Hls.
    { unfold slots. rewrite length_fmap, length_calls_between; lia. }
    rewrite Hls in Hloop.
    replace (tgt_t + 1 + Z.of_nat (Z.to_nat (end_t - 1 - tgt_t)) - 1) with (end_t - 1)
      in Hloop by lia.
    replace (tgt_t + 1 - 1) with tgt_t in Hloop by lia.
    apply Hloop. intros k x Hk.
    assert (Z.of_nat k < end_t - 1 - tgt_t) as Hkl.
    { apply lookup_lt_Some in Hk. lia. }
    unfold slots in Hk. rewrite list_lookup_fmap, lookup_calls_between in Hk by lia.
    replace (tgt_t + 1 + Z.of_nat k) with (Z.of_nat (S (Z.to_nat (tgt_t + Z.of_nat k))))
      by lia.
    rewrite Hwin by lia. cbn. done.
  - rewrite range_down_nil by lia.
    assert (slots = []) as ->; [|done].
    unfold slots, calls_between. replace (Z.to_nat (end_t - 1 - tgt_t)) with 0%nat by lia.
    done.
Qed.

Lemma calls_between_snoc calls c (lo hi : Z) :
  0 ≤ lo → hi ≤ Z.of_nat (length calls) →
  calls_between (calls ++ [c]) lo hi = calls_between calls lo hi.
Proof.
  intros Hlo Hhi. unfold calls_between.
  destruct (decide (lo ≤ hi)) as [Hle|Hgt].
  - rewrite drop_app_le by lia. rewrite take_app_le; [done|]. rewrite length_drop. lia.
  - by replace (Z.to_nat (hi - lo)) with 0%nat by lia.
Qed.

Lemma calls_between_all calls (lo : Z) :
  calls_between calls lo (Z.of_nat (length calls)) = drop (Z.to_nat lo) calls.
Proof. unfold calls_between. apply take_ge. rewrite length_drop. lia. Qed.

Lemma calls_between_subseteq calls (lo hi : Z) c :
  c ∈ calls_between calls lo hi → c ∈ drop (Z.to_nat lo) calls.
Proof.
  unfold calls_between. intros (i & Hi & _)%elem_of_take. by eapply list_elem_of_lookup_2.
Qed.

(** What the horizon says of a sequential episode: it is the time after the
    first call flagged terminal. *)
Lemma horizon_first_terminal calls :
  sequential calls →
  match horizon calls with
  | Inf => ∀ (i : nat) c, calls !! i = Some c → tr_terminal c.2 = false
  | Fin z => 1 ≤ z ∧ ∃ c, calls !! Z.to_nat (z - 1) = Some c ∧ tr_terminal c.2 = true
             ∧ ∀ (i : nat) c', Z.of_nat i < z - 1 → calls !! i = Some c' →
                               tr_terminal c'.2 = false
  end.
Proof.
  induction calls as [|c calls IH] using rev_ind; [done|].
  intros [Hseq Hc]%sequential_snoc. specialize (IH Hseq). rewrite horizon_snoc.
  destruct (horizon calls) as [|z] eqn:Hh.
  - destruct (tr_terminal c.2) eqn:Hterm.
    + split; [lia|]. exists c. split; [|split; [done|]].
      * rewrite Hc. replace (Z.to_nat (Z.of_nat (length calls) + 1 - 1)) with (length calls) by lia.
        by rewrite lookup_app_r, Nat.sub_diag by lia.
      * intros i c' Hi Hl. rewrite lookup_app_l in Hl by lia. by eapply IH.
    + intros i c' Hl. destruct (decide (i < length calls)%nat).
      * rewrite lookup_app_l in Hl by lia. by eapply IH.
      * rewrite lookup_app_r in Hl by lia.
        destruct (i - length calls)%nat as [|m]; [|by destruct m]. by injection Hl as <-.
  - destruct IH as (Hz & c0 & Hc0 & Ht0 & Hbefore). split; [done|].
    exists c0. split; [|split; [done|]].
    + rewrite lookup_app_l; [done|]. by eapply lookup_lt_Some.
    + intros i c' Hi Hl. pose proof (lookup_lt_Some _ _ _ Hc0).
      rewrite lookup_app_l in Hl by lia. by eapply Hbefore.
Qed.

(** The buffer and the horizon of an episode do not depend on the return
    policy. *)
Lemma run_policy_irrelevant (P Q : ReturnPolicy A St Act) (g : float) (n : Z) s0 a0 calls :
  ∃ buf T,
    run (init_episode (init P g n) s0 a0) calls
    = {| policy := P; gamma := g; nstep := n; buffer := Some buf; T_step := Some T |}
    ∧ run (init_episode (init Q g n) s0 a0) calls
    = {| policy := Q; gamma := g; nstep := n; buffer := Some buf; T_step := Some T |}.
Proof.
  induction calls as [|c calls IH] using rev_ind.
  - by eexists _, _.
  - destruct IH as (buf & T & HP & HQ). rewrite !run_snoc, HP, HQ. unfold step.
    rewrite !(call_unfold _ _ _ _ _ _ _ _ _ buf T) by done. cbn. by eexists _, _.
Qed.

Lemma fold_return_greedy (g : float) agent (slots : list (St * Act * float)) seed :
  (∀ x, x ∈ slots → x.1.2 = Agent.best_action agent x.1.1) →
  fold_return TreeLearn g agent slots seed = fold_return QLearn g agent slots seed.
Proof.
  induction slots as [|x slots IH]; intros Hg; [done|].
  unfold fold_return in *. cbn [foldr]. rewrite IH by (intros; apply Hg; by right).
  cbn [step_return TreeLearn QLearn]. rewrite decide_True; [done|]. apply Hg. by left.
Qed.
End EpisodeFacts.


Section EpisodeExtras.
Context {A St Act : Type} `{!Agent.t A St Act} `{!EqDecision Act}.
Import NStepAlgo NStepSpec EpisodeSpec.
Implicit Types (self : obj A St Act) (agent : A) (buf : Buffer.t (Slot St Act)) (T : TStep).
Implicit Types (c : A * Transition St Act) (calls : list (A * Transition St Act)).

(** X1.  [init_episode] and [__call__] keep the ring buffer of
    [nstep + 1] slots a window on the episode: after the calls
    [0, 1, ..., k - 1] of an episode started with [(s0, a0)], the slots of
    the last [nstep + 1] step indices written, up to [min(k, T_step)], hold
    the start pair with reward 0 at index 0 and at index [i + 1] the
    [(new_s, new_a, r)] of call [i]; nothing in the window has been
    overwritten by the wrap-around. *)
Theorem ring_buffer_window (P : ReturnPolicy A St Act) (g : float) (n : Z) s0 a0 calls :
  1 ≤ n → sequential calls →
  ∃ buf,
    buffer (run (init_episode (init P g n) s0 a0) calls) = Some buf
    ∧ Buffer.capacity buf = n + 1
    ∧ ∀ i : nat, top calls (horizon calls) - n ≤ Z.of_nat i ≤ top calls (horizon calls) →
        Buffer.get buf (Z.of_nat i) = slot_at s0 a0 calls i.
Proof.
  intros Hn Hseq. destruct (episode_state P g n s0 a0 calls Hn Hseq) as (buf & Hrun & Hcap & Hwin).
  exists buf. by rewrite Hrun.
Qed.

(** X2.  A call of a sequential episode never raises, whatever the policy,
    [nstep >= 1] and the flags: the command asks for an update exactly from
    [t = nstep - 1] on, and the agent comes back as it was handed in. *)
Theorem sequential_call_returns (P : ReturnPolicy A St Act) (g : float) (n : Z) s0 a0 calls
    agent s a r new_s new_a term :
  1 ≤ n → sequential calls →
  let t := Z.of_nat (length calls) in
  let out := call (run (init_episode (init P g n) s0 a0) calls)
                  agent s a r new_s new_a t term in
  ∃ cmd, out.2 = Ok cmd ∧ cmd_update cmd = (n - 1 <=? t) ∧ out.1.2 = agent.
Proof.
  intros Hn Hseq t out.
  destruct (episode_call P g n s0 a0 calls agent s a r new_s new_a term Hn Hseq)
    as (buf & c & _ & _ & _ & _ & Hcall).
  unfold out, t. rewrite Hcall. cbn [fst snd].
  destruct (_ <? 0) eqn:Htgt; eexists; (split; [done|]); (split; [|done]); cbn; lia.
Qed.

(** X3.  The n-step return while the episode is live (no call before this
    one was flagged terminal), from [t = nstep - 1] on: the end return of
    the transition of this call, folded back with [step_return] over what
    the [nstep - 1] calls before it wrote, all valued by the agent of this
    call.  It is credited to the pair stored at [tgt_t = t - nstep + 1], and
    the command terminates only for a terminal transition with
    [nstep = 1]. *)
Theorem live_nstep_return (P : ReturnPolicy A St Act) (g : float) (n : Z) s0 a0 calls
    agent s a r new_s new_a term :
  1 ≤ n → sequential calls → horizon calls = Inf →
  let t := Z.of_nat (length calls) in
  let tgt_t := t - n + 1 in
  0 ≤ tgt_t →
  (call (run (init_episode (init P g n) s0 a0) calls) agent s a r new_s new_a t term).2
  = Ok (mkCommand true
          (Some (fold_return P g agent (slot_of <$> drop (Z.to_nat tgt_t) calls)
                             (end_return P g agent new_s new_a r)))
          (fst <$> (fst <$> slot_at s0 a0 calls (Z.to_nat tgt_t)))
          (snd <$> (fst <$> slot_at s0 a0 calls (Z.to_nat tgt_t)))
          (term && (n =? 1))).
Proof.
  intros Hn Hseq Hlive t tgt_t Htgt.
  destruct (episode_call P g n s0 a0 calls agent s a r new_s new_a term Hn Hseq)
    as (buf & c & _ & Hc & _ & Hslot & Hcall).
  fold t tgt_t in Hc, Hslot, Hcall.
  set (steps := calls ++ [(agent, mkTransition s a r new_s new_a t term)]) in *.
  assert (min_TStep (t + 1) (horizon steps) = t + 1) as He.
  { unfold steps. rewrite horizon_snoc, Hlive. cbn. destruct term; cbn; lia. }
  rewrite He in Hc, Hslot, Hcall.
  replace (t + 1 - 1) with t in Hc, Hcall by lia.
  unfold steps, t in Hc. rewrite Nat2Z.id, lookup_app_r, Nat.sub_diag in Hc by lia.
  injection Hc as <-. cbn [snd tr_new_s tr_new_a tr_r] in Hcall.
  rewrite Hcall. cbn [snd].
  destruct (tgt_t <? 0) eqn:Hneg; [lia|].
  rewrite Hslot by lia. unfold steps.
  rewrite slot_at_snoc by lia.
  rewrite calls_between_snoc by lia. unfold t. rewrite calls_between_all.
  do 2 f_equal. rewrite horizon_snoc, Hlive. cbn.
  destruct term; cbn; [|done]. fold t. unfold tgt_t. lia.
Qed.

(** X4.  For Sarsa, ExpectedSarsa and QLearn the return of a live episode
    is the classic n-step target: the rewards of the last [nstep]
    transitions, discounted by [gamma], with the policy's estimate of the
    newest state bootstrapped in the end return. *)
Theorem classic_nstep_target (P : ReturnPolicy A St Act) (g : float) (n : Z) s0 a0 calls
    agent s a r new_s new_a term :
  P = Sarsa ∨ P = ExpectedSarsa ∨ P = QLearn →
  1 ≤ n → sequential calls → horizon calls = Inf →
  let t := Z.of_nat (length calls) in
  n - 1 ≤ t →
  ∃ cmd,
    (call (run (init_episode (init P g n) s0 a0) calls) agent s a r new_s new_a t term).2
    = Ok cmd
    ∧ cmd_ret cmd
      = Some (discounted g ((λ c, tr_r c.2) <$> drop (Z.to_nat (t - n + 1)) calls)
                         (end_return P g agent new_s new_a r)).
Proof.
  intros HP Hn Hseq Hlive t Htgt.
  destruct (episode_call P g n s0 a0 calls agent s a r new_s new_a term Hn Hseq)
    as (buf & c & _ & Hc & _ & _ & Hcall).
  fold t in Hc, Hcall.
  set (steps := calls ++ [(agent, mkTransition s a r new_s new_a t term)]) in *.
  assert (min_TStep (t + 1) (horizon steps) = t + 1) as He.
  { unfold steps. rewrite horizon_snoc, Hlive. cbn. destruct term; cbn; lia. }
  rewrite He in Hc, Hcall.
  replace (t + 1 - 1) with t in Hc, Hcall by lia.
  unfold steps, t in Hc. rewrite Nat2Z.id, lookup_app_r, Nat.sub_diag in Hc by lia.
  injection Hc as <-. cbn [snd tr_new_s tr_new_a tr_r] in Hcall.
  rewrite Hcall. cbn [snd].
  destruct (t - n + 1 <? 0) eqn:Hneg; [lia|].
  eexists. split; [done|]. cbn [cmd_ret]. unfold steps.
  rewrite calls_between_snoc by lia. unfold t. rewrite calls_between_all.
  rewrite fold_return_additive by (by destruct HP as [->|[->| ->]]).
  unfold rewards. by rewrite <- list_fmap_compose.
Qed.

(** X5.  Once the episode has ended, a call at [t >= T_step] is a pure
    read: it leaves the object as it was, writes nothing to the buffer, and
    its result does not depend on the transition or on the terminal flag it
    is given, only on [t] and the agent. *)
Theorem drain_call_reads_only self buf (z : Z) agent s a r new_s new_a (t : Z) term
    s' a' r' new_s' new_a' term' :
  buffer self = Some buf → T_step self = Some (Fin z) → z ≤ t →
  call self agent s a r new_s new_a t term
  = (self, agent, (call self agent s' a' r' new_s' new_a' t term').2).
Proof.
  intros Hb HT Ht.
  rewrite !(call_unfold _ _ _ _ _ _ _ _ _ buf (Fin z)) by done.
  cbn [is_inf andb lt_TStep snd].
  replace (t <? z) with false by lia.
  destruct self as [P0 g0 n0 b0 T0]. cbn in *. by subst.
Qed.

(** X6.  When the commands of a sequential episode terminate: exactly when
    a transition up to the credited step [tgt_t = t - nstep + 1] was
    flagged terminal.  So the calls go on for [nstep - 1] steps after the
    terminal transition, and the first terminating command is the one that
    credits the pair the terminal transition left from. *)
Theorem terminate_timing (P : ReturnPolicy A St Act) (g : float) (n : Z) s0 a0 calls
    agent s a r new_s new_a term :
  1 ≤ n → sequential calls →
  let t := Z.of_nat (length calls) in
  let steps := calls ++ [(agent, mkTransition s a r new_s new_a t term)] in
  ∃ cmd,
    (call (run (init_episode (init P g n) s0 a0) calls) agent s a r new_s new_a t term).2
    = Ok cmd
    ∧ (cmd_terminate cmd = true
       ↔ ∃ (i : nat) c, steps !! i = Some c ∧ tr_terminal c.2 = true
                        ∧ Z.of_nat i ≤ t - n + 1).
Proof.
  intros Hn Hseq t steps.
  destruct (episode_call P g n s0 a0 calls agent s a r new_s new_a term Hn Hseq)
    as (buf & c & _ & _ & _ & _ & Hcall).
  fold t steps in Hcall. rewrite Hcall. cbn [snd].
  assert (sequential steps) as Hseq' by (by apply sequential_snoc).
  pose proof (horizon_first_terminal steps Hseq') as Hh.
  destruct (t - n + 1 <? 0) eqn:Hneg.
  - eexists. split; [done|]. cbn. split; [done|]. intros (i & _ & _ & _ & Hi). lia.
  - eexists. split; [done|]. cbn [cmd_terminate].
    destruct (horizon steps) as [|z]; cbn [ge_TStep_pred].
    + split; [done|]. intros (i & c' & Hi & Hterm & _). by rewrite (Hh i c' Hi) in Hterm.
    + destruct Hh as (Hz & c0 & Hc0 & Ht0 & Hbefore). split.
      * intros Hge. exists (Z.to_nat (z - 1)), c0. repeat split; [done..|lia].
      * intros (i & c' & Hi & Hterm & Hle).
        destruct (decide (Z.of_nat i < z - 1)) as [Hlt|Hnlt]; [|lia].
        by rewrite (Hbefore i c' Hlt Hi) in Hterm.
Qed.

(** X7.  Tree backup agrees with Q-learning along greedy actions: when
    every action stored by the calls from [tgt_t] on is the one the agent
    holds best in its state, a call of [TreeLearn] hands back the very
    command [QLearn] does. *)
Theorem tree_backup_greedy_is_qlearn (g : float) (n : Z) s0 a0 calls
    agent s a r new_s new_a term :
  1 ≤ n → sequential calls →
  let t := Z.of_nat (length calls) in
  (∀ c, c ∈ drop (Z.to_nat (t - n + 1)) calls →
        tr_new_a c.2 = Agent.best_action agent (tr_new_s c.2)) →
  (call (run (init_episode (init TreeLearn g n) s0 a0) calls)
        agent s a r new_s new_a t term).2
  = (call (run (init_episode (init QLearn g n) s0 a0) calls)
          agent s a r new_s new_a t term).2.
Proof.
  intros Hn Hseq t Hgreedy.
  destruct (episode_call TreeLearn g n s0 a0 calls agent s a r new_s new_a term Hn Hseq)
    as (bufT & cT & HbT & HcT & He & _ & HcallT).
  destruct (episode_call QLearn g n s0 a0 calls agent s a r new_s new_a term Hn Hseq)
    as (bufQ & cQ & HbQ & HcQ & _ & _ & HcallQ).
  fold t in HbT, HcT, He, HcallT, HbQ, HcQ, HcallQ.
  set (steps := calls ++ [(agent, mkTransition s a r new_s new_a t term)]) in *.
  destruct (run_policy_irrelevant TreeLearn QLearn g n s0 a0 steps) as (buf & T & HT & HQ).
  rewrite HT in HbT. rewrite HQ in HbQ. cbn in HbT, HbQ.
  assert (bufT = bufQ) as -> by congruence.
  assert (cT = cQ) as -> by congruence.
  rewrite HcallT, HcallQ. cbn [snd].
  destruct (t - n + 1 <? 0) eqn:Hneg; [done|]. apply Z.ltb_ge in Hneg.
  rewrite fold_return_greedy; [done|].
  intros x (c & -> & Hc)%list_elem_of_fmap.
  set (end_t := min_TStep (t + 1) (horizon steps)) in *.
  unfold steps in Hc. rewrite calls_between_snoc in Hc by (unfold t in *; lia).
  apply calls_between_subseteq in Hc. by apply Hgreedy.
Qed.

(** X8.  Tree backup cuts the return at an action the agent does not hold
    best: in a live episode with [nstep >= 2], when the action stored by
    call [tgt_t] is not the agent's best one in its state, the return is the
    reward of that call plus [gamma] times the agent's value of the best
    action there, and nothing of the later transitions enters it. *)
Theorem tree_backup_cut (g : float) (n : Z) s0 a0 calls agent s a r new_s new_a term c1 :
  2 ≤ n → sequential calls → horizon calls = Inf →
  let t := Z.of_nat (length calls) in
  0 ≤ t - n + 1 →
  calls !! Z.to_nat (t - n + 1) = Some c1 →
  tr_new_a c1.2 ≠ Agent.best_action agent (tr_new_s c1.2) →
  ∃ cmd,
    (call (run (init_episode (init TreeLearn g n) s0 a0) calls)
          agent s a r new_s new_a t term).2 = Ok cmd
    ∧ cmd_ret cmd
      = Some (tr_r c1.2 + g * Agent.q agent (tr_new_s c1.2)
                                 (Agent.best_action agent (tr_new_s c1.2)))%float.
Proof.
  intros Hn Hseq Hlive t Htgt Hc1 Hoff.
  assert (1 ≤ n) as Hn1 by lia.
  destruct (episode_call TreeLearn g n s0 a0 calls agent s a r new_s new_a term
              Hn1 Hseq) as (buf & c & _ & Hc & _ & _ & Hcall).
  fold t in Hc, Hcall.
  set (steps := calls ++ [(agent, mkTransition s a r new_s new_a t term)]) in *.
  assert (min_TStep (t + 1) (horizon steps) = t + 1) as He.
  { unfold steps. rewrite horizon_snoc, Hlive. cbn. destruct term; cbn; lia. }
  rewrite He in Hc, Hcall. replace (t + 1 - 1) with t in Hc, Hcall by lia.
  rewrite Hcall. cbn [snd].
  destruct (t - n + 1 <? 0) eqn:Hneg; [lia|].
  eexists. split; [done|]. cbn [cmd_ret]. unfold steps.
  rewrite calls_between_snoc by lia. unfold t. rewrite calls_between_all.
  fold t. rewrite (drop_S _ _ _ Hc1). cbn [fmap list_fmap fold_return foldr].
  cbn [slot_of fst snd step_return TreeLearn].
  by rewrite decide_False.
Qed.

(** X9.  Episodes are independent: [init_episode] after any calls, in any
    order and whether or not they raised, gives the object that
    [init_episode] gives before them.  Only the policy, [gamma] and [nstep]
    outlive an episode. *)
Theorem init_episode_resets self calls s0 a0 :
  init_episode (run self calls) s0 a0 = init_episode self s0 a0.
Proof.
  revert self. induction calls as [|c calls IH]; intros self; [done|].
  cbn [run fold_left]. fold (run (step self c) calls). rewrite IH.
  destruct (step_config self c) as (HP & Hg & Hn).
  unfold init_episode. by rewrite HP, Hg, Hn.
Qed.
End EpisodeExtras.

Lemma ring_buffer_window_witness :
  ∃ buf,
    NStepAlgo.buffer (NStepSpec.run (Walk.two_step NStepAlgo.Sarsa) Walk.walk) = Some buf
    ∧ Buffer.capacity buf = 2 + 1
    ∧ ∀ i : nat,
        EpisodeSpec.top Walk.walk (NStepSpec.horizon Walk.walk) - 2 ≤ Z.of_nat i
          ≤ EpisodeSpec.top Walk.walk (NStepSpec.horizon Walk.walk) →
        Buffer.get buf (Z.of_nat i) = EpisodeSpec.slot_at 0 0 Walk.walk i.
Proof.
  apply (ring_buffer_window NStepAlgo.Sarsa 0.9%float 2 0 0 Walk.walk); [lia|reflexivity].
Defined.

Lemma sequential_call_returns_witness :
  ∃ cmd,
    (NStepAlgo.call (NStepSpec.run (Walk.two_step NStepAlgo.Sarsa) Walk.live)
                    Scenario.agent 2 0 1%float 3 0 2 true).2 = Ok cmd
    ∧ cmd_update cmd = (2 - 1 <=? 2)
    ∧ (NStepAlgo.call (NStepSpec.run (Walk.two_step NStepAlgo.Sarsa) Walk.live)
                      Scenario.agent 2 0 1%float 3 0 2 true).1.2 = Scenario.agent.
Proof.
  apply (sequential_call_returns NStepAlgo.Sarsa 0.9%float 2 0 0 Walk.live
           Scenario.agent 2 0 1%float 3 0 true); [lia|reflexivity].
Defined.

Lemma live_nstep_return_witness :
  (NStepAlgo.call (NStepSpec.run (Walk.two_step NStepAlgo.TreeLearn) Walk.live)
                  Scenario.agent 2 0 1%float 3 0 2 true).2
  = Ok (mkCommand true
          (Some (EpisodeSpec.fold_return NStepAlgo.TreeLearn 0.9%float Scenario.agent
                   [(2, 0, 1%float)]
                   (NStepAlgo.end_return NStepAlgo.TreeLearn 0.9%float Scenario.agent
                                         3 0 1%float)))
          (Some 1) (Some 0) false).
Proof.
  apply (live_nstep_return NStepAlgo.TreeLearn 0.9%float 2 0 0 Walk.live
           Scenario.agent 2 0 1%float 3 0 true); [lia|reflexivity|reflexivity|cbn; lia].
Defined.

Lemma classic_nstep_target_witness :
  ∃ cmd,
    (NStepAlgo.call (NStepSpec.run (Walk.two_step NStepAlgo.Sarsa) Walk.live)
                    Scenario.agent 2 0 1%float 3 0 2 true).2 = Ok cmd
    ∧ cmd_ret cmd
      = Some (discounted 0.9%float [1%float]
                (NStepAlgo.end_return NStepAlgo.Sarsa 0.9%float Scenario.agent 3 0 1%float)).
Proof.
  apply (classic_nstep_target NStepAlgo.Sarsa 0.9%float 2 0 0 Walk.live
           Scenario.agent 2 0 1%float 3 0 true);
    [by left|lia|reflexivity|reflexivity|cbn; lia].
Defined.

Lemma drain_call_reads_only_witness :
  NStepAlgo.call (NStepSpec.run (Walk.two_step NStepAlgo.Sarsa) Walk.walk)
                 Scenario.agent 7 1 5%float 8 1 3 true
  = (NStepSpec.run (Walk.two_step NStepAlgo.Sarsa) Walk.walk, Scenario.agent,
     (NStepAlgo.call (NStepSpec.run (Walk.two_step NStepAlgo.Sarsa) Walk.walk)
                     Scenario.agent 3 0 0%float 3 0 3 false).2).
Proof.
  eapply (drain_call_reads_only _ _ 3); [reflexivity|reflexivity|lia].
Defined.

Lemma terminate_timing_witness :
  ∃ cmd,
    (NStepAlgo.call (NStepSpec.run (Walk.two_step NStepAlgo.Sarsa) Walk.walk)
                    Scenario.agent 3 0 0%float 3 0 3 false).2 = Ok cmd
    ∧ (cmd_terminate cmd = true
       ↔ ∃ (i : nat) c,
           (Walk.walk ++ [(Scenario.agent, mkTransition 3 0 0%float 3 0 3 false)]) !! i = Some c
           ∧ tr_terminal c.2 = true ∧ Z.of_nat i ≤ 3 - 2 + 1).
Proof.
  apply (terminate_timing NStepAlgo.Sarsa 0.9%float 2 0 0 Walk.walk
           Scenario.agent 3 0 0%float 3 0 false); [lia|reflexivity].
Defined.

Lemma tree_backup_greedy_is_qlearn_witness :
  (NStepAlgo.call (NStepSpec.run (Walk.two_step NStepAlgo.TreeLearn) Walk.live)
                  Scenario.agent 2 0 1%float 3 0 2 true).2
  = (NStepAlgo.call (NStepSpec.run (Walk.two_step NStepAlgo.QLearn) Walk.live)
                    Scenario.agent 2 0 1%float 3 0 2 true).2.
Proof.
  apply (tree_backup_greedy_is_qlearn 0.9%float 2 0 0 Walk.live
           Scenario.agent 2 0 1%float 3 0 true); [lia|reflexivity|].
  intros c Hc. cbn in Hc.
  apply list_elem_of_singleton in Hc as ->. reflexivity.
Defined.

Lemma tree_backup_cut_witness :
  ∃ cmd,
    (NStepAlgo.call
       (NStepSpec.run (Walk.two_step NStepAlgo.TreeLearn) Walk.off_policy)
       Scenario.tree_agent 1 0 1%float 2 0 1 true).2 = Ok cmd
    ∧ cmd_ret cmd = Some 5.5%float.
Proof.
  destruct (tree_backup_cut 0.9%float 2 0 0 Walk.off_policy
              Scenario.tree_agent 1 0 1%float 2 0 true
              (Scenario.tree_agent, mkTransition 0 0 1%float 1 0 0 false))
    as (cmd & Hcmd & Hret);
    [lia|reflexivity|reflexivity|cbn; lia|reflexivity|vm_compute; discriminate|].
  exists cmd. split; [exact Hcmd|]. rewrite Hret. vm_compute. reflexivity.
Defined.

Section EpisodeExtras2.
Context {A St Act : Type} `{!Agent.t A St Act} `{!EqDecision Act}.
Import NStepAlgo NStepSpec EpisodeSpec.
Implicit Types (self : obj A St Act) (agent : A) (buf : Buffer.t (Slot St Act)) (T : TStep).
Implicit Types (c : A * Transition St Act) (calls : list (A * Transition St Act)).

(** X10.  Which pair a command credits, before and after the end of the
    episode: as long as the credited step [tgt_t = t - nstep + 1] is not
    past the horizon, the command names the pair stored for step [tgt_t],
    which is the start pair of [init_episode] for [tgt_t = 0] and the
    [(new_s, new_a)] of call [tgt_t - 1] after that.  Call after call the
    stored pairs are credited in order, one each. *)
Theorem credited_pair (P : ReturnPolicy A St Act) (g : float) (n : Z) s0 a0 calls
    agent s a r new_s new_a term :
  1 ≤ n → sequential calls →
  let t := Z.of_nat (length calls) in
  let steps := calls ++ [(agent, mkTransition s a r new_s new_a t term)] in
  let tgt_t := t - n + 1 in
  0 ≤ tgt_t → tgt_t ≤ min_TStep (t + 1) (horizon steps) →
  ∃ cmd,
    (call (run (init_episode (init P g n) s0 a0) calls) agent s a r new_s new_a t term).2
    = Ok cmd
    ∧ cmd_s cmd = fst <$> (fst <$> slot_at s0 a0 steps (Z.to_nat tgt_t))
    ∧ cmd_a cmd = snd <$> (fst <$> slot_at s0 a0 steps (Z.to_nat tgt_t)).
Proof.
  intros Hn Hseq t steps tgt_t Htgt Hend.
  destruct (episode_call P g n s0 a0 calls agent s a r new_s new_a term Hn Hseq)
    as (buf & c & _ & _ & _ & Hslot & Hcall).
  fold t steps tgt_t in Hslot, Hcall. rewrite Hcall. cbn [snd].
  destruct (tgt_t <? 0) eqn:Hneg; [lia|].
  eexists. split; [done|]. cbn [cmd_s cmd_a]. by rewrite Hslot.
Qed.
End EpisodeExtras2.

Lemma credited_pair_witness :
  ∃ cmd,
    (NStepAlgo.call (NStepSpec.run (Walk.two_step NStepAlgo.Sarsa) Walk.walk)
                    Scenario.agent 3 0 0%float 3 0 3 false).2 = Ok cmd
    ∧ cmd_s cmd = Some 2 ∧ cmd_a cmd = Some 0.
Proof.
  apply (credited_pair NStepAlgo.Sarsa 0.9%float 2 0 0 Walk.walk
           Scenario.agent 3 0 0%float 3 0 false); [lia|reflexivity|cbn; lia|cbn; lia].
Defined.

(** ** Planning: the model, the queue and the bonus *)

(** Comparisons with NaN are false. *)
Lemma SFcompare_refl_nan (f : spec_float) : SFcompare f f ≠ Some Eq → f = S754_nan.
Proof.
  destruct f as [s|s| |s m e]; cbn; try done.
  - by destruct s.
  - rewrite Z.compare_refl, Pos.compare_cont_refl. by destruct s.
Qed.

Lemma is_nan_Prim2SF (x : float) : PrimFloat.is_nan x = true → Prim2SF x = S754_nan.
Proof.
  unfold PrimFloat.is_nan. rewrite FloatAxioms.eqb_spec. unfold SFeqb. intros Hx.
  apply SFcompare_refl_nan. intros Heq. by rewrite Heq in Hx.
Qed.

Lemma ltb_nan_l (x y : float) : PrimFloat.is_nan x = true → (x <? y)%float = false.
Proof.
  intros Hx. rewrite FloatAxioms.ltb_spec, (is_nan_Prim2SF x Hx). done.
Qed.

Lemma ltb_nan_r (x y : float) : PrimFloat.is_nan y = true → (x <? y)%float = false.
Proof.
  intros Hy. rewrite FloatAxioms.ltb_spec, (is_nan_Prim2SF y Hy).
  unfold SFltb. by destruct (Prim2SF x).
Qed.

Section DynaExtras.
Context {A St Act : Type} `{!Agent.t A St Act}.
Context `{!EqDecision St, !Countable St, !EqDecision Act, !Countable Act}.
Context {X : Type} `{!Algo A St Act X}.
Import Dyna DynaSpec ModelSpec.
Implicit Types (self : obj A St Act X) (agent : A) (p : St * Act).
Implicit Types (events : list (event A St Act)).

Lemma record_insert (m : gmap (St * Act) (St * float)) p (e : event A St Act) :
  match e with
  | Init _ _ => m
  | Call _ c =>
      if tr_terminal c then m else <[(tr_s c, tr_a c) := (tr_new_s c, tr_r c)]> m
  end !! p = record p (m !! p) e.
Proof.
  destruct e as [s a|agent c]; cbn; [done|].
  destruct (tr_terminal c); [done|].
  destruct (decide ((tr_s c, tr_a c) = p)) as [->|Hne].
  - by rewrite lookup_insert_eq.
  - by rewrite lookup_insert_ne.
Qed.

Lemma run_model_latest self events p :
  model (run self events) !! p = fold_left (record p) events (model self !! p).
Proof.
  revert self. induction events as [|e events IH]; intros self; [done|].
  cbn [run fold_left]. fold (run (step self e) events).
  by rewrite IH, step_model, record_insert.
Qed.

Lemma simulate_loop_replay self agent (samp : list (St * Act)) :
  (∀ p, p ∈ samp → is_Some (model self !! p)) →
  simulate_loop self agent samp = (replay self agent samp, Ok tt).
Proof.
  revert agent. induction samp as [|[s a] samp IH]; intros agent Hin; [done|].
  cbn [simulate_loop replay fold_left]. unfold planned at 2. cbn [fst snd].
  destruct (Hin (s, a)) as [[new_s r] Hsa]; [by left|].
  assert (∃ agent1, step_sim self agent s a = Ok agent1) as [agent1 ->].
  { unfold step_sim. rewrite Hsa. destruct (Agent.get_action agent new_s). by eexists. }
  apply IH. intros p Hp. apply Hin. by right.
Qed.

Lemma replay_advance_random self k agent (samp : list (St * Act)) :
  replay (advance_random self k) agent samp = replay self agent samp.
Proof. done. Qed.

(** X11.  The model is last-write-wins over the whole life of the object:
    after any events from construction on, the entry of a pair is the
    successor and the reward of the latest real, non-terminal transition
    from it, and the pair is missing when there was none.  Terminal
    transitions never enter the model and [init_episode] does not clear
    it. *)
Theorem dyna_model_last_write (x : X) (plan : NStepAlgo.obj A St Act) (k : nat)
    (rnd : nat → nat) events p :
  model (run (init x plan k rnd) events) !! p = latest events p.
Proof. rewrite run_model_latest. cbn. by rewrite lookup_empty. Qed.

(** X12.  What a call of [Dyna] does, for any object: on a transition
    that is not terminal it records the transition, draws exactly [nsim]
    pairs, all of them keys of the model (so no replay raises), applies the
    planning updates to the agent in the order drawn, and then hands back
    what the inner rule returns for that agent.  On a terminal transition
    it goes to the inner rule at once: the model and the agent are left
    alone. *)
Theorem dyna_call_plans_then_delegates self agent s a r new_s new_a t :
  let self' := update self agent s a new_s new_a r in
  (∃ samp,
     choices (keys self') (nsim self) (random self) = Ok samp
     ∧ length samp = nsim self
     ∧ (∀ p, p ∈ samp → is_Some (model self' !! p))
     ∧ let inner := algo_call (algo self) (replay self' agent samp)
                              s a r new_s new_a t false in
       call self agent s a r new_s new_a t false
       = (set_algo (advance_random self' (nsim self)) inner.1.1, inner.1.2, inner.2))
  ∧ let inner := algo_call (algo self) agent s a r new_s new_a t true in
    call self agent s a r new_s new_a t true = (set_algo self inner.1.1, inner.1.2, inner.2).
Proof.
  intros self'. split.
  - destruct (choices_Ok (keys self') (nsim self) (random self)) as (samp & Hsamp & Hlen & Hin).
    { intros Hnil. assert ((s, a) ∈ keys self') as Hsa.
      { apply elem_of_keys. cbn. rewrite lookup_insert_eq. by eexists. }
      rewrite Hnil in Hsa. by apply elem_of_nil in Hsa. }
    assert (∀ p, p ∈ samp → is_Some (model self' !! p)) as Hknown.
    { intros p Hp. by apply elem_of_keys, Hin. }
    exists samp. split; [done|]. split; [done|]. split; [done|].
    unfold call. cbn [negb self_update self_simulate self_algo self_set_algo Dyna_Methods].
    fold self'. unfold simulate.
    change (nsim self') with (nsim self). change (random self') with (random self).
    rewrite Hsamp, simulate_loop_replay by done.
    rewrite replay_advance_random. cbn [algo advance_random].
    by destruct (algo_call _ _ _ _ _ _ _ _ _) as [[x ag] cmd].
  - unfold call. cbn [negb self_algo self_set_algo Dyna_Methods].
    by destruct (algo_call _ _ _ _ _ _ _ _ _) as [[x ag] cmd].
Qed.
End DynaExtras.

Section SweepExtras.
Context {A : Type} `{!Agent.t A Z Z}.
Context {X : Type} `{!Algo A Z Z X}.
Import PrioritizedSweep PrioritizedSweepSpec.
Implicit Types (self : obj A X) (agent : A) (p : Z * Z) (m : gmap Z (gset (Z * Z))).

Lemma sweep_run_model_latest self (events : list (DynaSpec.event A Z Z)) p :
  consistent self →
  Dyna.model (dyna (run self events)) !! p
  = fold_left (ModelSpec.record p) events (Dyna.model (dyna self) !! p).
Proof.
  revert self. induction events as [|e events IH]; intros self Hc; [done|].
  cbn [run fold_left]. fold (run (step self e) events).
  rewrite IH by by apply step_consistent.
  by rewrite sweep_step_model, record_insert.
Qed.

(** X13.  The invariant of prioritized sweeping, in every state the
    object reaches from construction: the queue is a heap, every pair on
    it is a key of the model, and the reverse model records exactly the
    transitions of the model, so a pair is a predecessor of its current
    successor only and of no earlier one. *)
Theorem sweep_reachable_consistent (x : X) (plan : NStepAlgo.obj A Z Z) (k : nat)
    (th : float) (rnd : nat → nat) (events : list (DynaSpec.event A Z Z)) :
  consistent (run (init x plan k th rnd) events).
Proof. apply run_consistent, consistent_init. Qed.

(** X14.  The model of prioritized sweeping is the one of [Dyna]: the
    entry of a pair is the successor and the reward of the latest real,
    non-terminal transition from it.  The overridden [update] never fails
    on the way: the pair it removes from the reverse model is there. *)
Theorem sweep_model_last_write (x : X) (plan : NStepAlgo.obj A Z Z) (k : nat)
    (th : float) (rnd : nat → nat) (events : list (DynaSpec.event A Z Z)) p :
  Dyna.model (dyna (run (init x plan k th rnd) events)) !! p = ModelSpec.latest events p.
Proof.
  rewrite sweep_run_model_latest by apply consistent_init. cbn. by rewrite lookup_empty.
Qed.

(** X15.  In every state reached from construction, the planning of a
    call does not raise: [update] finds the pair it removes, the queue is
    popped only while it has entries, and every pair replayed or revisited
    as a predecessor is in the model.  The call hands back what the inner
    rule returns, for the agent as planning leaves it, and on a terminal
    transition for the agent as it came. *)
Theorem sweep_call_delegates (x : X) (plan : NStepAlgo.obj A Z Z) (k : nat)
    (th : float) (rnd : nat → nat) (events : list (DynaSpec.event A Z Z))
    agent s a r new_s new_a t term :
  let self : obj A X := run (init x plan k th rnd) events in
  ∃ self' agent',
    (term = true → self' = self ∧ agent' = agent)
    ∧ (term = false → ∃ self1, update self agent s a new_s new_a r = Ok self1
                               ∧ simulate self1 agent = (self', agent', Ok tt))
    ∧ let inner := algo_call (Dyna.algo (dyna self)) agent' s a r new_s new_a t term in
      call self agent s a r new_s new_a t term
      = (set_dyna self' (Dyna.set_algo (dyna self') inner.1.1), inner.1.2, inner.2).
Proof.
  intros self.
  assert (consistent self) as Hc by apply run_consistent, consistent_init.
  unfold call, Dyna.call.
  cbn [Dyna.self_update Dyna.self_simulate Dyna.self_algo Dyna.self_set_algo
       PrioritizedSweep_Methods].
  destruct term; cbn [negb].
  - exists self, agent. split; [done|]. split; [done|].
    by destruct (algo_call _ _ _ _ _ _ _ _ _) as [[x' ag] cmd].
  - destruct (update_spec self agent s a new_s new_a r Hc)
      as (self1 & Hup & Hc1 & _ & _ & _ & _).
    destruct (simulate_loop_spec (Dyna.nsim (dyna self1)) self1 agent Hc1)
      as (self2 & agent2 & Hsim & _ & Hd & _).
    exists self2, agent2. split; [done|]. split; [intros _; by exists self1|].
    rewrite Hup. unfold simulate. rewrite Hsim.
    assert (Dyna.algo (dyna self2) = Dyna.algo (dyna self)) as ->.
    { rewrite Hd. unfold update in Hup.
      destruct (match Dyna.model (dyna self) !! (s, a) with
                | Some (o, _) => rev_remove (rev_model self) o (s, a)
                | None => Ok (rev_model self) end) as [m|]; [|done].
      injection Hup as <-. cbn.
      by destruct (update_pq_fields (set_rev_model self (rev_add m new_s (s, a)))
                     agent s a new_s new_a r) as (-> & _). }
    by destruct (algo_call _ _ _ _ _ _ _ _ _) as [[x' ag] cmd].
Qed.

(** X16.  No surprise, no planning: when the queue is empty and the
    residual of the transition does not exceed [theta], a call only
    records the transition.  Nothing is queued and nothing is replayed, so
    the inner rule is called with the agent as it came, whatever [nsim]
    is. *)
Theorem sweep_quiet_call self agent s a r new_s new_a t :
  consistent self → pq self = [] →
  exceeds self agent s a new_s new_a r = false →
  ∃ self1,
    update self agent s a new_s new_a r = Ok self1
    ∧ pq self1 = []
    ∧ Dyna.model (dyna self1) = <[(s, a) := (new_s, r)]> (Dyna.model (dyna self))
    ∧ let inner := algo_call (Dyna.algo (dyna self)) agent s a r new_s new_a t false in
      call self agent s a r new_s new_a t false
      = (set_dyna self1 (Dyna.set_algo (dyna self1) inner.1.1), inner.1.2, inner.2).
Proof.
  intros Hc Hpq Hex.
  destruct (update_spec self agent s a new_s new_a r Hc)
    as (self1 & Hup & Hc1 & Hperm & Hm & _ & _).
  rewrite Hex, Hpq in Hperm. apply Permutation_nil_r in Hperm.
  exists self1. split; [done|]. split; [done|]. split; [done|].
  unfold call, Dyna.call.
  cbn [negb Dyna.self_update Dyna.self_simulate Dyna.self_algo Dyna.self_set_algo
       PrioritizedSweep_Methods].
  rewrite Hup. unfold simulate.
  assert (∀ n, simulate_loop n self1 agent = (self1, agent, Ok tt)) as ->.
  { intros [|n]; cbn [simulate_loop]; [done|]. by rewrite Hperm. }
  assert (Dyna.algo (dyna self1) = Dyna.algo (dyna self)) as ->.
  { unfold update in Hup.
    destruct (match Dyna.model (dyna self) !! (s, a) with
              | Some (o, _) => rev_remove (rev_model self) o (s, a)
              | None => Ok (rev_model self) end) as [m|]; [|done].
    injection Hup as <-. cbn.
    by destruct (update_pq_fields (set_rev_model self (rev_add m new_s (s, a)))
                   agent s a new_s new_a r) as (-> & _). }
  by destruct (algo_call _ _ _ _ _ _ _ _ _) as [[x' ag] cmd].
Qed.

(** X17.  A residual that is not a number is never queued, and neither is
    anything while [theta] is not a number: the comparison
    [abs(ret - agent.q(s, a)) > theta] is false then and [update_pq] leaves
    the object as it is. *)
Theorem nan_never_queued self agent s a new_s new_a r :
  PrimFloat.is_nan (residual self agent s a new_s new_a r) = true
  ∨ PrimFloat.is_nan (theta self) = true →
  update_pq self agent s a new_s new_a r = self.
Proof.
  intros Hnan. unfold update_pq, exceeds.
  destruct Hnan as [Hnan|Hnan]; [rewrite ltb_nan_r|rewrite ltb_nan_l]; done.
Qed.
End SweepExtras.

Section ExploreExtras.
Context {A St Act : Type} {X : Type} `{!Algo A St Act X}.
Context `{!EqDecision Act, !Countable Act}.
Context {Key : Type} `{!EqDecision Key, !Countable Key} (tuple : St → Key).
Import ExploreBonus ExploreSpec.
Implicit Types (self : obj Act X Key) (agent : A) (table : gmap (Key * Act) Z).

Lemma run_table self (calls : list (A * Transition St Act)) table k a :
  _last_visit self = Some table →
  last_visit (run tuple self calls) k a
  = Ok (last_seen tuple k a calls (default 0 (table !! (k, a)))).
Proof.
  revert self table. induction calls as [|c calls IH]; intros self table Htable.
  - cbn. unfold last_visit. rewrite Htable. by destruct (table !! (k, a)).
  - cbn [run last_seen fold_left]. fold (run tuple (step tuple self c) calls).
    unfold step.
    destruct (decide (- 2 ^ 63 ≤ tr_t c.2 - default 0 (table !! (tuple (tr_s c.2), tr_a c.2))
                      < 2 ^ 64)) as [Hd|Hd].
    + rewrite (call_in_range _ _ _ _ _ _ _ _ _ _ table) by done. cbn [fst].
      rewrite (IH _ (<[(tuple (tr_s c.2), tr_a c.2) := tr_t c.2]> table)) by done.
      unfold last_seen. do 2 f_equal.
      destruct (decide ((tuple (tr_s c.2), tr_a c.2) = (k, a))) as [Heq|Hne].
      * rewrite Heq in Hd |- *. rewrite lookup_insert_eq, decide_True; done.
      * rewrite lookup_insert_ne, decide_False; [done|tauto|done].
    + rewrite (call_out_of_range _ _ _ _ _ _ _ _ _ _ table) by done. cbn [fst].
      rewrite (IH _ table) by done.
      unfold last_seen. do 2 f_equal.
      rewrite decide_False; [done|]. intros [Heq Hr]. by rewrite Heq in Hd.
Qed.

Lemma call_kappa self agent s a r new_s new_a t term :
  kappa (call tuple self agent s a r new_s new_a t term).1.1 = kappa self.
Proof.
  unfold call. destruct (last_visit _ _ _); [|done].
  destruct (_last_visit self); [|done].
  destruct (np_sqrt _); [|done].
  by destruct (algo_call _ _ _ _ _ _ _ _ _) as [[x' ag] cmd].
Qed.

Lemma run_kappa self (calls : list (A * Transition St Act)) :
  kappa (run tuple self calls) = kappa self.
Proof.
  revert self. induction calls as [|c calls IH]; intros self; [done|].
  cbn [run fold_left]. fold (run tuple (step tuple self c) calls).
  rewrite IH. apply call_kappa.
Qed.

(** X18.  The table of last visits over an episode: after any calls, the
    last visit of a pair is the time of the latest call made for it in this
    episode that got as far as recording it, and 0 when there was none
    since [init_episode], whether or not the inner rule raised on the way.
    A call records its time unless [np.sqrt] rejects its distance to the
    last visit, which fits neither [int64] nor [uint64] then. *)
Theorem last_visit_is_latest_call self s0 a0 (calls : list (A * Transition St Act)) k a :
  last_visit (run tuple (init_episode self s0 a0) calls) k a
  = Ok (last_seen tuple k a calls 0).
Proof. by rewrite (run_table _ _ ∅). Qed.

(** X20.  The bonus over an episode: after any calls of the episode, a
    call for a pair at a distance [0 <= t - last < 2^63] from its last
    recorded visit [last] (0 when there was none) hands the inner rule the
    reward [r + kappa * sqrt(t - last)] and records [t]; the command and the
    agent are the inner rule's.  So a pair not tried yet in the episode
    earns [kappa * sqrt(t)], not a fixed bonus. *)
Theorem bonus_over_episode self s0 a0 (calls : list (A * Transition St Act))
    agent s a r new_s new_a t term :
  let episode := run tuple (init_episode self s0 a0) calls in
  let last := last_seen tuple (tuple s) a calls 0 in
  0 ≤ t - last < 2 ^ 63 →
  let bonus := (kappa self * PrimFloat.sqrt (PrimFloat.of_uint63 (Uint63.of_Z (t - last))))%float in
  let inner := algo_call (algo episode) agent s a (r + bonus)%float new_s new_a t term in
  let out := call tuple episode agent s a r new_s new_a t term in
  out.2 = inner.2 ∧ out.1.2 = inner.1.2 ∧ algo out.1.1 = inner.1.1
  ∧ last_visit out.1.1 (tuple s) a = Ok t.
Proof.
  intros episode last Hd bonus inner out.
  pose proof (run_table (init_episode self s0 a0) calls ∅ (tuple s) a eq_refl) as Hlast.
  fold episode in Hlast. rewrite lookup_empty in Hlast. cbn [default] in Hlast.
  fold last in Hlast.
  pose proof (run_kappa (init_episode self s0 a0) calls) as Hk. fold episode in Hk.
  cbn [kappa init_episode] in Hk.
  unfold last_visit in Hlast.
  destruct (_last_visit episode) as [table|] eqn:Htable; [|done].
  assert (default 0 (table !! (tuple s, a)) = last) as Hdef.
  { destruct (table !! (tuple s, a)); cbn; congruence. }
  unfold out. rewrite (call_in_range _ _ _ _ _ _ _ _ _ _ table) by (rewrite ?Hdef; done || lia).
  rewrite Hdef, Hk, float_of_Z_uint63 by done. fold bonus inner. cbn [fst snd algo].
  repeat split. unfold last_visit. cbn. by rewrite lookup_insert_eq.
Qed.
End ExploreExtras.

Section ExploreDyna.
Context {A St Act : Type} `{!Agent.t A St Act}.
Context `{!EqDecision St, !Countable St, !EqDecision Act, !Countable Act}.
Context {X : Type} `{!Algo A St Act X}.
Context {Key : Type} `{!EqDecision Key, !Countable Key} (tuple : St → Key).
Import ExploreBonus.
Implicit Types (self : obj Act (Dyna.obj A St Act X) Key) (agent : A).

(** X19.  The bonus reaches the model: around [Dyna], a transition that
    is not terminal, for a pair at a distance [0 <= t - last_visit < 2^63]
    from its last visit, is recorded with the reward
    [r + kappa * sqrt(t - last_visit)] the wrapper hands down, not with the
    reward of the environment, so planning replays the bonus of the moment
    the pair was last tried. *)
Theorem explore_bonus_enters_model self agent s a r new_s new_a t table :
  _last_visit self = Some table →
  let last := default 0 (table !! (tuple s, a)) in
  0 ≤ t - last < 2 ^ 63 →
  let out := call tuple self agent s a r new_s new_a t false in
  Dyna.model (algo out.1.1) !! (s, a)
  = Some (new_s,
          (r + kappa self * PrimFloat.sqrt (PrimFloat.of_uint63 (Uint63.of_Z (t - last))))%float).
Proof.
  intros Htable last Hd out.
  set (r' := (r + kappa self * PrimFloat.sqrt (PrimFloat.of_uint63 (Uint63.of_Z (t - last))))%float).
  pose proof (step_model (algo self)
    (DynaSpec.Call agent (mkTransition s a r' new_s new_a t false))) as Hm.
  cbn [DynaSpec.step tr_s tr_a tr_r tr_new_s tr_new_a tr_t tr_terminal] in Hm.
  unfold out. rewrite (call_in_range _ _ _ _ _ _ _ _ _ _ table) by (done || (fold last; lia)).
  fold last. rewrite float_of_Z_uint63 by done. fold r'.
  cbn [fst algo algo_call Dyna.Dyna_Algo].
  by rewrite Hm, lookup_insert_eq.
Qed.
End ExploreDyna.

Lemma sweep_quiet_call_witness :
  ∃ self1,
    PrioritizedSweep.update (Scenario.sweep_init 2) Scenario.zero_agent 0 0 1 0 0.01%float
    = Ok self1
    ∧ PrioritizedSweep.pq self1 = []
    ∧ Dyna.model (PrioritizedSweep.dyna self1) = {[ (0, 0) := (1, 0.01%float) ]}
    ∧ (PrioritizedSweep.call (Scenario.sweep_init 2) Scenario.zero_agent
         0 0 0.01%float 1 0 0 false).1.2 = Scenario.zero_agent.
Proof.
  destruct (sweep_quiet_call (Scenario.sweep_init 2) Scenario.zero_agent
              0 0 0.01%float 1 0 0) as (self1 & Hup & Hpq & Hm & Hcall);
    [apply consistent_init|reflexivity|reflexivity|].
  exists self1. split; [exact Hup|]. split; [exact Hpq|]. split; [exact Hm|].
  rewrite Hcall. reflexivity.
Defined.

Lemma nan_never_queued_witness :
  PrioritizedSweep.update_pq (Scenario.sweep_init 2) Scenario.zero_agent 0 0 1 0 nan
  = Scenario.sweep_init 2.
Proof.
  apply nan_never_queued. left. reflexivity.
Defined.

Lemma explore_bonus_enters_model_witness :
  Dyna.model (ExploreBonus.algo
                (ExploreBonus.call id Composed.explore_dyna Scenario.feature_agent
                   [3; 4] 0 1%float [3; 5] 0 4 false).1.1) !! ([3; 4], 0)
  = Some ([3; 5], 1.1%float).
Proof.
  rewrite (explore_bonus_enters_model id Composed.explore_dyna Scenario.feature_agent
             [3; 4] 0 1%float [3; 5] 0 4 ∅);
    [|reflexivity|split; [vm_compute; discriminate|vm_compute; reflexivity]].
  vm_compute. reflexivity.
Defined.

Lemma bonus_over_episode_witness :
  result_map cmd_ret
    (ExploreBonus.call id
       (ExploreSpec.run id (ExploreBonus.init_episode Scenario.explore [3; 4] 0)
                        Composed.visits)
       Scenario.feature_agent [3; 4] 0 1%float [3; 6] 0 5 false).2
  = Ok (Some 1.1%float).
Proof.
  destruct (bonus_over_episode id Scenario.explore [3; 4] 0 Composed.visits
              Scenario.feature_agent [3; 4] 0 1%float [3; 6] 0 5 false)
    as (Hout & _); [split; [vm_compute; discriminate|vm_compute; reflexivity]|].
  rewrite Hout. vm_compute. reflexivity.
Defined.
